(** * Pygrep: the Aho-Corasick keyword tree of [keywordtree.py]

    A shallow embedding of [State], [KeywordTree] and [main], and the
    properties of the specification proved about them.

    Modelling decisions.
    - Python objects live in a heap, a list of [State] records; a reference
      ([ref]) is an index in that list, and the Python test [a is b] on two
      states is equality of references.  [State(...)] allocates at the end
      of the heap.
    - A symbol is a code point from 0 to 255 (Latin-1), held in an [ascii],
      and a text is a [string] of such symbols.  On these texts [str.lower]
      works symbol by symbol: it adds 32 to the code points 65-90 (A-Z) and
      192-222 except 215 (the accented capitals; 215 is the multiplication
      sign), and leaves every other symbol, so it keeps the length of a
      text.  Texts with code points above 255, where [str.lower] can
      lengthen a text or depend on the context, are outside the model.
    - A Python [dict] is an association list in insertion order with unique
      keys; iterating over a dict follows the iterator protocol, which
      raises [RuntimeError] when the dict changed size.
    - Methods are computations in a state-and-exception monad over the
      [KeywordTree]; an exception leaves the state as it was when raised.
    - [search_lss] calls itself, and every nested call takes a frame of the
      interpreter's stack, which has a limit.  The fuel of [finalize] and
      of [search_lss] is the number of frames that the interpreter still
      allows to [search_lss]: a call that finds none raises
      [RecursionError], as CPython does, and leaves the tree as it is at
      that point.
    - [while] loops take no frame but need a bound on their steps; a loop
      stopped by its bound gives the outcome [OutOfFuel], distinct from
      every Python outcome.  The two loops of the finalize phase have a
      bound computed from the number of states, which is never reached in
      a tree built by [add] ([finalize_outcomes]); the loops of
      [search_all] take their bound as fuel. *)

From Stdlib Require Import Ascii String.
From stdpp Require Import base list gmap strings sorting.

Local Open Scope string_scope.
Local Open Scope list_scope.
Local Open Scope nat_scope.

(** ** Symbols and texts *)

Abbreviation chars := list_ascii_of_string.

(** [str.lower()] on one symbol: the capitals of Latin-1 are the code points
    65-90 and 192-222 without 215, each 32 below its small letter *)
Definition lower_symbol (c : ascii) : ascii :=
  let n := nat_of_ascii c in
  if (65 <=? n)%nat && (n <=? 90)%nat
     || (192 <=? n)%nat && (n <=? 222)%nat && negb (n =? 215)%nat
  then ascii_of_nat (n + 32) else c.

(** [str.lower()], on a text of such symbols *)
Definition lower (s : string) : string :=
  string_of_list_ascii (map lower_symbol (chars s)).

(** ** Dictionaries keyed by symbols *)

Abbreviation ref := nat.

Abbreviation dict := (list (ascii * ref)).

(** [d[k]], [None] standing for [KeyError] *)
Fixpoint dict_get (k : ascii) (d : dict) : option ref :=
  match d with
  | [] => None
  | (k', v) :: d' => if decide (k' = k) then Some v else dict_get k d'
  end.

(** [d[k] = v]: overwrite in place, or insert at the end *)
Fixpoint dict_set (k : ascii) (v : ref) (d : dict) : dict :=
  match d with
  | [] => [(k, v)]
  | (k', v') :: d' =>
      if decide (k' = k) then (k', v) :: d' else (k', v') :: dict_set k v d'
  end.

(** a key that may be Python's [None], which is never a key of the dict *)
Definition dict_find (k : option ascii) (d : dict) : option ref :=
  match k with
  | Some c => dict_get c d
  | None => None
  end.

(** ** States and the keyword tree *)

Record State := mkState {
  identifier : nat;
  symbol : option ascii;
  success : bool;
  transitions : dict;
  parent : option ref;
  matched_keyword : option string;
  longest_strict_suffix : option ref
}.

(** [State(identifier, symbol, parent)] *)
Definition new_State (identifier : nat) (symbol : option ascii)
    (parent : option ref) : State :=
  {| identifier := identifier; symbol := symbol; success := false;
     transitions := []; parent := parent; matched_keyword := None;
     longest_strict_suffix := None |}.

Definition with_transitions (d : dict) (s : State) : State :=
  {| identifier := identifier s; symbol := symbol s; success := success s;
     transitions := d; parent := parent s;
     matched_keyword := matched_keyword s;
     longest_strict_suffix := longest_strict_suffix s |}.

Definition with_suffix (l : option ref) (s : State) : State :=
  {| identifier := identifier s; symbol := symbol s; success := success s;
     transitions := transitions s; parent := parent s;
     matched_keyword := matched_keyword s;
     longest_strict_suffix := l |}.

Definition with_match (k : string) (s : State) : State :=
  {| identifier := identifier s; symbol := symbol s; success := true;
     transitions := transitions s; parent := parent s;
     matched_keyword := Some k;
     longest_strict_suffix := longest_strict_suffix s |}.

Record KeywordTree := mkTree {
  heap : list State;
  _counter : nat;
  _finalized : bool;
  _case_insensitive : bool
}.

(** the root is the first object allocated *)
Definition _zero_state : ref := 0.

(** [KeywordTree(case_insensitive)] *)
Definition new_KeywordTree (case_insensitive : bool) : KeywordTree :=
  {| heap := [new_State 0 None None]; _counter := 1; _finalized := false;
     _case_insensitive := case_insensitive |}.

Definition with_heap (h : list State) (t : KeywordTree) : KeywordTree :=
  {| heap := h; _counter := _counter t; _finalized := _finalized t;
     _case_insensitive := _case_insensitive t |}.

(** ** The monad of methods *)

Inductive exn :=
  | ValueError      (* the StateError of the specification *)
  | AttributeError  (* an attribute of None *)
  | RuntimeError    (* dictionary changed size during iteration *)
  | RecursionError  (* more nested calls than the interpreter allows *)
  | BadRef.         (* a reference outside the heap; no Python counterpart *)

Inductive res (A : Type) :=
  | Ok (a : A)
  | Raise (e : exn)
  | OutOfFuel.
Arguments Ok {A} a.
Arguments Raise {A} e.
Arguments OutOfFuel {A}.

Definition M (A : Type) : Type := KeywordTree → res A * KeywordTree.

Definition ret {A} (a : A) : M A := λ t, (Ok a, t).
Definition raise {A} (e : exn) : M A := λ t, (Raise e, t).
Definition out_of_fuel {A} : M A := λ t, (OutOfFuel, t).

Definition bind {A B} (m : M A) (k : A → M B) : M B :=
  λ t, match m t with
       | (Ok a, t') => k a t'
       | (Raise e, t') => (Raise e, t')
       | (OutOfFuel, t') => (OutOfFuel, t')
       end.

Notation "'let*' x ':=' m 'in' k" := (bind m (λ x, k))
  (at level 10, x pattern, m at level 100, k at level 200).
Notation "m ';;' k" := (bind m (λ _, k))
  (at level 100, k at level 200, right associativity).

(** reading an object through a reference *)
Definition deref (r : ref) : M State :=
  λ t, match heap t !! r with
       | Some s => (Ok s, t)
       | None => (Raise BadRef, t)
       end.

(** reading an attribute of a value that may be [None] *)
Definition deref_opt (r : option ref) : M State :=
  match r with
  | Some r => deref r
  | None => raise AttributeError
  end.

(** mutating the object behind a reference *)
Definition modify (r : ref) (f : State → State) : M unit :=
  λ t, match heap t !! r with
       | Some s => (Ok tt, with_heap (<[r := f s]> (heap t)) t)
       | None => (Raise BadRef, t)
       end.

(** [State(self._counter, parent=..., symbol=...)], giving the new reference *)
Definition alloc (s : State) : M ref :=
  λ t, (Ok (length (heap t)), with_heap (heap t ++ [s]) t).

Definition get_counter : M nat := λ t, (Ok (_counter t), t).

Definition incr_counter : M unit :=
  λ t, (Ok tt, {| heap := heap t; _counter := _counter t + 1;
                  _finalized := _finalized t;
                  _case_insensitive := _case_insensitive t |}).

Definition set_finalized : M unit :=
  λ t, (Ok tt, {| heap := heap t; _counter := _counter t;
                  _finalized := true;
                  _case_insensitive := _case_insensitive t |}).

(** one [next()] of an iterator over a dict that had [size0] entries when
    the iteration started *)
Definition dict_next (size0 pos : nat) (d : dict) : M (option (ascii * ref)) :=
  if decide (length d = size0) then ret (d !! pos) else raise RuntimeError.

(** ** [KeywordTree.add] *)

(** the body of [for char in keyword] *)
Fixpoint add_loop (keyword : list ascii) (current_state : ref) : M ref :=
  match keyword with
  | [] => ret current_state
  | char :: keyword' =>
      let* cur := deref current_state in
      match dict_get char (transitions cur) with
      | Some next_state => add_loop keyword' next_state
      | None =>
          let* c := get_counter in
          let* next_state :=
            alloc (new_State c (Some char) (Some current_state)) in
          incr_counter ;;
          modify current_state
            (λ s, with_transitions (dict_set char next_state (transitions s)) s) ;;
          add_loop keyword' next_state
      end
  end.

Definition add (keyword : string) : M unit :=
  λ self,
    if _finalized self then raise ValueError self
    else
      let original_keyword := keyword in
      let keyword :=
        if _case_insensitive self then lower keyword else keyword in
      if (String.length keyword <=? 0)%nat then ret tt self
      else
        (let* current_state := add_loop (chars keyword) _zero_state in
         modify current_state (with_match original_keyword)) self.

(** ** [KeywordTree.search_lss] *)

(** the [while True] loop, from [traversed] on, with [fuel] steps at most *)
Fixpoint lss_loop (fuel : nat) (state : ref) (traversed : option ref)
    : M unit :=
  match fuel with
  | 0 => out_of_fuel
  | S fuel =>
      let* st := deref state in
      let* tr := deref_opt traversed in
      match dict_find (symbol st) (transitions tr) with
      | Some target =>
          if decide (target ≠ state) then
            modify state (with_suffix (Some target))
          else if decide (traversed = Some _zero_state) then
            modify state (with_suffix (Some _zero_state))
          else lss_loop fuel state (longest_strict_suffix tr)
      | None =>
          if decide (traversed = Some _zero_state) then
            modify state (with_suffix (Some _zero_state))
          else lss_loop fuel state (longest_strict_suffix tr)
      end
  end.

(** [for symbol, next_state in suffix.transitions.items()], with [n] items
    left to visit *)
Fixpoint merge_loop (n pos size0 : nat) (suffix state : ref) : M unit :=
  let* sf := deref_opt (Some suffix) in
  let* item := dict_next size0 pos (transitions sf) in
  match item, n with
  | Some (symbol, next_state), S n' =>
      let* st := deref state in
      match dict_get symbol (transitions st) with
      | None =>
          modify state
            (λ s, with_transitions (dict_set symbol next_state (transitions s)) s)
      | Some _ => ret tt
      end ;;
      merge_loop n' (S pos) size0 suffix state
  | _, _ => ret tt
  end.

(** the [while True] loop of [search_lss]: every step but the last follows
    a suffix link, to a state nearer the root, so that a step for each
    state of the tree is enough *)
Definition suffix_search (state : ref) (traversed : option ref) : M unit :=
  λ self, lss_loop (length (heap self)) state traversed self.

(** [fuel] is the number of frames left for [search_lss] and the calls
    nested in it *)
Fixpoint search_lss (fuel : nat) (state : ref) : M unit :=
  match fuel with
  | 0 => raise RecursionError
  | S fuel =>
      let zero_state := _zero_state in
      let* st := deref state in
      let* pa := deref_opt (parent st) in
      let traversed := longest_strict_suffix pa in
      suffix_search state traversed ;;
      let* st := deref state in
      let suffix := longest_strict_suffix st in
      if decide (suffix = Some zero_state) then ret tt
      else
        let* sf := deref_opt suffix in
        match longest_strict_suffix sf with
        | None =>
            match suffix with
            | Some suffix => search_lss fuel suffix
            | None => ret tt
            end
        | Some _ => ret tt
        end ;;
        let* sf := deref_opt suffix in
        match suffix with
        | Some suffix =>
            merge_loop (length (transitions sf)) 0 (length (transitions sf))
              suffix state
        | None => ret tt
        end
  end.

(** ** [KeywordTree.search_lss_for_children] *)

(** [for child in state.transitions.values()], with [n] items left to visit;
    [to_process] is kept with its last element first, so that [append] is a
    cons and [pop] takes the head *)
Fixpoint children_loop (fuel : nat) (n pos size0 : nat) (state : ref)
    (processed : gset nat) (to_process : list ref) : M (list ref) :=
  let* st := deref state in
  let* item := dict_next size0 pos (transitions st) in
  match item, n with
  | Some (_, child), S n' =>
      let* ch := deref child in
      if decide (identifier ch ∉ processed) then
        search_lss fuel child ;;
        children_loop fuel n' (S pos) size0 state processed
          (child :: to_process)
      else
        children_loop fuel n' (S pos) size0 state processed to_process
  | _, _ => ret to_process
  end.

(** [while to_process], [steps] bounding the number of iterations *)
Fixpoint process_loop (steps fuel : nat) (processed : gset nat)
    (to_process : list ref) : M unit :=
  match to_process with
  | [] => ret tt
  | state :: to_process =>
      match steps with
      | 0 => out_of_fuel
      | S steps =>
          let* st := deref state in
          let processed := processed ∪ {[ identifier st ]} in
          let* to_process :=
            children_loop fuel (length (transitions st)) 0
              (length (transitions st)) state processed to_process in
          process_loop steps fuel processed to_process
      end
  end.

(** [fuel] frames for each call of [search_lss]; the [while] loop takes no
    frame, and [n * (2 * n + 1) + 1] steps are enough for it in a tree of
    [n] states ([process_loop_spec]) *)
Definition search_lss_for_children (fuel : nat) (zero_state : ref) : M unit :=
  λ self,
    let n := length (heap self) in
    process_loop (S (n * (2 * n + 1))) fuel ∅ [zero_state] self.

(** ** [KeywordTree.finalize] *)

Definition finalize (fuel : nat) : M unit :=
  λ self,
    if _finalized self then raise ValueError self
    else
      (modify _zero_state (with_suffix (Some _zero_state)) ;;
       search_lss_for_children fuel _zero_state ;;
       set_finalized) self.

(** ** [KeywordTree.search_all] *)

(** [while state is not zero_state]; the list [ret] grows at its end *)
Fixpoint emit_loop (fuel : nat) (state : option ref)
    (ret_ : list (option string)) : M (list (option string)) :=
  if decide (state = Some _zero_state) then ret ret_
  else
    match fuel with
    | 0 => out_of_fuel
    | S fuel =>
        let* st := deref_opt state in
        let ret_ :=
          if success st then ret_ ++ [matched_keyword st] else ret_ in
        emit_loop fuel (longest_strict_suffix st) ret_
    end.

(** [current_state.transitions.get(symbol,
       zero_state.transitions.get(symbol, zero_state))] *)
Definition step (zero cur : State) (symbol : ascii) : ref :=
  default (default _zero_state (dict_get symbol (transitions zero)))
    (dict_get symbol (transitions cur)).

(** [for idx, symbol in enumerate(text)] *)
Fixpoint scan_loop (fuel : nat) (text : list ascii) (current_state : ref)
    (ret_ : list (option string)) : M (list (option string)) :=
  match text with
  | [] => ret ret_
  | symbol :: text' =>
      let* cur := deref current_state in
      let* zero := deref _zero_state in
      let current_state := step zero cur symbol in
      let* ret_ := emit_loop fuel (Some current_state) ret_ in
      scan_loop fuel text' current_state ret_
  end.

Definition search_all (fuel : nat) (text : string)
    : M (list (option string)) :=
  λ self,
    if negb (_finalized self) then raise ValueError self
    else
      let text := if _case_insensitive self then lower text else text in
      scan_loop fuel (chars text) _zero_state [] self.

(** ** [main] *)

Inductive output :=
  | Readme                    (* [readme()] was printed *)
  | Lines (ret_ : list nat).  (* [print(ret)] *)

(** [for i in range(2, args): kwtree.add(argv[i])] *)
Fixpoint add_all (keywords : list string) : M unit :=
  match keywords with
  | [] => ret tt
  | k :: keywords' => add k ;; add_all keywords'
  end.

(** [elem in result] *)
Definition elem_in (result : list (option string)) (elem : string) : bool :=
  bool_decide (Some elem ∈ result).

(** [for i in range(len(filelines))], from line [i] on *)
Fixpoint lines_loop (fuel : nat) (connector : string) (kw : list string)
    (filelines : list string) (i : nat) (ret_ : list nat) : M (list nat) :=
  match filelines with
  | [] => ret ret_
  | line :: filelines' =>
      let* result := search_all fuel line in
      let ret_ :=
        if decide (connector = "and") then
          if forallb (elem_in result) kw then ret_ ++ [i + 1] else ret_
        else
          if existsb (elem_in result) kw then ret_ ++ [i + 1] else ret_ in
      lines_loop fuel connector kw filelines' (S i) ret_
  end.

(** [argv] is the whole argument vector, script name first; [filelines] is
    what [readlines()] gave for the file [argv[1]] *)
Definition main (fuel : nat) (argv : list string) (filelines : list string)
    : res output :=
  let args := length argv in
  match argv with
  | _ :: _ :: argv2 :: argv3 :: kw =>
      if (args <? 6)%nat
         || negb (bool_decide (argv2 ∈ ["true"; "false"]))
         || negb (bool_decide (argv3 ∈ ["and"; "or"]))
      then Ok Readme
      else
        let kwtree := new_KeywordTree (bool_decide (argv2 = "false")) in
        match
          (add_all (drop 2 argv) ;;
           finalize fuel ;;
           lines_loop fuel argv3 kw filelines 0 []) kwtree
        with
        | (Ok ret_, _) => Ok (Lines ret_)
        | (Raise e, _) => Raise e
        | (OutOfFuel, _) => OutOfFuel
        end
  | _ => Ok Readme
  end.

(** ** Automata reached through the interface *)

(** the tree after [KeywordTree(case_insensitive)] and [add] of every keyword
    of [ks], in order *)
Definition built (case_insensitive : bool) (ks : list string) : KeywordTree :=
  snd (add_all ks (new_KeywordTree case_insensitive)).

(** that tree after [finalize()] *)
Definition automaton (fuel : nat) (case_insensitive : bool)
    (ks : list string) : KeywordTree :=
  snd (finalize fuel (built case_insensitive ks)).

(** * Properties *)

(** ** Dictionaries *)

Lemma dict_get_elem k v (d : dict) : dict_get k d = Some v → (k, v) ∈ d.
Proof.
  induction d as [|[k' v'] d IH]; simpl; [done|].
  case_decide; intros; simplify_eq; [left | right; auto].
Qed.

Lemma dict_get_None k (d : dict) : dict_get k d = None ↔ k ∉ d.*1.
Proof.
  induction d as [|[k' v'] d IH]; simpl.
  - split; [intros _; apply not_elem_of_nil | done].
  - rewrite not_elem_of_cons. case_decide; simplify_eq.
    + split; [done | intros [? _]; done].
    + rewrite IH. split; [by split | by intros [_ ?]].
Qed.

Lemma dict_elem_get k v (d : dict) :
  NoDup d.*1 → (k, v) ∈ d → dict_get k d = Some v.
Proof.
  induction d as [|[k' v'] d IH]; simpl; intros Hnd Hin.
  - by apply elem_of_nil in Hin.
  - apply NoDup_cons in Hnd as [Hk Hnd].
    apply elem_of_cons in Hin as [Heq|Hin]; simplify_eq.
    + by rewrite decide_True.
    + rewrite decide_False; [auto|].
      intros ->. apply Hk. apply list_elem_of_fmap. by exists (k, v).
Qed.

Lemma dict_set_fresh k v (d : dict) :
  dict_get k d = None → dict_set k v d = d ++ [(k, v)].
Proof.
  induction d as [|[k' v'] d IH]; simpl; [done|].
  case_decide; [done|]. intros H'. by rewrite IH.
Qed.

Lemma dict_get_app k (d d' : dict) :
  dict_get k (d ++ d') =
  match dict_get k d with Some v => Some v | None => dict_get k d' end.
Proof.
  induction d as [|[k' v'] d IH]; simpl; [done|]. by case_decide.
Qed.

Lemma dict_get_snoc k c v (d : dict) :
  dict_get k (d ++ [(c, v)]) =
  match dict_get k d with
  | Some w => Some w
  | None => if decide (c = k) then Some v else None
  end.
Proof. by rewrite dict_get_app. Qed.

Lemma dict_keys_snoc c v (d : dict) :
  NoDup d.*1 → dict_get c d = None → NoDup (d ++ [(c, v)]).*1.
Proof.
  intros Hnd Hc. rewrite fmap_app. apply NoDup_app. split; [done|].
  split; [|apply NoDup_singleton].
  intros x Hx Hx'. apply list_elem_of_singleton in Hx'. simpl in Hx'. subst.
  by apply dict_get_None in Hc.
Qed.

(** ** The monad *)

Lemma with_heap_id t : with_heap (heap t) t = t.
Proof. by destruct t. Qed.

Lemma with_heap_twice h h' t : with_heap h (with_heap h' t) = with_heap h t.
Proof. done. Qed.

Lemma bind_ok {A B} (m : M A) (k : A → M B) t a t' :
  m t = (Ok a, t') → bind m k t = k a t'.
Proof. unfold bind. by intros ->. Qed.

Lemma deref_ok t r s : heap t !! r = Some s → deref r t = (Ok s, t).
Proof. unfold deref. by intros ->. Qed.

Lemma modify_ok t r f s :
  heap t !! r = Some s →
  modify r f t = (Ok tt, with_heap (<[r := f s]> (heap t)) t).
Proof. unfold modify. by intros ->. Qed.

(** ** Views of the heap *)

Definition lss_of (h : list State) (a : ref) : option ref :=
  h !! a ≫= longest_strict_suffix.
Definition parent_of (h : list State) (a : ref) : option ref :=
  h !! a ≫= parent.
Definition symbol_of (h : list State) (a : ref) : option ascii :=
  h !! a ≫= symbol.
Definition entries (h : list State) (a : ref) : dict :=
  from_option transitions [] (h !! a).
Definition finished (h : list State) (a : ref) : Prop :=
  is_Some (lss_of h a).

(** the keyword as the tree stores it along its path *)
Definition normk (case_insensitive : bool) (k : string) : list ascii :=
  chars (if case_insensitive then lower k else k).

(** [k] is the last keyword of [ks] among those stored along the same path *)
Definition last_form (ci : bool) (ks : list string) (k : string) : Prop :=
  ∃ l1 l2, ks = l1 ++ k :: l2 ∧ ∀ k', k' ∈ l2 → normk ci k' ≠ normk ci k.

(** ** The invariant of the heap

    [pth a] is the word spelled from the root to the state [a]; [ks] are the
    keywords added so far. *)
Record auto_inv (ci : bool) (ks : list string) (pth : ref → list ascii)
    (h : list State) : Prop := {
  ai_root : pth 0 = [] ∧
    ∃ st, h !! 0 = Some st ∧ parent st = None ∧ symbol st = None;
  ai_id : ∀ a st, h !! a = Some st → identifier st = a;
  ai_node : ∀ a st, h !! a = Some st → a ≠ 0 →
    ∃ p c, parent st = Some p ∧ symbol st = Some c ∧ p < a ∧
           dict_get c (entries h p) = Some a ∧ pth a = pth p ++ [c];
  ai_match : ∀ a st, h !! a = Some st → success st = true →
    ∃ k, matched_keyword st = Some k ∧ last_form ci ks k ∧
         normk ci k = pth a ∧ a ≠ 0;
  ai_keys : ∀ a st, h !! a = Some st → NoDup (transitions st).*1;
  ai_tr : ∀ a c j, (c, j) ∈ entries h a →
    j < length h ∧ symbol_of h j = Some c ∧ pth j `suffix_of` pth a ++ [c];
  ai_lss : ∀ a j, lss_of h a = Some j →
    j < length h ∧
    if decide (a = 0) then j = 0
    else pth j `suffix_of` pth a ∧ length (pth j) < length (pth a);
  ai_par : ∀ a c j, (c, j) ∈ entries h a →
    parent_of h j = Some a ∨ ∃ p, parent_of h j = Some p ∧ finished h p;
  ai_fresh : ∀ a c j, lss_of h a = None → (c, j) ∈ entries h a →
    parent_of h j = Some a;
  ai_inj : ∀ a b, a < length h → b < length h → pth a = pth b → a = b
}.

(** the invariant of the build phase: no suffix link is set and the counter
    is the next free reference *)
Definition build_inv (ks : list string) (pth : ref → list ascii)
    (t : KeywordTree) : Prop :=
  auto_inv (_case_insensitive t) ks pth (heap t) ∧
  (∀ a, lss_of (heap t) a = None) ∧
  _counter t = length (heap t) ∧
  _finalized t = false.

Lemma entries_lookup h a st : h !! a = Some st → entries h a = transitions st.
Proof. unfold entries. by intros ->. Qed.

Lemma entries_valid h a c j : (c, j) ∈ entries h a → a < length h.
Proof.
  unfold entries. destruct (h !! a) eqn:E; simpl.
  - intros _. by eapply lookup_lt_Some.
  - intros H'. by apply elem_of_nil in H'.
Qed.

Lemma auto_inv_depth ci ks pth h a :
  auto_inv ci ks pth h → a < length h → length (pth a) ≤ a.
Proof.
  intros Hi. induction a as [a IH] using lt_wf_ind. intros Ha.
  destruct (decide (a = 0)) as [->|Hne].
  - destruct (ai_root _ _ _ _ Hi) as [-> _]. simpl. lia.
  - apply lookup_lt_is_Some_2 in Ha as [st Hst].
    destruct (ai_node _ _ _ _ Hi a st Hst Hne) as (p & c & _ & _ & Hp & _ & ->).
    rewrite length_app. simpl.
    assert (length (pth p) ≤ p); [|lia].
    apply IH; [done|]. apply lookup_lt_Some in Hst. lia.
Qed.

Lemma auto_inv_target_nonzero ci ks pth h a c j :
  auto_inv ci ks pth h → (c, j) ∈ entries h a → j ≠ 0.
Proof.
  intros Hi Hin ->. destruct (ai_tr _ _ _ _ Hi _ _ _ Hin) as (_ & Hs & _).
  destruct (ai_root _ _ _ _ Hi) as (_ & st & Hst & _ & Hsym).
  unfold symbol_of in Hs. rewrite Hst in Hs. simpl in Hs. congruence.
Qed.

Lemma last_form_elem ci ks k : last_form ci ks k → k ∈ ks.
Proof.
  intros (l1 & l2 & -> & _). rewrite elem_of_app, elem_of_cons. auto.
Qed.

Lemma last_form_snoc ci ks k k0 :
  last_form ci ks k → normk ci k0 ≠ normk ci k →
  last_form ci (ks ++ [k0]) k.
Proof.
  intros (l1 & l2 & -> & Hl) Hne. exists l1, (l2 ++ [k0]).
  split; [by rewrite <- app_assoc|].
  intros k' [?|Hk%list_elem_of_singleton]%elem_of_app; [auto|by subst].
Qed.

Lemma last_form_last ci ks k : last_form ci (ks ++ [k]) k.
Proof.
  exists ks, []. split; [done|]. intros k' Hk'. by apply elem_of_nil in Hk'.
Qed.

(** another keyword, stored along a path at which no keyword ends, joins
    the keywords added *)
Lemma auto_inv_snoc ci ks k0 pth h :
  (∀ a st, h !! a = Some st → success st = true → normk ci k0 ≠ pth a) →
  auto_inv ci ks pth h → auto_inv ci (ks ++ [k0]) pth h.
Proof.
  intros Hk0 [H1 H2 H3 H4 H5 H6 H7 H8 H9 H10].
  split; try done.
  intros a st Hst Hs. destruct (H4 a st Hst Hs) as (k & ? & ? & Hn & ?).
  exists k. split_and!; auto. apply last_form_snoc; [done|].
  rewrite Hn. by eapply Hk0.
Qed.

Lemma auto_inv_pth_nonzero ci ks pth h a :
  auto_inv ci ks pth h → a < length h → a ≠ 0 → pth a ≠ [].
Proof.
  intros Hinv Ha Hne. apply lookup_lt_is_Some_2 in Ha as [st Hst].
  destruct (ai_node _ _ _ _ Hinv _ _ Hst Hne) as (p & c & _ & _ & _ & _ & ->).
  by destruct (pth p).
Qed.

(** ** The build phase *)

Lemma new_KeywordTree_inv ci : build_inv [] (λ _, []) (new_KeywordTree ci).
Proof.
  split; [|split_and!; try done; by intros [|[|a]]].
  split; simpl.
  - split; [done|]. by eexists.
  - intros [|a] st H'; [by simplify_eq/=|]. by destruct a.
  - intros [|a] st H' Hne; [done|]. by destruct a.
  - intros [|a] st H' Hs; [by simplify_eq/=|]. by destruct a.
  - intros [|a] st H'; [simplify_eq/=; apply NoDup_nil_2|]. by destruct a.
  - intros [|[|a]] c j H'; by apply elem_of_nil in H'.
  - by intros [|[|a]] j H'.
  - intros [|[|a]] c j H'; by apply elem_of_nil in H'.
  - intros [|[|a]] c j _ H'; by apply elem_of_nil in H'.
  - intros a b. lia.
Qed.

(** the heap after [add] created the child [c] of [cur] *)
Definition extend (h : list State) (cur : ref) (c : ascii) : list State :=
  match h !! cur with
  | Some st =>
      <[cur := with_transitions (transitions st ++ [(c, length h)]) st]>
        (h ++ [new_State (length h) (Some c) (Some cur)])
  | None => h
  end.

Definition extend_pth (h : list State) (cur : ref) (c : ascii)
    (pth : ref → list ascii) : ref → list ascii :=
  λ a, if decide (a = length h) then pth cur ++ [c] else pth a.

Section extend.
Context (h : list State) (cur : ref) (c : ascii) (st : State).
Hypothesis Hcur : h !! cur = Some st.

Local Abbreviation n := (length h).
Local Abbreviation h' := (extend h cur c).

Lemma extend_eq :
  h' = <[cur := with_transitions (transitions st ++ [(c, n)]) st]>
         (h ++ [new_State n (Some c) (Some cur)]).
Proof. unfold extend. by rewrite Hcur. Qed.

Lemma extend_length : length h' = S n.
Proof. rewrite extend_eq, length_insert, length_app. simpl. lia. Qed.

Lemma extend_cur_lt : cur < n.
Proof. by eapply lookup_lt_Some. Qed.

Lemma extend_lookup_new : h' !! n = Some (new_State n (Some c) (Some cur)).
Proof.
  pose proof extend_cur_lt.
  rewrite extend_eq, list_lookup_insert_ne by lia.
  rewrite lookup_app_r by lia.
  by replace (n - length h) with 0 by lia.
Qed.

Lemma extend_lookup_cur :
  h' !! cur = Some (with_transitions (transitions st ++ [(c, n)]) st).
Proof.
  pose proof extend_cur_lt.
  rewrite extend_eq, list_lookup_insert_eq; [done|].
  rewrite length_app. simpl. lia.
Qed.

Lemma extend_lookup_old a : a ≠ n → a ≠ cur → h' !! a = h !! a.
Proof.
  intros Hn Hc. rewrite extend_eq, list_lookup_insert_ne by done.
  destruct (decide (a < n)) as [Hlt|Hge].
  - by rewrite lookup_app_l.
  - rewrite !lookup_ge_None_2; [done| |]; [lia|].
    rewrite length_app. simpl. lia.
Qed.

Lemma extend_lookup_inv a st' :
  h' !! a = Some st' →
  (a = n ∧ st' = new_State n (Some c) (Some cur)) ∨
  (a = cur ∧ st' = with_transitions (transitions st ++ [(c, n)]) st) ∨
  (a ≠ n ∧ a ≠ cur ∧ h !! a = Some st').
Proof.
  intros Ha. destruct (decide (a = n)) as [->|Hn].
  { rewrite extend_lookup_new in Ha. left. by simplify_eq. }
  destruct (decide (a = cur)) as [->|Hc].
  { rewrite extend_lookup_cur in Ha. right; left. by simplify_eq. }
  rewrite extend_lookup_old in Ha by done. by right; right.
Qed.

Lemma extend_parent_of a :
  parent_of h' a = if decide (a = n) then Some cur else parent_of h a.
Proof.
  unfold parent_of. case_decide as Hn; [subst; by rewrite extend_lookup_new|].
  destruct (decide (a = cur)) as [->|Hc].
  - by rewrite extend_lookup_cur, Hcur.
  - by rewrite extend_lookup_old.
Qed.

Lemma extend_symbol_of a :
  symbol_of h' a = if decide (a = n) then Some c else symbol_of h a.
Proof.
  unfold symbol_of. case_decide as Hn; [subst; by rewrite extend_lookup_new|].
  destruct (decide (a = cur)) as [->|Hc].
  - by rewrite extend_lookup_cur, Hcur.
  - by rewrite extend_lookup_old.
Qed.

Lemma extend_lss_of a : lss_of h' a = lss_of h a.
Proof.
  unfold lss_of. destruct (decide (a = n)) as [->|Hn].
  { rewrite extend_lookup_new. by rewrite (lookup_ge_None_2 h n). }
  destruct (decide (a = cur)) as [->|Hc].
  - by rewrite extend_lookup_cur, Hcur.
  - by rewrite extend_lookup_old.
Qed.

Lemma extend_entries a :
  entries h' a =
  if decide (a = cur) then entries h cur ++ [(c, n)] else entries h a.
Proof.
  unfold entries. case_decide as Hc.
  { subst. by rewrite extend_lookup_cur, Hcur. }
  destruct (decide (a = n)) as [->|Hn].
  - rewrite extend_lookup_new. by rewrite (lookup_ge_None_2 h n).
  - by rewrite extend_lookup_old.
Qed.

Lemma extend_entries_elem a x j :
  (x, j) ∈ entries h' a →
  (x, j) ∈ entries h a ∨ (a = cur ∧ x = c ∧ j = n).
Proof.
  rewrite extend_entries. case_decide; [|by left].
  rewrite elem_of_app, list_elem_of_singleton. intros [?|?]; simplify_eq.
  - by left.
  - by right.
Qed.

Lemma extend_pth_old pth a : a < n → extend_pth h cur c pth a = pth a.
Proof. intros Ha. unfold extend_pth. rewrite decide_False; [done|]. lia. Qed.

Lemma extend_pth_new pth : extend_pth h cur c pth n = pth cur ++ [c].
Proof. unfold extend_pth. by rewrite decide_True. Qed.
End extend.

Lemma extend_inv h cur c st ci ks pth :
  h !! cur = Some st →
  auto_inv ci ks pth h →
  (∀ a, lss_of h a = None) →
  dict_get c (transitions st) = None →
  auto_inv ci ks (extend_pth h cur c pth) (extend h cur c).
Proof.
  intros Hcur Hinv Hnone Hfresh.
  set (n := length h).
  pose proof (extend_cur_lt _ _ _ Hcur) as Hlt.
  pose proof (extend_lookup_inv _ _ c _ Hcur) as Einv.
  pose proof (extend_entries_elem _ _ c _ Hcur) as Eelem.
  pose proof (extend_lookup_cur _ _ c _ Hcur) as Ecur.
  pose proof (extend_lookup_old _ _ c _ Hcur) as Eold.
  pose proof (extend_entries _ _ c _ Hcur) as Eent.
  pose proof (extend_length _ _ c _ Hcur) as Elen.
  pose proof (extend_symbol_of _ _ c _ Hcur) as Esym.
  pose proof (extend_lss_of _ _ c _ Hcur) as Elss.
  pose proof (extend_parent_of _ _ c _ Hcur) as Epar.
  destruct Hinv as [H1 H2 H3 H4 H5 H6 H7 H8 H9 H10].
  assert (Hvalid : ∀ a x j, (x, j) ∈ entries h a → a < n ∧ j < n).
  { intros a x j Hin. split; [by eapply entries_valid|].
    by destruct (H6 _ _ _ Hin). }
  split.
  - destruct H1 as [Hp (st0 & Hst0 & Hpa & Hsy)].
    split; [rewrite extend_pth_old; [done|lia]|].
    destruct (decide (cur = 0)) as [->|Hc0].
    + rewrite Ecur. simplify_eq. by eexists.
    + rewrite Eold by lia. by eexists.
  - intros a st' Ha.
    destruct (Einv _ _ Ha) as [[-> ->]|[[-> ->]|(?&?&?)]];
      simpl; eauto.
  - intros a st' Ha Hne.
    destruct (Einv _ _ Ha) as [[-> ->]|[[-> ->]|(Hn&Hc&Ha')]];
      simpl.
    + exists cur, c. split_and!; try done.
      * rewrite Eent, decide_True by done.
        rewrite dict_get_snoc. rewrite (entries_lookup _ _ _ Hcur), Hfresh.
        by rewrite decide_True.
      * rewrite extend_pth_new. by rewrite extend_pth_old.
    + destruct (H3 _ _ Hcur Hne) as (p & x & ? & ? & ? & Hg & Hpth).
      exists p, x. split_and!; try done.
      * rewrite Eent. case_decide; [|done]. subst.
        rewrite dict_get_snoc. by rewrite Hg.
      * rewrite !extend_pth_old by lia. done.
    + destruct (H3 _ _ Ha' Hne) as (p & x & ? & ? & ? & Hg & Hpth).
      assert (a < n) by by eapply lookup_lt_Some.
      exists p, x. split_and!; try done.
      * rewrite Eent. case_decide; [|done]. subst.
        rewrite dict_get_snoc. by rewrite Hg.
      * rewrite !extend_pth_old by lia. done.
  - intros a st' Ha Hs.
    destruct (Einv _ _ Ha) as [[-> ->]|[[-> ->]|(Hn&Hc&Ha')]];
      simpl in *; [done| |].
    + destruct (H4 _ _ Hcur Hs) as (k & ? & ? & ? & ?).
      exists k. rewrite extend_pth_old by lia. done.
    + destruct (H4 _ _ Ha' Hs) as (k & ? & ? & ? & ?).
      assert (a < n) by by eapply lookup_lt_Some.
      exists k. rewrite extend_pth_old by lia. done.
  - intros a st' Ha.
    destruct (Einv _ _ Ha) as [[-> ->]|[[-> ->]|(Hn&Hc&Ha')]];
      simpl; eauto using NoDup_nil_2.
    apply dict_keys_snoc; eauto.
  - intros a x j Hin. rewrite Elen, Esym.
    destruct (Eelem _ _ _ Hin) as [Hin'|(-> & -> & ->)].
    + destruct (Hvalid _ _ _ Hin'). destruct (H6 _ _ _ Hin') as (_ & ? & ?).
      rewrite decide_False by lia. rewrite !extend_pth_old by lia.
      split_and!; [lia|done|done].
    + rewrite decide_True by done. rewrite extend_pth_new.
      rewrite extend_pth_old by lia. split_and!; [lia|done|done].
  - intros a j. rewrite Elss, Hnone. done.
  - intros a x j Hin. left. rewrite Epar.
    destruct (Eelem _ _ _ Hin) as [Hin'|(-> & -> & ->)].
    + destruct (Hvalid _ _ _ Hin'). rewrite decide_False by lia.
      apply (H9 _ _ _ (Hnone a) Hin').
    + by rewrite decide_True.
  - intros a x j _ Hin. rewrite Epar.
    destruct (Eelem _ _ _ Hin) as [Hin'|(-> & -> & ->)].
    + destruct (Hvalid _ _ _ Hin'). rewrite decide_False by lia.
      apply (H9 _ _ _ (Hnone a) Hin').
    + by rewrite decide_True.
  - intros a b. rewrite Elen.
    assert (Hnew : ∀ b, b < n → pth b ≠ pth cur ++ [c]).
    { intros b' Hb' Heq.
      destruct (decide (b' = 0)) as [->|Hb0].
      { destruct H1 as [Hp _]. rewrite Hp in Heq. by destruct (pth cur). }
      apply lookup_lt_is_Some_2 in Hb' as Hb''. destruct Hb'' as [sb Hsb].
      destruct (H3 _ _ Hsb Hb0) as (p & x & ? & ? & ? & Hg & Hpth).
      rewrite Hpth in Heq. apply app_inj_tail in Heq as [Heq ->].
      apply H10 in Heq; [|lia|done]. subst p.
      rewrite (entries_lookup _ _ _ Hcur) in Hg. congruence. }
    intros Ha Hb.
    destruct (decide (a = n)) as [->|Han], (decide (b = n)) as [->|Hbn];
      [done| | |].
    + rewrite extend_pth_new, extend_pth_old by lia. intros Heq.
      symmetry in Heq. apply Hnew in Heq; [done|lia].
    + rewrite extend_pth_new, extend_pth_old by lia. intros Heq.
      apply Hnew in Heq; [done|lia].
    + rewrite !extend_pth_old by lia. apply H10; lia.
Qed.

Lemma add_loop_create {B} (k : ref → M B) t cur st char :
  heap t !! cur = Some st →
  _counter t = length (heap t) →
  dict_get char (transitions st) = None →
  (let* c := get_counter in
   let* next_state := alloc (new_State c (Some char) (Some cur)) in
   incr_counter ;;
   modify cur
     (λ s, with_transitions (dict_set char next_state (transitions s)) s) ;;
   k next_state) t
  = k (length (heap t))
      {| heap := extend (heap t) cur char; _counter := length (heap t) + 1;
         _finalized := _finalized t;
         _case_insensitive := _case_insensitive t |}.
Proof.
  intros Hcur Hc Hfresh. unfold bind, get_counter, alloc, incr_counter, modify.
  simpl. rewrite lookup_app_l by by eapply lookup_lt_Some. rewrite Hcur.
  unfold with_heap, extend. simpl. rewrite Hcur, Hc.
  by rewrite dict_set_fresh.
Qed.

Lemma add_loop_spec cs : ∀ cur t ks pth,
  build_inv ks pth t → cur < length (heap t) →
  ∃ n t' pth',
    add_loop cs cur t = (Ok n, t') ∧
    build_inv ks pth' t' ∧
    n < length (heap t') ∧
    pth' n = pth cur ++ cs ∧
    (∀ a, a < length (heap t) → pth' a = pth a) ∧
    length (heap t) ≤ length (heap t') ∧
    _case_insensitive t' = _case_insensitive t.
Proof.
  induction cs as [|char cs IH]; intros cur t ks pth Hb Hcur; simpl.
  { exists cur, t, pth. rewrite app_nil_r. split_and!; auto. }
  destruct Hb as (Hinv & Hnone & Hcnt & Hfin).
  apply lookup_lt_is_Some_2 in Hcur as Hst. destruct Hst as [st Hst].
  rewrite (bind_ok _ _ _ _ _ (deref_ok _ _ _ Hst)).
  destruct (dict_get char (transitions st)) as [next_state|] eqn:Hget.
  - apply dict_get_elem in Hget.
    rewrite <- (entries_lookup _ _ _ Hst) in Hget.
    destruct (ai_tr _ _ _ _ Hinv _ _ _ Hget) as (Hlt & _ & Hsuf).
    pose proof (ai_fresh _ _ _ _ Hinv _ _ _ (Hnone cur) Hget) as Hpar.
    unfold parent_of in Hpar.
    destruct (heap t !! next_state) as [ns|] eqn:Hns; [|done]. simpl in Hpar.
    assert (next_state ≠ 0) as Hnz
      by (eapply auto_inv_target_nonzero; eauto).
    destruct (ai_node _ _ _ _ Hinv _ _ Hns Hnz)
      as (p & x & Hp & Hx & _ & _ & Hpth).
    destruct (ai_tr _ _ _ _ Hinv _ _ _ Hget) as (_ & Hsym & _).
    unfold symbol_of in Hsym. rewrite Hns in Hsym. simpl in Hsym.
    simplify_eq.
    destruct (IH next_state t ks pth) as (n & t' & pth' & Hrun & ? & ? & Hn & ? & ? & ?);
      [done|done|].
    exists n, t', pth'. rewrite Hn, Hpth, <- app_assoc. split_and!; auto.
  - rewrite (add_loop_create _ t cur st char Hst Hcnt Hget).
    set (t1 := {| heap := extend (heap t) cur char;
                  _counter := length (heap t) + 1;
                  _finalized := _finalized t;
                  _case_insensitive := _case_insensitive t |}) in *.
    assert (build_inv ks (extend_pth (heap t) cur char pth) t1) as Hb1.
    { split_and!; simpl.
      - by eapply extend_inv.
      - intros a. by rewrite (extend_lss_of _ _ _ _ Hst).
      - rewrite (extend_length _ _ _ _ Hst). lia.
      - done. }
    assert (length (heap t) < length (heap t1)) as Hlt1.
    { simpl. rewrite (extend_length _ _ _ _ Hst). lia. }
    destruct (IH (length (heap t)) t1 ks _ Hb1 Hlt1)
      as (n & t' & pth' & Hrun & ? & ? & Hn & Hold & ? & ?).
    exists n, t', pth'. split_and!; auto.
    + rewrite Hn, extend_pth_new, <- app_assoc. done.
    + intros a Ha. rewrite Hold by lia. by rewrite extend_pth_old.
    + lia.
Qed.

(** marking a state as the end of the keyword [k] *)
Lemma mark_views h n st k :
  h !! n = Some st →
  let h' := <[n := with_match k st]> h in
  length h' = length h ∧
  (∀ a, lss_of h' a = lss_of h a) ∧
  (∀ a, parent_of h' a = parent_of h a) ∧
  (∀ a, symbol_of h' a = symbol_of h a) ∧
  (∀ a, entries h' a = entries h a) ∧
  (∀ a st', h' !! a = Some st' →
     (a = n ∧ st' = with_match k st) ∨ (a ≠ n ∧ h !! a = Some st')).
Proof.
  intros Hn h'. assert (n < length h) by by eapply lookup_lt_Some.
  assert (∀ a, a ≠ n → h' !! a = h !! a) as Hne
    by (intros; by apply list_lookup_insert_ne).
  assert (h' !! n = Some (with_match k st)) as Heq
    by by apply list_lookup_insert_eq.
  split_and!.
  - apply length_insert.
  - intros a. unfold lss_of. destruct (decide (a = n)) as [->|?];
      [by rewrite Heq, Hn | by rewrite Hne].
  - intros a. unfold parent_of. destruct (decide (a = n)) as [->|?];
      [by rewrite Heq, Hn | by rewrite Hne].
  - intros a. unfold symbol_of. destruct (decide (a = n)) as [->|?];
      [by rewrite Heq, Hn | by rewrite Hne].
  - intros a. unfold entries. destruct (decide (a = n)) as [->|?];
      [by rewrite Heq, Hn | by rewrite Hne].
  - intros a st' Ha. destruct (decide (a = n)) as [->|?].
    + left. rewrite Heq in Ha. by simplify_eq.
    + right. by rewrite Hne in Ha.
Qed.

Lemma mark_inv ci ks pth h n st k :
  auto_inv ci ks pth h → h !! n = Some st → normk ci k = pth n → n ≠ 0 →
  auto_inv ci (ks ++ [k]) pth (<[n := with_match k st]> h).
Proof.
  intros Hinv Hn Hk Hnz.
  destruct (mark_views h n st k Hn) as (Hlen & Hlss & Hpar & Hsym & Hent & Hlk).
  assert (n < length h) as Hnv by by eapply lookup_lt_Some.
  destruct Hinv as [H1 H2 H3 H4 H5 H6 H7 H8 H9 H10].
  split.
  - destruct H1 as [Hp (st0 & Hst0 & Hpa & Hsy)]. split; [done|].
    exists st0. by rewrite list_lookup_insert_ne.
  - intros a st' Ha. destruct (Hlk _ _ Ha) as [[-> ->]|[? ?]]; simpl; eauto.
  - intros a st' Ha Hne.
    assert (∃ st0, h !! a = Some st0 ∧ parent st0 = parent st' ∧
                   symbol st0 = symbol st') as (st0 & Hst0 & <- & <-).
    { destruct (Hlk _ _ Ha) as [[-> ->]|[? ?]]; simpl; eauto. }
    destruct (H3 _ _ Hst0 Hne) as (p & c & ? & ? & ? & ? & ?).
    exists p, c. rewrite Hent. done.
  - intros a st' Ha Hs.
    destruct (Hlk _ _ Ha) as [[-> ->]|[Hne Ha']]; simpl.
    + exists k. split_and!; auto. apply last_form_last.
    + destruct (H4 _ _ Ha' Hs) as (k' & ? & ? & Hn' & ?).
      exists k'. split_and!; auto. apply last_form_snoc; [done|].
      rewrite Hk, Hn'. intros Heq. apply Hne. symmetry.
      apply H10; [done| |done]. by eapply lookup_lt_Some.
  - intros a st' Ha. destruct (Hlk _ _ Ha) as [[-> ->]|[? ?]]; simpl; eauto.
  - intros a c j. rewrite Hent, Hlen, Hsym. apply H6.
  - intros a j. rewrite Hlss, Hlen. apply H7.
  - intros a c j. rewrite Hent, Hpar. unfold finished.
    intros Hin. destruct (H8 _ _ _ Hin) as [?|(p & ? & ?)]; [by left|].
    right. exists p. rewrite Hlss. done.
  - intros a c j. rewrite Hent, Hpar, Hlss. apply H9.
  - intros a b. rewrite Hlen. apply H10.
Qed.

Lemma chars_length s : length (chars s) = String.length s.
Proof. induction s; simpl; auto. Qed.

Lemma chars_lower s : chars (lower s) = map lower_symbol (chars s).
Proof. unfold lower. by rewrite list_ascii_of_string_of_list_ascii. Qed.

(** [lower_symbol] changes the capitals of Latin-1 and nothing else: the
    code points 65-90, 192-214 and 216-222, each moved 32 up *)
Lemma lower_symbol_table :
  filter (λ n, lower_symbol (ascii_of_nat n) ≠ ascii_of_nat n) (seq 0 256)
    = seq 65 26 ++ seq 192 23 ++ seq 216 7 ∧
  Forall (λ n, nat_of_ascii (lower_symbol (ascii_of_nat n)) = n + 32)
    (seq 65 26 ++ seq 192 23 ++ seq 216 7).
Proof. split; [by vm_compute|]. repeat constructor. Qed.

Lemma normk_length ci k : length (normk ci k) = String.length k.
Proof.
  unfold normk. destruct ci; [|apply chars_length].
  by rewrite chars_lower, length_map, chars_length.
Qed.

Lemma add_spec k t ks pth :
  build_inv ks pth t →
  ∃ t' pth',
    add k t = (Ok tt, t') ∧ build_inv (ks ++ [k]) pth' t' ∧
    _case_insensitive t' = _case_insensitive t.
Proof.
  intros Hb. pose proof Hb as (Hinv & Hnone & Hcnt & Hfin).
  unfold add. rewrite Hfin.
  set (kw := if _case_insensitive t then lower k else k).
  destruct (String.length kw <=? 0) eqn:Hlen.
  { exists t, pth. split_and!; try done. split_and!; try done.
    apply auto_inv_snoc; [|done]. intros a st Hst Hs.
    destruct (ai_match _ _ _ _ Hinv _ _ Hst Hs) as (k' & _ & _ & _ & Hne).
    apply Nat.leb_le in Hlen.
    assert (normk (_case_insensitive t) k = []) as ->.
    { apply length_zero_iff_nil. unfold normk. fold kw.
      rewrite chars_length. lia. }
    intros Heq. symmetry in Heq. revert Heq.
    eapply auto_inv_pth_nonzero; [done| |done]. by eapply lookup_lt_Some. }
  apply Nat.leb_gt in Hlen.
  destruct (add_loop_spec (chars kw) 0 t ks pth Hb)
    as (n & t1 & pth' & Hrun & Hb1 & Hn & Hpn & Hold & Hle & Hci).
  { destruct (ai_root _ _ _ _ Hinv) as (_ & st0 & Hst0 & _).
    by eapply lookup_lt_Some. }
  rewrite (bind_ok _ _ _ _ _ Hrun).
  apply lookup_lt_is_Some_2 in Hn as [st Hst].
  rewrite (modify_ok _ _ _ _ Hst).
  destruct Hb1 as (Hinv1 & Hnone1 & Hcnt1 & Hfin1).
  destruct (ai_root _ _ _ _ Hinv) as (Hp0 & _).
  rewrite Hp0 in Hpn. simpl in Hpn.
  assert (n ≠ 0) as Hnz.
  { intros ->. destruct (ai_root _ _ _ _ Hinv1) as (Hp0' & _).
    rewrite Hp0' in Hpn. rewrite <- chars_length in Hlen.
    rewrite <- Hpn in Hlen. simpl in Hlen. lia. }
  destruct (mark_views _ _ _ k Hst) as (Hlen' & Hlss & _).
  eexists _, pth'. split_and!; try done; simpl.
  split_and!; try done; simpl.
  - apply mark_inv; try done. unfold normk. by rewrite Hci.
  - intros a. by rewrite Hlss.
  - by rewrite Hlen'.
Qed.

Lemma add_all_spec ks : ∀ t ks0 pth,
  build_inv ks0 pth t →
  ∃ t' pth',
    add_all ks t = (Ok tt, t') ∧ build_inv (ks0 ++ ks) pth' t' ∧
    _case_insensitive t' = _case_insensitive t.
Proof.
  induction ks as [|k ks IH]; intros t ks0 pth Hb; simpl.
  { exists t, pth. by rewrite app_nil_r. }
  destruct (add_spec k t ks0 pth Hb) as (t1 & pth1 & Hrun & Hb1 & Hci).
  rewrite (bind_ok _ _ _ _ _ Hrun).
  destruct (IH t1 _ _ Hb1) as (t' & pth' & Hrun' & Hb' & Hci').
  exists t', pth'. rewrite <- app_assoc in Hb'. split_and!; try done.
  congruence.
Qed.

Lemma built_spec ci ks :
  add_all ks (new_KeywordTree ci) = (Ok tt, built ci ks) ∧
  _case_insensitive (built ci ks) = ci ∧
  ∃ pth, build_inv ks pth (built ci ks).
Proof.
  destruct (add_all_spec ks _ _ _ (new_KeywordTree_inv ci))
    as (t' & pth' & Hrun & Hb & Hci).
  unfold built. rewrite Hrun. simpl. split_and!; eauto.
Qed.

(** ** The finalize phase: the two mutations of the heap *)

(** the fields that [finalize] never assigns *)
Definition shape (st : State)
    : nat * option ascii * bool * option ref * option string :=
  (identifier st, symbol st, success st, parent st, matched_keyword st).

Definition same_shape (h h' : list State) : Prop :=
  shape <$> h = shape <$> h'.

(** [state.longest_strict_suffix = j] *)
Definition link (h : list State) (s j : ref) : list State :=
  match h !! s with
  | Some st => <[s := with_suffix (Some j) st]> h
  | None => h
  end.

(** [state.transitions] becomes [d] *)
Definition grow (h : list State) (s : ref) (d : dict) : list State :=
  match h !! s with
  | Some st => <[s := with_transitions d st]> h
  | None => h
  end.

Lemma same_shape_refl h : same_shape h h.
Proof. done. Qed.

Lemma same_shape_trans h1 h2 h3 :
  same_shape h1 h2 → same_shape h2 h3 → same_shape h1 h3.
Proof. unfold same_shape. congruence. Qed.

Lemma same_shape_length h h' : same_shape h h' → length h' = length h.
Proof.
  intros Hs. by rewrite <- (length_fmap shape h'), <- Hs, length_fmap.
Qed.

Lemma same_shape_lookup h h' a st :
  same_shape h h' → h !! a = Some st →
  ∃ st', h' !! a = Some st' ∧ shape st' = shape st.
Proof.
  intros Hs Ha.
  assert ((shape <$> h') !! a = Some (shape st)) as Hl
    by by rewrite <- Hs, list_lookup_fmap, Ha.
  rewrite list_lookup_fmap in Hl.
  destruct (h' !! a) as [st'|]; simplify_eq/=.
  exists st'. split; [done|]. unfold shape. congruence.
Qed.

Lemma same_shape_parent_of h h' a :
  same_shape h h' → parent_of h' a = parent_of h a.
Proof.
  intros Hs. unfold parent_of.
  assert ((shape <$> h') !! a = (shape <$> h) !! a) as Hl by by rewrite Hs.
  rewrite !list_lookup_fmap in Hl.
  destruct (h !! a), (h' !! a); by simplify_eq/=.
Qed.

Lemma same_shape_symbol_of h h' a :
  same_shape h h' → symbol_of h' a = symbol_of h a.
Proof.
  intros Hs. unfold symbol_of.
  assert ((shape <$> h') !! a = (shape <$> h) !! a) as Hl by by rewrite Hs.
  rewrite !list_lookup_fmap in Hl.
  destruct (h !! a), (h' !! a); by simplify_eq/=.
Qed.

Lemma same_shape_insert h s st st' :
  h !! s = Some st → shape st' = shape st → same_shape h (<[s := st']> h).
Proof.
  intros Hs Heq. unfold same_shape. rewrite list_fmap_insert, Heq.
  symmetry. apply list_insert_id. by rewrite list_lookup_fmap, Hs.
Qed.

Lemma link_shape h s j : same_shape h (link h s j).
Proof.
  unfold link. destruct (h !! s) eqn:E; [|done].
  by eapply same_shape_insert.
Qed.

Lemma grow_shape h s d : same_shape h (grow h s d).
Proof.
  unfold grow. destruct (h !! s) eqn:E; [|done].
  by eapply same_shape_insert.
Qed.

Lemma link_lookup_ne h s j a : a ≠ s → link h s j !! a = h !! a.
Proof.
  intros. unfold link. destruct (h !! s); [|done].
  by rewrite list_lookup_insert_ne.
Qed.

Lemma link_lookup_eq h s j st :
  h !! s = Some st → link h s j !! s = Some (with_suffix (Some j) st).
Proof.
  intros Hs. unfold link. rewrite Hs. apply list_lookup_insert_eq.
  by eapply lookup_lt_Some.
Qed.

Lemma grow_lookup_ne h s d a : a ≠ s → grow h s d !! a = h !! a.
Proof.
  intros. unfold grow. destruct (h !! s); [|done].
  by rewrite list_lookup_insert_ne.
Qed.

Lemma grow_lookup_eq h s d st :
  h !! s = Some st → grow h s d !! s = Some (with_transitions d st).
Proof.
  intros Hs. unfold grow. rewrite Hs. apply list_lookup_insert_eq.
  by eapply lookup_lt_Some.
Qed.

Lemma link_lss_of h s j a :
  s < length h →
  lss_of (link h s j) a = if decide (a = s) then Some j else lss_of h a.
Proof.
  intros Hs. unfold lss_of. case_decide as Ha.
  - subst. apply lookup_lt_is_Some_2 in Hs as [st Hst].
    by rewrite (link_lookup_eq _ _ _ _ Hst).
  - by rewrite link_lookup_ne.
Qed.

Lemma link_entries h s j a : entries (link h s j) a = entries h a.
Proof.
  unfold entries. destruct (decide (a = s)) as [->|Ha].
  - destruct (h !! s) as [st|] eqn:Hst.
    + by rewrite (link_lookup_eq _ _ _ _ Hst).
    + unfold link. by rewrite Hst, Hst.
  - by rewrite link_lookup_ne.
Qed.

Lemma grow_lss_of h s d a : lss_of (grow h s d) a = lss_of h a.
Proof.
  unfold lss_of. destruct (decide (a = s)) as [->|Ha].
  - destruct (h !! s) as [st|] eqn:Hst.
    + by rewrite (grow_lookup_eq _ _ _ _ Hst).
    + unfold grow. by rewrite Hst, Hst.
  - by rewrite grow_lookup_ne.
Qed.

Lemma grow_entries h s d a :
  s < length h →
  entries (grow h s d) a = if decide (a = s) then d else entries h a.
Proof.
  intros Hs. unfold entries. case_decide as Ha.
  - subst. apply lookup_lt_is_Some_2 in Hs as [st Hst].
    by rewrite (grow_lookup_eq _ _ _ _ Hst).
  - by rewrite grow_lookup_ne.
Qed.

Lemma link_id h s j st :
  h !! s = Some st → longest_strict_suffix st = Some j → link h s j = h.
Proof.
  intros Hs Hj. unfold link. rewrite Hs. apply list_insert_id.
  rewrite Hs. f_equal. destruct st. simpl in *. by subst.
Qed.

Lemma grow_id h s st :
  h !! s = Some st → grow h s (transitions st) = h.
Proof.
  intros Hs. unfold grow. rewrite Hs. apply list_insert_id.
  rewrite Hs. f_equal. by destruct st.
Qed.

Lemma link_lookup_inv h s j a st' :
  link h s j !! a = Some st' →
  (a ≠ s ∧ h !! a = Some st') ∨
  (a = s ∧ ∃ st, h !! s = Some st ∧ st' = with_suffix (Some j) st).
Proof.
  intros Ha. destruct (decide (a = s)) as [->|Hne].
  - right. split; [done|]. destruct (h !! s) as [st|] eqn:Hst.
    + rewrite (link_lookup_eq _ _ _ _ Hst) in Ha. exists st. by simplify_eq.
    + unfold link in Ha. rewrite Hst in Ha. congruence.
  - left. by rewrite link_lookup_ne in Ha.
Qed.

Lemma grow_lookup_inv h s d a st' :
  grow h s d !! a = Some st' →
  (a ≠ s ∧ h !! a = Some st') ∨
  (a = s ∧ ∃ st, h !! s = Some st ∧ st' = with_transitions d st).
Proof.
  intros Ha. destruct (decide (a = s)) as [->|Hne].
  - right. split; [done|]. destruct (h !! s) as [st|] eqn:Hst.
    + rewrite (grow_lookup_eq _ _ _ _ Hst) in Ha. exists st. by simplify_eq.
    + unfold grow in Ha. rewrite Hst in Ha. congruence.
  - left. by rewrite grow_lookup_ne in Ha.
Qed.

Lemma link_inv ci ks pth h s j :
  auto_inv ci ks pth h → s < length h → j < length h →
  (if decide (s = 0) then j = 0
   else pth j `suffix_of` pth s ∧ length (pth j) < length (pth s)) →
  auto_inv ci ks pth (link h s j).
Proof.
  intros [H1 H2 H3 H4 H5 H6 H7 H8 H9 H10] Hs Hj Hsuf.
  pose proof (link_shape h s j) as Hsh.
  pose proof (same_shape_length _ _ Hsh) as Hlen.
  assert (∀ a, lss_of (link h s j) a =
              if decide (a = s) then Some j else lss_of h a) as Hlss
    by (intros; by apply link_lss_of).
  assert (∀ a, finished h a → finished (link h s j) a) as Hfin.
  { intros a. unfold finished. rewrite Hlss.
    destruct (decide (a = s)); [by eexists|done]. }
  split.
  - destruct H1 as [Hp (st0 & Hst0 & Hpa & Hsy)]. split; [done|].
    destruct (decide (s = 0)) as [->|Hne].
    + rewrite (link_lookup_eq _ _ _ _ Hst0). by eexists.
    + rewrite link_lookup_ne by done. by eexists.
  - intros a st' Ha.
    destruct (link_lookup_inv _ _ _ _ _ Ha) as [[? ?]|[-> (st & ? & ->)]];
      simpl; eauto.
  - intros a st' Ha Hne.
    assert (∃ st0, h !! a = Some st0 ∧ parent st0 = parent st' ∧
                   symbol st0 = symbol st') as (st0 & Hst0 & <- & <-).
    { destruct (link_lookup_inv _ _ _ _ _ Ha) as [[? ?]|[-> (st & ? & ->)]];
        simpl; eauto. }
    destruct (H3 _ _ Hst0 Hne) as (p & c & ? & ? & ? & ? & ?).
    exists p, c. rewrite link_entries. done.
  - intros a st' Ha Hsx.
    destruct (link_lookup_inv _ _ _ _ _ Ha) as [[? ?]|[-> (st & ? & ->)]];
      simpl in *; eauto.
  - intros a st' Ha.
    destruct (link_lookup_inv _ _ _ _ _ Ha) as [[? ?]|[-> (st & ? & ->)]];
      simpl; eauto.
  - intros a c x. rewrite link_entries, Hlen, (same_shape_symbol_of _ _ _ Hsh).
    apply H6.
  - intros a x. rewrite Hlss, Hlen. destruct (decide (a = s)) as [->|Ha].
    + intros [= <-]. done.
    + apply H7.
  - intros a c x. rewrite link_entries, (same_shape_parent_of _ _ _ Hsh).
    intros Hin. destruct (H8 _ _ _ Hin) as [?|(p & ? & ?)]; [by left|].
    right. exists p. auto.
  - intros a c x. rewrite link_entries, (same_shape_parent_of _ _ _ Hsh).
    rewrite Hlss. destruct (decide (a = s)); [done|]. apply H9.
  - intros a b. rewrite Hlen. apply H10.
Qed.

Lemma grow_inv ci ks pth h s st add :
  auto_inv ci ks pth h → h !! s = Some st → finished h s →
  NoDup (transitions st ++ add).*1 →
  (∀ x t, (x, t) ∈ add →
     t < length h ∧ symbol_of h t = Some x ∧
     pth t `suffix_of` pth s ++ [x] ∧
     ∃ p, parent_of h t = Some p ∧ finished h p) →
  auto_inv ci ks pth (grow h s (transitions st ++ add)).
Proof.
  intros [H1 H2 H3 H4 H5 H6 H7 H8 H9 H10] Hst Hfs Hnd Hadd.
  set (d := transitions st ++ add) in *.
  assert (s < length h) as Hs by by eapply lookup_lt_Some.
  pose proof (grow_shape h s d) as Hsh.
  pose proof (same_shape_length _ _ Hsh) as Hlen.
  pose proof (grow_lss_of h s d) as Hlss.
  assert (∀ a, entries (grow h s d) a =
              if decide (a = s) then d else entries h a) as Hent
    by (intros; by apply grow_entries).
  assert (∀ a c x, (c, x) ∈ entries (grow h s d) a →
            (c, x) ∈ entries h a ∨ (a = s ∧ (c, x) ∈ add)) as Helem.
  { intros a c x. rewrite Hent. case_decide; [|by left]. subst a.
    unfold d. rewrite elem_of_app, (entries_lookup _ _ _ Hst).
    intros [?|?]; auto. }
  split.
  - destruct H1 as [Hp (st0 & Hst0 & Hpa & Hsy)]. split; [done|].
    destruct (decide (s = 0)) as [->|Hne].
    + rewrite (grow_lookup_eq _ _ _ _ Hst0). by eexists.
    + rewrite grow_lookup_ne by done. by eexists.
  - intros a st' Ha.
    destruct (grow_lookup_inv _ _ _ _ _ Ha) as [[? ?]|[-> (st1 & ? & ->)]];
      simpl; eauto.
  - intros a st' Ha Hne.
    assert (∃ st0, h !! a = Some st0 ∧ parent st0 = parent st' ∧
                   symbol st0 = symbol st') as (st0 & Hst0 & <- & <-).
    { destruct (grow_lookup_inv _ _ _ _ _ Ha) as [[? ?]|[-> (st1 & ? & ->)]];
        simpl; eauto. }
    destruct (H3 _ _ Hst0 Hne) as (p & c & ? & ? & ? & Hg & ?).
    exists p, c. rewrite Hent. split_and!; try done.
    case_decide; [|done]. subst p. unfold d.
    rewrite (entries_lookup _ _ _ Hst) in Hg.
    by rewrite dict_get_app, Hg.
  - intros a st' Ha Hsx.
    destruct (grow_lookup_inv _ _ _ _ _ Ha) as [[? ?]|[-> (st1 & ? & ->)]];
      simpl in *; eauto.
  - intros a st' Ha.
    destruct (grow_lookup_inv _ _ _ _ _ Ha) as [[? ?]|[-> (st1 & ? & ->)]];
      simpl; eauto.
  - intros a c x Hin. rewrite Hlen, (same_shape_symbol_of _ _ _ Hsh).
    destruct (Helem _ _ _ Hin) as [Hin'|[-> Hin']]; [by apply H6|].
    destruct (Hadd _ _ Hin') as (? & ? & ? & _). done.
  - intros a x. rewrite Hlss, Hlen. apply H7.
  - intros a c x Hin. rewrite (same_shape_parent_of _ _ _ Hsh).
    unfold finished. setoid_rewrite Hlss.
    destruct (Helem _ _ _ Hin) as [Hin'|[-> Hin']]; [by eapply H8|].
    destruct (Hadd _ _ Hin') as (_ & _ & _ & p & ? & ?). right. eauto.
  - intros a c x. rewrite Hlss, (same_shape_parent_of _ _ _ Hsh).
    intros Hn Hin. destruct (Helem _ _ _ Hin) as [Hin'|[-> Hin']]; [by eapply H9|].
    destruct Hfs as [? Hfs]. congruence.
  - intros a b. rewrite Hlen. apply H10.
Qed.

(** ** The suffix search of [search_lss] *)

(** the entry of the dict [d] that the loop accepts for the state [s] *)
Definition hit (c : option ascii) (d : dict) (s : ref) : option ref :=
  match dict_find c d with
  | Some target => if decide (target ≠ s) then Some target else None
  | None => None
  end.

(** [walks h s c tr j]: started at [tr], the loop of [search_lss] for the
    state [s] of symbol [c] ends by assigning [j] *)
Inductive walks (h : list State) (s : ref) (c : option ascii)
    : option ref → ref → Prop :=
  | walks_hit tr ts target :
      h !! tr = Some ts → hit c (transitions ts) s = Some target →
      walks h s c (Some tr) target
  | walks_root ts :
      h !! 0 = Some ts → hit c (transitions ts) s = None →
      walks h s c (Some 0) 0
  | walks_next tr ts j :
      h !! tr = Some ts → hit c (transitions ts) s = None → tr ≠ 0 →
      walks h s c (longest_strict_suffix ts) j →
      walks h s c (Some tr) j.

Lemma lss_loop_unfold fuel s x t st ts :
  heap t !! s = Some st → heap t !! x = Some ts →
  lss_loop (S fuel) s (Some x) t =
  match hit (symbol st) (transitions ts) s with
  | Some target => modify s (with_suffix (Some target)) t
  | None =>
      if decide (x = 0) then modify s (with_suffix (Some 0)) t
      else lss_loop fuel s (longest_strict_suffix ts) t
  end.
Proof.
  intros Hs Hx. simpl.
  rewrite (bind_ok _ _ _ _ _ (deref_ok _ _ _ Hs)).
  rewrite (bind_ok _ _ _ _ _ (deref_ok _ _ _ Hx)).
  unfold hit, _zero_state.
  destruct (dict_find (symbol st) (transitions ts)) as [target|].
  - destruct (decide (target ≠ s)); [done|].
    destruct (decide (Some x = Some 0)), (decide (x = 0)); congruence.
  - destruct (decide (Some x = Some 0)), (decide (x = 0)); congruence.
Qed.

Lemma modify_link t s j st :
  heap t !! s = Some st →
  modify s (with_suffix (Some j)) t = (Ok tt, with_heap (link (heap t) s j) t).
Proof. intros Hs. rewrite (modify_ok _ _ _ _ Hs). unfold link. by rewrite Hs. Qed.

(** the loop ends within a step for each symbol of the path of the state
    at which it starts, and one more *)
Lemma lss_loop_walks ci ks pth h s c :
  auto_inv ci ks pth h →
  ∀ otr j, walks h s c otr j →
  ∀ tr t st fuel, otr = Some tr → heap t = h → h !! s = Some st →
    symbol st = c → length (pth tr) < fuel →
    lss_loop fuel s (Some tr) t = (Ok tt, with_heap (link h s j) t).
Proof.
  intros Hinv otr j Hw.
  induction Hw as [tr ts target Htr Hhit|ts Htr Hhit|tr ts j Htr Hhit Hne Hw IH];
    intros tr' t st [|fuel] [= <-] Ht Hs Hc Hlen; try lia; subst h c.
  - rewrite (lss_loop_unfold _ _ _ _ _ _ Hs Htr), Hhit.
    apply (modify_link _ _ _ _ Hs).
  - rewrite (lss_loop_unfold _ _ _ _ _ _ Hs Htr), Hhit. simpl.
    apply (modify_link _ _ _ _ Hs).
  - rewrite (lss_loop_unfold _ _ _ _ _ _ Hs Htr), Hhit.
    rewrite decide_False by done.
    destruct (longest_strict_suffix ts) as [y|] eqn:Hy; [|by inversion Hw].
    apply (IH y t st fuel); try done.
    assert (lss_of (heap t) tr = Some y) as Hl
      by (unfold lss_of; by rewrite Htr).
    destruct (ai_lss _ _ _ _ Hinv _ _ Hl) as (_ & Hd).
    rewrite decide_False in Hd by done. lia.
Qed.

Lemma suffix_search_walks ci ks pth s c tr j t st :
  auto_inv ci ks pth (heap t) → walks (heap t) s c (Some tr) j →
  tr < length (heap t) → heap t !! s = Some st → symbol st = c →
  suffix_search s (Some tr) t = (Ok tt, with_heap (link (heap t) s j) t).
Proof.
  intros Hinv Hw Htr Hs Hc. unfold suffix_search.
  eapply (lss_loop_walks _ _ _ _ _ _ Hinv); try done.
  pose proof (auto_inv_depth _ _ _ _ _ Hinv Htr). lia.
Qed.

Lemma walks_frame (Q : ref → Prop) h h' s c tr j :
  (∀ x, Q x → h' !! x = h !! x) →
  (∀ x y, Q x → lss_of h x = Some y → Q y) →
  walks h s c tr j →
  (∀ x, tr = Some x → Q x) →
  walks h' s c tr j.
Proof.
  intros Hfr Hcl.
  induction 1 as [tr ts target Htr Hhit|ts Htr Hhit|tr ts j Htr Hhit Hne Hw IH];
    intros HQ.
  - eapply walks_hit; [|done]. rewrite Hfr; auto.
  - eapply walks_root; [|done]. rewrite Hfr; auto.
  - eapply walks_next; [|done|done|].
    + rewrite Hfr; auto.
    + apply IH. intros y Hy. apply (Hcl tr); [auto|].
      unfold lss_of. by rewrite Htr.
Qed.

(** what holds of a state once [search_lss] has returned for it: its suffix
    has a suffix link, a new search would find the same suffix, and its
    dict has an entry for every key of the dict of a suffix other than the
    root *)
Definition done (h : list State) (a : ref) : Prop :=
  ∀ j, a ≠ 0 → lss_of h a = Some j →
    finished h j ∧
    (∃ p c, parent_of h a = Some p ∧ symbol_of h a = Some c ∧
            finished h p ∧ walks h a (Some c) (lss_of h p) j) ∧
    (j ≠ 0 → ∀ x t, (x, t) ∈ entries h j →
       ∃ t', dict_get x (entries h a) = Some t' ∧
             (t' = t ∨ parent_of h t' = Some a)).

Lemma frame_lss_of h h' a : h' !! a = h !! a → lss_of h' a = lss_of h a.
Proof. unfold lss_of. by intros ->. Qed.

Lemma frame_entries h h' a : h' !! a = h !! a → entries h' a = entries h a.
Proof. unfold entries. by intros ->. Qed.

Lemma done_frame (Q : ref → Prop) h h' a :
  same_shape h h' →
  (∀ x, Q x → h' !! x = h !! x) →
  (∀ x y, Q x → lss_of h x = Some y → Q y) →
  (∀ x p, Q x → parent_of h x = Some p → Q p) →
  Q a → done h a → done h' a.
Proof.
  intros Hsh Hfr Hcl Hpa HQ Hd j Hne.
  rewrite (frame_lss_of h h' a) by auto. intros Hj.
  destruct (Hd j Hne Hj) as (Hfj & (p & c & Hp & Hc & Hfp & Hw) & Hm).
  assert (Q j) as HQj by eauto. assert (Q p) as HQp by eauto.
  split_and!.
  - unfold finished. rewrite (frame_lss_of h h' j); auto.
  - exists p, c.
    rewrite (same_shape_parent_of _ _ _ Hsh), (same_shape_symbol_of _ _ _ Hsh).
    unfold finished. rewrite (frame_lss_of h h' p) by auto.
    split_and!; try done.
    eapply walks_frame; eauto.
  - intros Hj0 x t. rewrite (frame_entries h h' j), (frame_entries h h' a) by auto.
    intros Hin. destruct (Hm Hj0 x t Hin) as (t' & ? & ?).
    exists t'. by rewrite (same_shape_parent_of _ _ _ Hsh).
Qed.

Lemma auto_inv_node ci ks pth h s :
  auto_inv ci ks pth h → s < length h → s ≠ 0 →
  ∃ st p c, h !! s = Some st ∧ parent st = Some p ∧ symbol st = Some c ∧
    parent_of h s = Some p ∧ symbol_of h s = Some c ∧ p < s ∧
    dict_get c (entries h p) = Some s ∧ pth s = pth p ++ [c].
Proof.
  intros Hinv Hs Hne. apply lookup_lt_is_Some_2 in Hs as [st Hst].
  destruct (ai_node _ _ _ _ Hinv _ _ Hst Hne) as (p & c & ? & ? & ? & ? & ?).
  exists st, p, c. unfold parent_of, symbol_of. rewrite Hst. done.
Qed.

Lemma walk_exists_from ci ks pth h s p c :
  auto_inv ci ks pth h → s ≠ 0 → s < length h →
  parent_of h s = Some p → symbol_of h s = Some c →
  (∀ a, length (pth a) < length (pth s) → done h a) →
  ∀ n tr, length (pth tr) ≤ n → tr < length h → finished h tr →
    pth tr `suffix_of` pth p →
    (if decide (p = 0) then tr = 0 else length (pth tr) < length (pth p)) →
    ∃ j, walks h s (Some c) (Some tr) j ∧ j < length h ∧
         pth j `suffix_of` pth s ∧ length (pth j) < length (pth s) ∧
         (j ≠ 0 → ∃ pj, parent_of h j = Some pj ∧ finished h pj).
Proof.
  intros Hinv Hne Hs Hp Hc Hdone.
  destruct (auto_inv_node _ _ _ _ _ Hinv Hs Hne)
    as (st & p' & c' & Hst & _ & _ & Hp' & Hc' & Hlt & Hchild & Hpth).
  assert (p' = p) as -> by congruence. assert (c' = c) as -> by congruence.
  assert (length (pth s) = S (length (pth p))) as Hlen.
  { rewrite Hpth, length_app. simpl. lia. }
  induction n as [n IH] using lt_wf_ind.
  intros tr Hn Htr Hfin Hsuf Hsh.
  apply lookup_lt_is_Some_2 in Htr as Hts. destruct Hts as [ts Hts].
  destruct (hit (Some c) (transitions ts) s) as [target|] eqn:Hhit.
  - exists target. split; [by eapply walks_hit|].
    unfold hit in Hhit. simpl in Hhit.
    destruct (dict_get c (transitions ts)) as [x|] eqn:Hget; [|done].
    destruct (decide (x ≠ s)) as [Hxs|]; [|done]. simplify_eq.
    apply dict_get_elem in Hget as Hin.
    rewrite <- (entries_lookup _ _ _ Hts) in Hin.
    destruct (ai_tr _ _ _ _ Hinv _ _ _ Hin) as (Hv & _ & Hsf).
    assert (p ≠ 0) as Hp0.
    { intros ->. rewrite decide_True in Hsh by done. subst tr.
      rewrite (entries_lookup _ _ _ Hts) in Hchild. congruence. }
    rewrite decide_False in Hsh by done.
    apply suffix_length in Hsf as Hl. rewrite length_app in Hl. simpl in Hl.
    split_and!; [done| |lia|].
    + rewrite Hpth. etrans; [done|]. by apply suffix_app.
    + intros _. destruct (ai_par _ _ _ _ Hinv _ _ _ Hin) as [?|?]; eauto.
  - destruct (decide (tr = 0)) as [->|Htr0].
    + exists 0. split; [by eapply walks_root|].
      destruct (ai_root _ _ _ _ Hinv) as [Hp0 _]. rewrite Hp0. simpl.
      split_and!; [done|apply suffix_nil|lia|done].
    + destruct Hfin as [y Hy].
      assert (length (pth tr) < length (pth s)) as Hd.
      { apply suffix_length in Hsuf. lia. }
      destruct (Hdone tr Hd y Htr0 Hy) as (Hfy & _).
      destruct (ai_lss _ _ _ _ Hinv _ _ Hy) as (Hyv & Hys).
      rewrite decide_False in Hys by done. destruct Hys as [Hys Hyl].
      assert (p ≠ 0) as Hp0.
      { intros ->. by rewrite decide_True in Hsh. }
      rewrite decide_False in Hsh by done.
      destruct (IH (length (pth y))) with (tr := y)
        as (j & Hw & ?); try done; [lia|by etrans| |].
      { rewrite decide_False by done. lia. }
      exists j. split; [|done].
      eapply walks_next; try done. unfold lss_of in Hy.
      rewrite Hts in Hy. simpl in Hy. by rewrite Hy.
Qed.

Lemma walk_exists ci ks pth h s p c :
  auto_inv ci ks pth h → s ≠ 0 → s < length h →
  parent_of h s = Some p → symbol_of h s = Some c →
  finished h p → lss_of h 0 = Some 0 →
  (∀ a, length (pth a) < length (pth s) → done h a) →
  ∃ j, walks h s (Some c) (lss_of h p) j ∧ j < length h ∧
       pth j `suffix_of` pth s ∧ length (pth j) < length (pth s) ∧
       (j ≠ 0 → ∃ pj, parent_of h j = Some pj ∧ finished h pj).
Proof.
  intros Hinv Hne Hs Hp Hc [tr Htr] H0 Hdone. rewrite Htr.
  destruct (auto_inv_node _ _ _ _ _ Hinv Hs Hne)
    as (st & p' & c' & Hst & _ & _ & Hp' & Hc' & Hlt & Hchild & Hpth).
  assert (p' = p) as -> by congruence.
  destruct (ai_lss _ _ _ _ Hinv _ _ Htr) as (Hv & Hsuf).
  eapply (walk_exists_from _ _ _ _ _ _ _ Hinv Hne Hs Hp Hc Hdone
            (length (pth tr))); try done.
  - destruct (decide (p = 0)) as [->|Hp0].
    + subst tr. by eexists.
    + assert (length (pth p) < length (pth s)) as Hd.
      { rewrite Hpth, length_app. simpl. lia. }
      by destruct (Hdone p Hd tr Hp0 Htr) as (? & _).
  - destruct (decide (p = 0)) as [->|Hp0]; [by subst|by destruct Hsuf].
  - destruct (decide (p = 0)) as [->|Hp0]; [done|by destruct Hsuf].
Qed.

(** ** The merge of the suffix's transitions *)

(** the dict [dst] after the loop over the items [src] *)
Definition merge_dict (src dst : dict) : dict :=
  fold_left
    (λ acc e, match dict_get e.1 acc with
              | None => acc ++ [e]
              | Some _ => acc
              end) src dst.

Lemma merge_dict_cons x t src dst :
  merge_dict ((x, t) :: src) dst =
  merge_dict src (match dict_get x dst with
                  | None => dst ++ [(x, t)]
                  | Some _ => dst
                  end).
Proof. done. Qed.

Lemma merge_dict_app src : ∀ dst,
  ∃ add, merge_dict src dst = dst ++ add ∧ (∀ e, e ∈ add → e ∈ src).
Proof.
  induction src as [|[x t] src IH]; intros dst.
  { exists []. rewrite app_nil_r. split; [done|]. by intros e He. }
  rewrite merge_dict_cons. destruct (dict_get x dst) eqn:Hx.
  - destruct (IH dst) as (add & -> & Hadd). exists add. split; [done|].
    intros e He. right. auto.
  - destruct (IH (dst ++ [(x, t)])) as (add & -> & Hadd).
    exists ((x, t) :: add). rewrite <- app_assoc. split; [done|].
    intros e [->|He]%elem_of_cons; [left|right; auto].
Qed.

Lemma merge_dict_keys src : ∀ dst,
  NoDup dst.*1 → NoDup (merge_dict src dst).*1.
Proof.
  induction src as [|[x t] src IH]; intros dst Hnd; [done|].
  rewrite merge_dict_cons. destruct (dict_get x dst) eqn:Hx; [auto|].
  apply IH. by apply dict_keys_snoc.
Qed.

Lemma merge_dict_mono src : ∀ dst x v,
  dict_get x dst = Some v → dict_get x (merge_dict src dst) = Some v.
Proof.
  induction src as [|[y t] src IH]; intros dst x v Hx; [done|].
  rewrite merge_dict_cons. destruct (dict_get y dst) eqn:Hy; [auto|].
  apply IH. by rewrite dict_get_app, Hx.
Qed.

Lemma merge_dict_get src : ∀ dst x t,
  NoDup src.*1 → (x, t) ∈ src →
  ∃ t', dict_get x (merge_dict src dst) = Some t' ∧
        (dict_get x dst = Some t' ∨ t' = t).
Proof.
  induction src as [|[y u] src IH]; intros dst x t Hnd Hin.
  { by apply elem_of_nil in Hin. }
  apply NoDup_cons in Hnd as [Hy Hnd]. rewrite merge_dict_cons.
  apply elem_of_cons in Hin as [Heq|Hin].
  - simplify_eq. destruct (dict_get y dst) as [v|] eqn:Hv.
    + exists v. split; [by apply merge_dict_mono|by left].
    + exists u. split; [|by right]. apply merge_dict_mono.
      rewrite dict_get_snoc, Hv. by rewrite decide_True.
  - assert (x ≠ y) as Hne.
    { intros ->. apply Hy. apply list_elem_of_fmap. by exists (y, t). }
    destruct (dict_get y dst) as [v|] eqn:Hv; [by apply IH|].
    destruct (IH (dst ++ [(y, u)]) x t Hnd Hin) as (t' & Hg & Ht').
    exists t'. split; [done|]. destruct Ht' as [Ht'|?]; [|by right].
    left. rewrite dict_get_snoc in Ht'.
    destruct (dict_get x dst); [done|]. by rewrite decide_False in Ht'.
Qed.

Lemma merge_dict_id src : ∀ dst,
  (∀ x t, (x, t) ∈ src → is_Some (dict_get x dst)) →
  merge_dict src dst = dst.
Proof.
  induction src as [|[y u] src IH]; intros dst Hall; [done|].
  rewrite merge_dict_cons. destruct (Hall y u) as [v Hv]; [left|].
  rewrite Hv. apply IH. intros x t Hin. apply (Hall x t). by right.
Qed.

Lemma grow_grow h s d d' : grow (grow h s d) s d' = grow h s d'.
Proof.
  destruct (h !! s) as [st|] eqn:Hst.
  - unfold grow at 1. rewrite (grow_lookup_eq _ _ _ _ Hst).
    unfold grow. rewrite Hst. by rewrite list_insert_insert_eq.
  - unfold grow. by rewrite Hst, Hst.
Qed.

Lemma modify_grow t s x nx st :
  heap t !! s = Some st → dict_get x (transitions st) = None →
  modify s (λ s0, with_transitions (dict_set x nx (transitions s0)) s0) t =
  (Ok tt, with_heap (grow (heap t) s (transitions st ++ [(x, nx)])) t).
Proof.
  intros Hs Hx. rewrite (modify_ok _ _ _ _ Hs). unfold grow.
  by rewrite Hs, dict_set_fresh.
Qed.

Lemma merge_loop_spec j s sf n : ∀ pos t st,
  j ≠ s → heap t !! j = Some sf → heap t !! s = Some st →
  n + pos = length (transitions sf) →
  merge_loop n pos (length (transitions sf)) j s t =
  (Ok tt,
   with_heap (grow (heap t) s
                (merge_dict (drop pos (transitions sf)) (transitions st))) t).
Proof.
  induction n as [|n IH]; intros pos t st Hne Hj Hs Hn.
  - simpl. rewrite (bind_ok _ _ _ _ _ (deref_ok _ _ _ Hj)).
    unfold dict_next. rewrite decide_True by done.
    unfold bind, ret. simpl in Hn. subst pos.
    rewrite lookup_ge_None_2 by done. rewrite drop_all. simpl.
    by rewrite (grow_id _ _ _ Hs), with_heap_id.
  - simpl. rewrite (bind_ok _ _ _ _ _ (deref_ok _ _ _ Hj)).
    unfold dict_next. rewrite decide_True by done.
    assert (pos < length (transitions sf)) as Hpos by lia.
    apply lookup_lt_is_Some_2 in Hpos as [[x nx] Hx].
    unfold bind at 1. unfold ret at 1. rewrite Hx.
    rewrite (bind_ok _ _ _ _ _ (deref_ok _ _ _ Hs)).
    rewrite (drop_S _ _ _ Hx), merge_dict_cons.
    destruct (dict_get x (transitions st)) eqn:Hg.
    + unfold bind at 1. unfold ret at 1. apply IH; try done. lia.
    + rewrite (bind_ok _ _ _ _ _ (modify_grow _ _ _ nx _ Hs Hg)).
      rewrite (IH (S pos) _ (with_transitions (transitions st ++ [(x, nx)]) st));
        try done.
      * simpl. by rewrite grow_grow.
      * simpl. by rewrite grow_lookup_ne.
      * simpl. by apply grow_lookup_eq.
      * lia.
Qed.

(** ** [search_lss] *)

(** the body of [search_lss] after its loop *)
Definition search_lss_rest (fuel : nat) (state : ref) : M unit :=
  let* st := deref state in
  let suffix := longest_strict_suffix st in
  if decide (suffix = Some _zero_state) then ret tt
  else
    let* sf := deref_opt suffix in
    match longest_strict_suffix sf with
    | None =>
        match suffix with
        | Some suffix => search_lss fuel suffix
        | None => ret tt
        end
    | Some _ => ret tt
    end ;;
    let* sf := deref_opt suffix in
    match suffix with
    | Some suffix =>
        merge_loop (length (transitions sf)) 0 (length (transitions sf))
          suffix state
    | None => ret tt
    end.

Lemma search_lss_unfold fuel s t st p pa :
  heap t !! s = Some st → parent st = Some p → heap t !! p = Some pa →
  search_lss (S fuel) s t =
  (suffix_search s (longest_strict_suffix pa) ;; search_lss_rest fuel s) t.
Proof.
  intros Hs Hp Hpa. unfold search_lss at 1. fold search_lss.
  rewrite (bind_ok _ _ _ _ _ (deref_ok _ _ _ Hs)). rewrite Hp. simpl deref_opt.
  rewrite (bind_ok _ _ _ _ _ (deref_ok _ _ _ Hpa)). done.
Qed.

Lemma depth_closed_lss ci ks pth h D x y :
  auto_inv ci ks pth h → length (pth x) < D → lss_of h x = Some y →
  length (pth y) < D.
Proof.
  intros Hinv Hx Hy. destruct (ai_lss _ _ _ _ Hinv _ _ Hy) as (_ & Hs).
  destruct (decide (x = 0)) as [->|?]; [by subst|]. lia.
Qed.

Lemma depth_closed_parent ci ks pth h D x p :
  auto_inv ci ks pth h → length (pth x) < D → parent_of h x = Some p →
  length (pth p) < D.
Proof.
  intros Hinv Hx Hp. unfold parent_of in Hp.
  destruct (h !! x) as [st|] eqn:Hst; [|done]. simpl in Hp.
  destruct (decide (x = 0)) as [->|Hne].
  { destruct (ai_root _ _ _ _ Hinv) as (_ & st0 & ? & ? & _). congruence. }
  destruct (ai_node _ _ _ _ Hinv _ _ Hst Hne) as (p' & c & ? & _ & _ & _ & Hpth).
  assert (p' = p) as -> by congruence.
  rewrite Hpth, length_app in Hx. simpl in Hx. lia.
Qed.

(** a second call of [search_lss] for a state changes nothing *)
Lemma search_lss_again ci ks pth s t j :
  auto_inv ci ks pth (heap t) → s ≠ 0 →
  lss_of (heap t) s = Some j → done (heap t) s →
  ∀ fuel, 0 < fuel → search_lss fuel s t = (Ok tt, t).
Proof.
  intros Hinv Hne Hj Hd.
  destruct (Hd j Hne Hj) as ([jj Hjj] & (p & c & Hp & Hc & [tr Htr] & Hw) & Hm).
  unfold lss_of in Hj. destruct (heap t !! s) as [st|] eqn:Hst; [|done].
  simpl in Hj. unfold parent_of in Hp, Hc. unfold symbol_of in Hc.
  rewrite Hst in Hp, Hc. simpl in Hp, Hc.
  unfold lss_of in Htr. destruct (heap t !! p) as [pa|] eqn:Hpa; [|done].
  simpl in Htr.
  assert (lss_of (heap t) p = longest_strict_suffix pa) as Hlp
    by (unfold lss_of; by rewrite Hpa).
  rewrite Hlp in Hw.
  assert (lss_of (heap t) p = Some tr) as Hltr by by rewrite Hlp.
  destruct (ai_lss _ _ _ _ Hinv _ _ Hltr) as (Htrv & _).
  rewrite Htr in Hw.
  pose proof (suffix_search_walks _ _ _ _ _ _ _ _ _ Hinv Hw Htrv Hst Hc) as HF.
  intros [|fuel] Hfuel; [lia|].
  rewrite (search_lss_unfold _ _ _ _ _ _ Hst Hp Hpa), Htr.
  rewrite (bind_ok _ _ _ _ _ HF).
  rewrite (link_id _ _ _ _ Hst Hj), with_heap_id.
  unfold search_lss_rest.
  rewrite (bind_ok _ _ _ _ _ (deref_ok _ _ _ Hst)). rewrite Hj.
  destruct (decide (Some j = Some _zero_state)) as [|Hj0]; [done|].
  assert (j ≠ 0) as Hjne by (intros ->; by apply Hj0).
  unfold lss_of in Hjj. destruct (heap t !! j) as [sf|] eqn:Hsf; [|done].
  simpl in Hjj. simpl deref_opt.
  rewrite (bind_ok _ _ _ _ _ (deref_ok _ _ _ Hsf)). rewrite Hjj.
  unfold bind at 1. unfold ret at 1.
  rewrite (bind_ok _ _ _ _ _ (deref_ok _ _ _ Hsf)).
  assert (j ≠ s) as Hjs.
  { intros ->. assert (lss_of (heap t) s = Some s) as Hl
      by (unfold lss_of; by rewrite Hst).
    destruct (ai_lss _ _ _ _ Hinv _ _ Hl) as (_ & Hsuf).
    rewrite decide_False in Hsuf by done. lia. }
  rewrite (merge_loop_spec j s sf _ 0 t st Hjs Hsf Hst) by lia.
  rewrite drop_0, merge_dict_id.
  - by rewrite (grow_id _ _ _ Hst), with_heap_id.
  - intros x u Hin. rewrite <- (entries_lookup _ _ _ Hsf) in Hin.
    destruct (Hm Hjne x u Hin) as (t' & Hg & _).
    rewrite (entries_lookup _ _ _ Hst) in Hg. by eexists.
Qed.

Lemma fin_closed_lss ci ks pth h D x y :
  auto_inv ci ks pth h → lss_of h 0 = Some 0 →
  (∀ a, length (pth a) < D → done h a) →
  finished h x ∧ length (pth x) < D → lss_of h x = Some y →
  finished h y ∧ length (pth y) < D.
Proof.
  intros Hinv H0 Hdone [Hf Hx] Hy. split; [|by eapply depth_closed_lss].
  destruct (decide (x = 0)) as [->|Hne].
  - destruct (ai_lss _ _ _ _ Hinv _ _ Hy) as (_ & Hz). simpl in Hz. subst.
    by eexists.
  - by destruct (Hdone x Hx y Hne Hy) as (? & _).
Qed.

Lemma fin_closed_parent ci ks pth h D x p :
  auto_inv ci ks pth h →
  (∀ a, length (pth a) < D → done h a) →
  finished h x ∧ length (pth x) < D → parent_of h x = Some p →
  finished h p ∧ length (pth p) < D.
Proof.
  intros Hinv Hdone [[y Hy] Hx] Hp. split; [|by eapply depth_closed_parent].
  destruct (decide (x = 0)) as [->|Hne].
  { destruct (ai_root _ _ _ _ Hinv) as (_ & st0 & Hst0 & ? & _).
    unfold parent_of in Hp. rewrite Hst0 in Hp. simpl in Hp. congruence. }
  destruct (Hdone x Hx y Hne Hy) as (_ & (p' & c & ? & _ & ? & _) & _).
  congruence.
Qed.

(** the first call of [search_lss] for a state *)
Lemma search_lss_fresh ci ks pth : ∀ n s t,
  length (pth s) ≤ n →
  auto_inv ci ks pth (heap t) → s < length (heap t) → s ≠ 0 →
  lss_of (heap t) s = None → lss_of (heap t) 0 = Some 0 →
  (∃ p, parent_of (heap t) s = Some p ∧ finished (heap t) p) →
  (∀ a, length (pth a) < length (pth s) → done (heap t) a) →
  ∃ h',
    (∀ fuel, length (pth s) ≤ fuel →
       search_lss fuel s t = (Ok tt, with_heap h' t)) ∧
    auto_inv ci ks pth h' ∧ same_shape (heap t) h' ∧
    (∀ a, a ≠ s → finished (heap t) a → h' !! a = heap t !! a) ∧
    (∀ a, a ≠ s → length (pth s) ≤ length (pth a) → h' !! a = heap t !! a) ∧
    finished h' s ∧ done h' s ∧
    (∀ a, length (pth a) < length (pth s) → done h' a).
Proof.
  induction n as [n IH] using lt_wf_ind.
  intros s t Hn Hinv Hs Hne Hnone H0 (p & Hp & Hfp) Hdone.
  set (h := heap t) in *.
  destruct (auto_inv_node _ _ _ _ _ Hinv Hs Hne)
    as (st & p' & c & Hst & Hpst & Hcst & Hp' & Hc & Hlt & Hchild & Hpth).
  assert (p' = p) as -> by congruence.
  destruct (walk_exists _ _ _ _ _ _ _ Hinv Hne Hs Hp Hc Hfp H0 Hdone)
    as (j & Hw & Hjv & Hjsuf & Hjlen & Hjpar).
  assert (∃ pa, h !! p = Some pa ∧ lss_of h p = longest_strict_suffix pa)
    as (pa & Hpa & Hlp).
  { destruct Hfp as [tr Htr]. unfold lss_of in *.
    destruct (h !! p) as [pa|]; [|done]. by exists pa. }
  assert (∃ tr, lss_of h p = Some tr ∧ tr < length h) as (tr0 & Htr0 & Htr0v).
  { destruct Hfp as [tr Htr]. exists tr. split; [done|].
    by destruct (ai_lss _ _ _ _ Hinv _ _ Htr). }
  pose proof Hw as Hw0. rewrite Htr0 in Hw0.
  pose proof (suffix_search_walks _ _ _ _ _ _ _ _ _ Hinv Hw0 Htr0v Hst Hcst)
    as HF1.
  assert (0 < length (pth s)) as Hdepth
    by (rewrite Hpth, length_app; simpl; lia).
  set (st1 := with_suffix (Some j) st).
  set (h1 := link h s j) in *.
  assert (auto_inv ci ks pth h1) as Hinv1.
  { apply link_inv; try done. by rewrite decide_False. }
  assert (h1 !! s = Some st1) as Hst1 by by apply link_lookup_eq.
  assert (∀ a, a ≠ s → h1 !! a = h !! a) as Hfr1
    by (intros; by apply link_lookup_ne).
  assert (same_shape h h1) as Hsh1 by apply link_shape.
  assert (j ≠ s) as Hjs by (intros ->; lia).
  assert (p ≠ s) as Hps by lia.
  assert (∀ a, length (pth a) < length (pth s) → done h1 a) as Hdone1.
  { intros a Ha.
    apply (done_frame (λ x, length (pth x) < length (pth s)) h h1); auto.
    - intros x Hx. apply Hfr1. intros ->. lia.
    - intros x y. by eapply depth_closed_lss.
    - intros x q. by eapply depth_closed_parent. }
  set (Q := λ x, finished h x ∧ length (pth x) < length (pth s)).
  assert (∀ x y, Q x → lss_of h x = Some y → Q y) as HQlss
    by (intros x y; by eapply fin_closed_lss).
  assert (∀ x q, Q x → parent_of h x = Some q → Q q) as HQpar
    by (intros x q; by eapply fin_closed_parent).
  assert (Q p) as HQp.
  { split; [done|]. rewrite Hpth, length_app. simpl. lia. }
  assert (∀ x, Q x → x ≠ s) as HQs by (intros x [_ Hx] ->; lia).
  assert (∀ h', same_shape h h' → (∀ x, Q x → h' !! x = h !! x) →
            ∃ q x, parent_of h' s = Some q ∧ symbol_of h' s = Some x ∧
              finished h' q ∧ walks h' s (Some x) (lss_of h' q) j) as Hwalk.
  { intros h' Hsh Hfr. exists p, c.
    rewrite (same_shape_parent_of _ _ _ Hsh), (same_shape_symbol_of _ _ _ Hsh).
    unfold finished. rewrite (frame_lss_of h h' p) by auto.
    split_and!; try done.
    eapply (walks_frame Q); eauto. }
  destruct (decide (j = 0)) as [->|Hj0].
  { exists h1. split_and!; try done.
    - intros [|fuel] Hfuel; [lia|].
      rewrite (search_lss_unfold _ _ _ _ _ _ Hst Hpst Hpa), <- Hlp, Htr0.
      rewrite (bind_ok _ _ _ _ _ HF1).
      unfold search_lss_rest.
      rewrite (bind_ok _ _ _ _ _ (deref_ok (with_heap h1 t) _ _ Hst1)).
      unfold st1. simpl. done.
    - intros a Ha _. by apply Hfr1.
    - intros a Ha _. by apply Hfr1.
    - unfold finished, lss_of. rewrite Hst1. by eexists.
    - intros j' _ Hj'. unfold lss_of in Hj'. rewrite Hst1 in Hj'.
      simpl in Hj'. simplify_eq. split_and!; [| |done].
      + unfold finished. rewrite (frame_lss_of h h1 0) by auto. by eexists.
      + apply Hwalk; auto. }
  destruct (lookup_lt_is_Some_2 h j Hjv) as [sf Hsf].
  assert (h1 !! j = Some sf) as Hsf1 by by rewrite Hfr1.
  assert (finished h1 s) as Hfs1.
  { unfold finished, lss_of. rewrite Hst1. by eexists. }
  assert (lss_of h1 0 = Some 0) as H01
    by by rewrite (frame_lss_of h h1 0) by auto.
  assert (∃ h2,
    (∀ fuel, length (pth j) ≤ fuel →
       match longest_strict_suffix sf with
       | None => search_lss fuel j
       | Some _ => ret tt
       end (with_heap h1 t) = (Ok tt, with_heap h2 t)) ∧
    auto_inv ci ks pth h2 ∧ same_shape h1 h2 ∧
    h2 !! s = Some st1 ∧
    (∀ a, a ≠ s → finished h a → h2 !! a = h !! a) ∧
    (∀ a, a ≠ s → length (pth s) ≤ length (pth a) → h2 !! a = h !! a) ∧
    finished h2 j ∧
    (∀ a, length (pth a) < length (pth s) → done h2 a))
    as (h2 & HF2 & Hinv2 & Hsh2 & Hst2 & Hfr2 & Hfr2' & Hfj & Hdone2).
  { destruct (longest_strict_suffix sf) as [jj|] eqn:Hjj.
    { exists h1. split_and!; try done.
      - intros a Ha _. auto.
      - intros a Ha _. auto.
      - unfold finished, lss_of. rewrite Hsf1. simpl. by eexists. }
    assert (lss_of h j = None) as Hnj by (unfold lss_of; by rewrite Hsf).
    destruct (IH (length (pth j)) ltac:(lia) j (with_heap h1 t))
      as (h2 & HF2 & Hinv2 & Hsh2 & HfrA & HfrB & Hfj & Hdj & Hdlt);
      simpl; try done.
    - by rewrite (same_shape_length _ _ Hsh1).
    - unfold lss_of. by rewrite Hsf1.
    - destruct (Hjpar Hj0) as (pj & Hpj & Hfpj). exists pj.
      rewrite (same_shape_parent_of _ _ _ Hsh1). split; [done|].
      destruct (decide (pj = s)) as [->|?]; [done|].
      unfold finished. by rewrite (frame_lss_of h h1 pj) by auto.
    - intros a Ha. apply Hdone1. lia.
    - change (heap (with_heap h1 t)) with h1 in *.
      assert (∀ a, a ≠ s → finished h a → h2 !! a = h !! a) as Hfr2.
      { intros a Ha Hfa. rewrite HfrA, Hfr1; auto.
        - intros ->. destruct Hfa. congruence.
        - unfold finished. by rewrite (frame_lss_of h h1 a) by auto. }
      exists h2. split_and!; try done; [by rewrite HfrA; auto| |].
      { intros a Ha Hla. rewrite HfrB, Hfr1; auto; [intros ->|]; lia. }
      intros a Ha. destruct (decide (a = j)) as [->|Haj]; [done|].
      destruct (decide (length (pth a) < length (pth j))); [by apply Hdlt|].
      destruct (lss_of h a) as [y|] eqn:Hla.
      + apply (done_frame Q h1 h2); auto.
        * intros x Hx. rewrite Hfr2, Hfr1; auto. by destruct Hx.
        * intros x y' Hx. rewrite (frame_lss_of h h1 x) by auto. eauto.
        * intros x q Hx. rewrite (same_shape_parent_of _ _ _ Hsh1). eauto.
        * split; [by eexists|done].
      + intros j' _ Hj'.
        rewrite (frame_lss_of h1 h2 a), (frame_lss_of h h1 a) in Hj';
          [congruence| |].
        * apply Hfr1. intros ->. lia.
        * apply HfrB; [done|lia]. }
  assert (∃ sf2, h2 !! j = Some sf2) as [sf2 Hsf2].
  { destruct Hfj as [? Hfj]. unfold lss_of in Hfj.
    destruct (h2 !! j); [by eexists|done]. }
  assert (same_shape h h2) as Hsh02 by by eapply same_shape_trans.
  set (d := merge_dict (transitions sf2) (transitions st)).
  set (h3 := grow h2 s d).
  assert (s < length h2) as Hs2 by by eapply lookup_lt_Some.
  assert (∀ a, a ≠ s → h3 !! a = h2 !! a) as Hfr3
    by (intros; by apply grow_lookup_ne).
  assert (same_shape h2 h3) as Hsh3 by apply grow_shape.
  assert (finished h2 s) as Hfs2.
  { unfold finished, lss_of. rewrite Hst2. by eexists. }
  destruct (merge_dict_app (transitions sf2) (transitions st))
    as (add & Hd & Hadd).
  assert (auto_inv ci ks pth h3) as Hinv3.
  { unfold h3, d. rewrite Hd.
    apply (grow_inv _ _ _ _ _ st1 add Hinv2 Hst2 Hfs2).
    - simpl. rewrite <- Hd. apply merge_dict_keys.
      apply (ai_keys _ _ _ _ Hinv _ _ Hst).
    - intros x u Hin. apply Hadd in Hin.
      rewrite <- (entries_lookup _ _ _ Hsf2) in Hin.
      destruct (ai_tr _ _ _ _ Hinv2 _ _ _ Hin) as (Hv & Hsy & Hsf').
      split_and!; try done.
      + etrans; [done|]. by apply suffix_app.
      + destruct (ai_par _ _ _ _ Hinv2 _ _ _ Hin) as [?|?]; eauto. }
  exists h3. split_and!; try done.
  - intros [|fuel] Hfuel; [lia|].
    rewrite (search_lss_unfold _ _ _ _ _ _ Hst Hpst Hpa), <- Hlp, Htr0.
    rewrite (bind_ok _ _ _ _ _ HF1).
    unfold search_lss_rest.
    rewrite (bind_ok _ _ _ _ _ (deref_ok (with_heap h1 t) _ _ Hst1)).
    change (longest_strict_suffix st1) with (Some j).
    rewrite decide_False by (intros [= ->]; done). simpl deref_opt.
    rewrite (bind_ok _ _ _ _ _ (deref_ok (with_heap h1 t) _ _ Hsf1)).
    rewrite (bind_ok _ _ _ _ _ (HF2 fuel ltac:(lia))).
    rewrite (bind_ok _ _ _ _ _ (deref_ok (with_heap h2 t) _ _ Hsf2)).
    change (longest_strict_suffix st1) with (Some j). cbv beta iota.
    rewrite (merge_loop_spec j s sf2 _ 0 (with_heap h2 t) st1 Hjs Hsf2 Hst2)
      by lia.
    by rewrite drop_0.
  - by eapply same_shape_trans.
  - intros a Ha Hfa. rewrite Hfr3, Hfr2; auto.
  - intros a Ha Hla. rewrite Hfr3, Hfr2'; auto.
  - unfold finished. unfold h3. by rewrite grow_lss_of.
  - intros j' _ Hj'. unfold h3 in Hj'. rewrite grow_lss_of in Hj'.
    unfold lss_of in Hj'. rewrite Hst2 in Hj'. simpl in Hj'.
    assert (j' = j) as -> by congruence. clear Hj'.
    split_and!.
    + unfold finished. unfold h3. by rewrite grow_lss_of.
    + apply Hwalk; [by eapply same_shape_trans|].
      intros x Hx. rewrite Hfr3, Hfr2; auto. by destruct Hx.
    + intros _ x u. rewrite (frame_entries h2 h3 j) by auto.
      unfold h3. rewrite grow_entries, decide_True by done.
      rewrite (entries_lookup _ _ _ Hsf2). intros Hin.
      destruct (merge_dict_get (transitions sf2) (transitions st) x u)
        as (t' & Hg & Ht'); [by apply (ai_keys _ _ _ _ Hinv2 _ _ Hsf2)|done|].
      exists t'. split; [done|]. destruct Ht' as [Ht'|?]; [|by left].
      right. apply dict_get_elem in Ht'.
      rewrite <- (entries_lookup _ _ _ Hst) in Ht'.
      rewrite (same_shape_parent_of _ _ _ Hsh3),
        (same_shape_parent_of _ _ _ Hsh02).
      by eapply (ai_fresh _ _ _ _ Hinv).
  - intros a Ha.
    apply (done_frame (λ x, length (pth x) < length (pth s)) h2 h3); auto.
    + intros x Hx. apply Hfr3. intros ->. lia.
    + intros x y. by eapply depth_closed_lss.
    + intros x q. by eapply depth_closed_parent.
Qed.

(** ** The traversal of [search_lss_for_children] *)

(** the invariant between two calls of [search_lss] from the traversal *)
Definition tinv (ci : bool) (ks : list string) (pth : ref → list ascii)
    (h : list State) : Prop :=
  auto_inv ci ks pth h ∧ lss_of h 0 = Some 0 ∧ ∀ a, done h a.

(** states that have a suffix link are not touched any more *)
Definition frozen (h h' : list State) : Prop :=
  ∀ a, finished h a → h' !! a = h !! a.

Lemma frozen_refl h : frozen h h.
Proof. by intros a _. Qed.

Lemma frozen_trans h1 h2 h3 : frozen h1 h2 → frozen h2 h3 → frozen h1 h3.
Proof.
  intros H12 H23 a Ha. rewrite H23, H12; auto.
  unfold finished. by rewrite (frame_lss_of h1 h2 a) by auto.
Qed.

Lemma frozen_finished h h' a : frozen h h' → finished h a → finished h' a.
Proof.
  intros Hf Ha. unfold finished. by rewrite (frame_lss_of h h' a) by auto.
Qed.

Lemma tinv_closed_lss ci ks pth h x y :
  tinv ci ks pth h → finished h x → lss_of h x = Some y → finished h y.
Proof.
  intros (Hinv & H0 & Hdone) Hx Hy. destruct (decide (x = 0)) as [->|Hne].
  - destruct (ai_lss _ _ _ _ Hinv _ _ Hy) as (_ & Hz). simpl in Hz. subst.
    by eexists.
  - by destruct (Hdone x y Hne Hy) as (? & _).
Qed.

Lemma tinv_closed_parent ci ks pth h x p :
  tinv ci ks pth h → finished h x → parent_of h x = Some p → finished h p.
Proof.
  intros (Hinv & H0 & Hdone) [y Hy] Hp. destruct (decide (x = 0)) as [->|Hne].
  { destruct (ai_root _ _ _ _ Hinv) as (_ & st0 & Hst0 & ? & _).
    unfold parent_of in Hp. rewrite Hst0 in Hp. simpl in Hp. congruence. }
  destruct (Hdone x y Hne Hy) as (_ & (p' & c & ? & _ & ? & _) & _).
  congruence.
Qed.

Lemma search_lss_top ci ks pth s t :
  tinv ci ks pth (heap t) → s < length (heap t) → s ≠ 0 →
  (∃ p, parent_of (heap t) s = Some p ∧ finished (heap t) p) →
  ∃ h',
    (∀ fuel, length (pth s) ≤ fuel →
       search_lss fuel s t = (Ok tt, with_heap h' t)) ∧
    tinv ci ks pth h' ∧ same_shape (heap t) h' ∧ frozen (heap t) h' ∧
    finished h' s.
Proof.
  intros Ht Hs Hne Hp. pose proof Ht as (Hinv & H0 & Hdone).
  destruct (lss_of (heap t) s) as [j|] eqn:Hj.
  { pose proof (search_lss_again _ _ _ _ _ _ Hinv Hne Hj (Hdone s)) as HF.
    exists (heap t). rewrite with_heap_id. split_and!; try done.
    - intros fuel Hfuel. apply HF.
      pose proof (auto_inv_pth_nonzero _ _ _ _ _ Hinv Hs Hne).
      destruct (pth s); [done|simpl in Hfuel; lia].
    - unfold finished. rewrite Hj. by eexists. }
  destruct (search_lss_fresh ci ks pth (length (pth s)) s t)
    as (h' & HF & Hinv' & Hsh & HfrA & HfrB & Hfs & Hds & Hdlt); auto.
  assert (frozen (heap t) h') as Hfroz.
  { intros a Ha. apply HfrA; [|done]. intros ->. destruct Ha. congruence. }
  exists h'. split_and!; try done.
  split_and!; try done.
  - by rewrite (frame_lss_of (heap t) h' 0) by (apply Hfroz; by eexists).
  - intros a. destruct (decide (a = s)) as [->|Has]; [done|].
    destruct (lss_of (heap t) a) as [y|] eqn:Hy.
    + apply (done_frame (finished (heap t)) (heap t) h'); auto.
      * intros x z. by eapply tinv_closed_lss.
      * intros x z. by eapply tinv_closed_parent.
      * by eexists.
    + destruct (decide (length (pth a) < length (pth s))); [by apply Hdlt|].
      intros z _ Hz. rewrite (frame_lss_of (heap t) h' a) in Hz; [congruence|].
      apply HfrB; [done|lia].
Qed.

(** [fuel] frames are enough for the recursion of [search_lss] from any
    state of the heap: no path has more symbols *)
Definition deep_enough (pth : ref → list ascii) (h : list State)
    (fuel : nat) : Prop :=
  ∀ a, a < length h → length (pth a) ≤ fuel.

Lemma children_loop_spec ci ks pth x P sx n : ∀ pos t stack,
  tinv ci ks pth (heap t) → heap t !! x = Some sx → finished (heap t) x →
  n + pos = length (transitions sx) →
  ∃ h' pushed,
    (∀ fuel, deep_enough pth (heap t) fuel →
       children_loop fuel n pos (length (transitions sx)) x P stack t =
       (Ok (pushed ++ stack), with_heap h' t)) ∧
    tinv ci ks pth h' ∧ same_shape (heap t) h' ∧ frozen (heap t) h' ∧
    (∀ b, b ∈ pushed → b < length h' ∧ finished h' b ∧ b ∉ P) ∧
    (∀ c b, (c, b) ∈ drop pos (transitions sx) → b ∈ P ∨ b ∈ pushed) ∧
    length pushed ≤ n.
Proof.
  induction n as [|n IH]; intros pos t stack Ht Hx Hfx Hn.
  - exists (heap t), []. rewrite with_heap_id. split_and!; try done.
    + intros fuel _. simpl.
      rewrite (bind_ok _ _ _ _ _ (deref_ok _ _ _ Hx)).
      unfold dict_next. rewrite decide_True by done.
      unfold bind, ret. by rewrite lookup_ge_None_2 by lia.
    + intros b Hb. by apply elem_of_nil in Hb.
    + intros c b. rewrite drop_ge by lia. intros Hb. by apply elem_of_nil in Hb.
  - assert (pos < length (transitions sx)) as Hpos by lia.
    apply lookup_lt_is_Some_2 in Hpos as [[c child] Hc].
    pose proof Ht as (Hinv & H0 & Hdone).
    assert ((c, child) ∈ entries (heap t) x) as Hin.
    { rewrite (entries_lookup _ _ _ Hx). by eapply list_elem_of_lookup_2. }
    destruct (ai_tr _ _ _ _ Hinv _ _ _ Hin) as (Hv & _ & _).
    apply lookup_lt_is_Some_2 in Hv as Hch. destruct Hch as [ch Hch].
    pose proof (ai_id _ _ _ _ Hinv _ _ Hch) as Hid.
    assert (∀ fuel stack',
      children_loop fuel (S n) pos (length (transitions sx)) x P stack' t =
      if decide (child ∉ P) then
        (search_lss fuel child ;;
         children_loop fuel n (S pos) (length (transitions sx)) x P
           (child :: stack')) t
      else
        children_loop fuel n (S pos) (length (transitions sx)) x P stack' t)
      as Hunf.
    { intros fuel stack'. simpl.
      rewrite (bind_ok _ _ _ _ _ (deref_ok _ _ _ Hx)).
      unfold dict_next. rewrite decide_True by done.
      unfold bind at 1. unfold ret at 1. rewrite Hc.
      rewrite (bind_ok _ _ _ _ _ (deref_ok _ _ _ Hch)). rewrite Hid.
      by destruct (decide (child ∉ P)). }
    rewrite (drop_S _ _ _ Hc).
    destruct (decide (child ∉ P)) as [Hnp|Hp].
    + destruct (search_lss_top ci ks pth child t)
        as (h1 & HF1 & Ht1 & Hsh1 & Hfz1 & Hfc); try done.
      { by eapply auto_inv_target_nonzero. }
      { destruct (ai_par _ _ _ _ Hinv _ _ _ Hin) as [?|?]; eauto. }
      destruct (IH (S pos) (with_heap h1 t) (child :: stack))
        as (h' & pushed & HF2 & Ht' & Hsh' & Hfz' & Hpu & Hall & Hlen);
        try done.
      { change (h1 !! x = Some sx). rewrite Hfz1; auto. }
      { by eapply frozen_finished. }
      { lia. }
      change (heap (with_heap h1 t)) with h1 in *.
      exists h', (pushed ++ [child]). split_and!; try done.
      * intros fuel Hfuel. rewrite Hunf.
        rewrite (bind_ok _ _ _ _ _ (HF1 fuel (Hfuel _ Hv))).
        rewrite HF2; [by rewrite <- app_assoc|].
        intros a Ha. apply Hfuel. by rewrite <- (same_shape_length _ _ Hsh1).
      * by eapply same_shape_trans.
      * by eapply frozen_trans.
      * intros b [Hb|Hb%list_elem_of_singleton]%elem_of_app; [auto|]. subst b.
        split_and!; try done.
        -- rewrite (same_shape_length _ _ Hsh'), (same_shape_length _ _ Hsh1).
           done.
        -- by eapply frozen_finished.
      * intros c' b [Heq|Hb]%elem_of_cons.
        -- simplify_eq. right. rewrite elem_of_app, list_elem_of_singleton. auto.
        -- destruct (Hall _ _ Hb); [by left|right].
           rewrite elem_of_app. auto.
      * rewrite length_app. simpl. lia.
    + destruct (IH (S pos) t stack)
        as (h' & pushed & HF2 & Ht' & Hsh' & Hfz' & Hpu & Hall & Hlen);
        try done; [lia|].
      exists h', pushed. split_and!; try done.
      * intros fuel Hfuel. rewrite Hunf. by apply HF2.
      * intros c' b [Heq|Hb]%elem_of_cons; [|by eapply Hall].
        simplify_eq. left. by apply dec_stable.
      * lia.
Qed.

(** the invariant of the [while] loop: the states on the stack have their
    suffix link, and so have the processed ones, whose children are
    processed or on the stack *)
Definition pinv (ci : bool) (ks : list string) (pth : ref → list ascii)
    (h : list State) (P : gset nat) (stack : list ref) : Prop :=
  tinv ci ks pth h ∧
  (∀ a, a ∈ stack → a < length h ∧ finished h a) ∧
  (∀ a, a ∈ P →
     a < length h ∧ finished h a ∧
     ∀ b, parent_of h b = Some a → b ∈ P ∨ b ∈ stack).

(** how many states are not processed yet *)
Definition unprocessed (n : nat) (P : gset nat) : nat :=
  size (set_seq 0 n ∖ P : gset nat).

Lemma unprocessed_lt n P x :
  x < n → x ∉ P → unprocessed n (P ∪ {[x]}) < unprocessed n P.
Proof.
  intros Hx Hp. unfold unprocessed. apply subset_size.
  apply strict_spec_alt. split; [set_solver|].
  intros Heq. assert (x ∈ (set_seq 0 n ∖ P : gset nat)) as Hin.
  { apply elem_of_difference. split; [|done]. apply elem_of_set_seq. lia. }
  rewrite <- Heq in Hin. set_solver.
Qed.

(** a dict has an entry for a state at most: no more entries than there are
    states *)
Lemma dict_size ci ks pth h a st :
  auto_inv ci ks pth h → h !! a = Some st →
  length (transitions st) ≤ length h.
Proof.
  intros Hinv Hst.
  assert (NoDup (transitions st).*2) as Hnd.
  { apply NoDup_fmap_2_strong;
      [|eapply NoDup_fmap_1, (ai_keys _ _ _ _ Hinv _ _ Hst)].
    intros [c j] [c' j'] Hin Hin' Heq. simpl in Heq. subst j'.
    rewrite <- (entries_lookup _ _ _ Hst) in Hin, Hin'.
    destruct (ai_tr _ _ _ _ Hinv _ _ _ Hin) as (_ & Hc & _).
    destruct (ai_tr _ _ _ _ Hinv _ _ _ Hin') as (_ & Hc' & _). congruence. }
  rewrite <- (length_fmap snd).
  transitivity (length (seq 0 (length h))); [|by rewrite length_seq].
  apply submseteq_length, NoDup_submseteq; [done|].
  intros j [[c j'] [-> Hin]]%list_elem_of_fmap. simpl.
  rewrite <- (entries_lookup _ _ _ Hst) in Hin.
  destruct (ai_tr _ _ _ _ Hinv _ _ _ Hin) as (Hv & _).
  apply elem_of_seq. lia.
Qed.

Lemma pop_step ci ks pth P x rest t :
  pinv ci ks pth (heap t) P (x :: rest) →
  ∃ h' pushed,
    (∀ steps fuel, deep_enough pth (heap t) fuel →
       process_loop (S steps) fuel P (x :: rest) t =
       process_loop steps fuel (P ∪ {[x]}) (pushed ++ rest) (with_heap h' t)) ∧
    pinv ci ks pth h' (P ∪ {[x]}) (pushed ++ rest) ∧
    (∀ b, b ∈ pushed → b ∉ P ∪ {[x]}) ∧
    same_shape (heap t) h' ∧
    length pushed ≤ length (heap t).
Proof.
  intros (Ht & Hst & HP). pose proof Ht as (Hinv & H0 & Hdone).
  destruct (Hst x) as [Hx Hfx]; [left|].
  apply lookup_lt_is_Some_2 in Hx as Hsx. destruct Hsx as [sx Hsx].
  pose proof (ai_id _ _ _ _ Hinv _ _ Hsx) as Hid.
  destruct (children_loop_spec ci ks pth x (P ∪ {[x]}) sx
              (length (transitions sx)) 0 t rest)
    as (h' & pushed & HF & Ht' & Hsh & Hfz & Hpu & Hall & Hpl); try done.
  pose proof (same_shape_length _ _ Hsh) as Hlen.
  exists h', pushed. split_and!; try done.
  - intros steps fuel Hfuel. simpl.
    rewrite (bind_ok _ _ _ _ _ (deref_ok _ _ _ Hsx)). rewrite Hid.
    by rewrite (bind_ok _ _ _ _ _ (HF fuel Hfuel)).
  - split_and!; try done.
    + intros a [Ha|Ha]%elem_of_app.
      * destruct (Hpu a Ha) as (? & ? & _). done.
      * destruct (Hst a) as [? ?]; [by right|].
        split; [lia|by eapply frozen_finished].
    + intros a Ha.
      assert (a < length (heap t) ∧ finished (heap t) a) as [Hav Haf].
      { apply elem_of_union in Ha as [Ha|Ha%elem_of_singleton].
        - by destruct (HP a Ha) as (? & ? & _).
        - by subst. }
      split_and!; [lia|by eapply frozen_finished|].
      intros b. rewrite (same_shape_parent_of _ _ _ Hsh). intros Hb.
      destruct (decide (a = x)) as [->|Hax].
      * assert (b < length (heap t)) as Hbv.
        { unfold parent_of in Hb. destruct (heap t !! b) eqn:E; [|done].
          by eapply lookup_lt_Some. }
        assert (b ≠ 0) as Hb0.
        { intros ->. destruct (ai_root _ _ _ _ Hinv) as (_ & st0 & E & ? & _).
          unfold parent_of in Hb. rewrite E in Hb. simpl in Hb. congruence. }
        destruct (auto_inv_node _ _ _ _ _ Hinv Hbv Hb0)
          as (sb & p & c & _ & _ & _ & Hp & _ & _ & Hg & _).
        assert (p = x) as -> by congruence.
        apply dict_get_elem in Hg. rewrite (entries_lookup _ _ _ Hsx) in Hg.
        destruct (Hall c b) as [?|?]; [by rewrite drop_0|by left|right].
        rewrite elem_of_app. auto.
      * assert (a ∈ P) as HaP by set_solver.
        destruct (HP a HaP) as (_ & _ & Hch).
        destruct (Hch b Hb) as [?|[->|?]%elem_of_cons].
        -- left. set_solver.
        -- left. set_solver.
        -- right. rewrite elem_of_app. auto.
  - intros b Hb. by destruct (Hpu b Hb) as (_ & _ & ?).
  - etrans; [done|]. by eapply dict_size.
Qed.

(** the loop ends: a pop either processes a state for the first time, or
    at least follows one that did, and it pushes no more states than a dict
    has entries *)
Lemma process_loop_spec ci ks pth : ∀ u stack t P,
  unprocessed (length (heap t)) P ≤ u →
  pinv ci ks pth (heap t) P stack →
  ∃ h' P',
    (∃ K, K ≤ length stack + (2 * length (heap t) + 1) * u ∧
       ∀ steps fuel, K ≤ steps → deep_enough pth (heap t) fuel →
         process_loop steps fuel P stack t = (Ok tt, with_heap h' t)) ∧
    pinv ci ks pth h' P' [] ∧ same_shape (heap t) h' ∧
    P ⊆ P' ∧ (∀ a, a ∈ stack → a ∈ P').
Proof.
  induction u as [u IHu] using lt_wf_ind.
  induction stack as [|x rest IHs]; intros t P Hu Hp.
  { exists (heap t), P. rewrite with_heap_id. split_and!; try done.
    - exists 0. split; [lia|]. by intros [|steps] fuel _ _.
    - intros a Ha. by apply elem_of_nil in Ha. }
  destruct (pop_step _ _ _ _ _ _ _ Hp)
    as (h1 & pushed & HF1 & Hp1 & Hnew & Hsh1 & Hpl1).
  pose proof (same_shape_length _ _ Hsh1) as Hlen1.
  assert (x < length (heap t)) as Hxv.
  { destruct Hp as (_ & Hst & _). destruct (Hst x); [left|done]. }
  assert (∀ fuel, deep_enough pth (heap t) fuel → deep_enough pth h1 fuel)
    as Hde1.
  { intros fuel Hd a Ha. apply Hd. by rewrite <- Hlen1. }
  assert (∀ u', u' < u →
            (2 * length (heap t) + 1) * u' + (2 * length (heap t) + 1)
            ≤ (2 * length (heap t) + 1) * u) as Hmul.
  { intros u' Hu'. rewrite <- Nat.mul_succ_r. apply Nat.mul_le_mono_l. lia. }
  destruct (decide (x ∈ P)) as [HxP|HxP].
  - assert (P ∪ {[x]} = P) as HPx by set_solver. rewrite HPx in *.
    destruct pushed as [|y pushed].
    + destruct (IHs (with_heap h1 t) P)
        as (h' & P' & (K & HK & HKF) & Hp' & Hsh' & Hsub & Hin); simpl;
        [by rewrite Hlen1|done|].
      simpl in HK. rewrite Hlen1 in HK.
      exists h', P'. split_and!; try done.
      * exists (S K). split; [simpl; lia|].
        intros [|steps] fuel Hs Hf; [lia|].
        rewrite HF1 by done. simpl app. apply HKF; [lia|by apply Hde1].
      * by eapply same_shape_trans.
      * intros a [->|Ha]%elem_of_cons; auto.
    + destruct (pop_step _ _ _ _ _ _ (with_heap h1 t) Hp1)
        as (h2 & pushed2 & HF2 & Hp2 & Hnew2 & Hsh2 & Hpl2).
      simpl in Hp2, Hsh2, Hpl2.
      assert (y ∉ P) as HyP by (apply Hnew; left).
      assert (y < length h1) as Hyv.
      { destruct Hp1 as (_ & Hst & _). destruct (Hst y); [left|done]. }
      pose proof (same_shape_length _ _ Hsh2) as Hlen2.
      assert (unprocessed (length h2) (P ∪ {[y]}) < u) as Hlt.
      { eapply Nat.lt_le_trans; [|done]. rewrite Hlen2, Hlen1.
        apply unprocessed_lt; [lia|done]. }
      destruct (IHu (unprocessed (length h2) (P ∪ {[y]})) Hlt)
        with (stack := pushed2 ++ pushed ++ rest) (t := with_heap h2 t)
             (P := P ∪ {[y]})
        as (h' & P' & (K & HK & HKF) & Hp' & Hsh' & Hsub & Hin); simpl;
        [done|done|].
      simpl in HK. rewrite !length_app in HK. rewrite Hlen2, Hlen1 in HK.
      simpl in Hpl1. rewrite Hlen1 in Hpl2.
      rewrite Hlen2, Hlen1 in Hlt. specialize (Hmul _ Hlt).
      exists h', P'. split_and!; try done.
      * exists (S (S K)). split; [simpl; lia|].
        intros [|[|steps]] fuel Hs Hf; [lia|lia|].
        rewrite HF1 by done. simpl app. rewrite HF2 by by apply Hde1.
        apply HKF; [lia|]. intros a Ha. apply Hf.
        by rewrite <- Hlen1, <- Hlen2.
      * eapply same_shape_trans; [done|]. by eapply same_shape_trans.
      * set_solver.
      * intros a [->|Ha]%elem_of_cons; [set_solver|].
        apply Hin. rewrite !elem_of_app. auto.
  - assert (unprocessed (length h1) (P ∪ {[x]}) < u) as Hlt.
    { eapply Nat.lt_le_trans; [|done]. rewrite Hlen1.
      by apply unprocessed_lt. }
    destruct (IHu (unprocessed (length h1) (P ∪ {[x]})) Hlt)
      with (stack := pushed ++ rest) (t := with_heap h1 t) (P := P ∪ {[x]})
      as (h' & P' & (K & HK & HKF) & Hp' & Hsh' & Hsub & Hin); simpl;
      [done|done|].
    simpl in HK. rewrite length_app in HK. rewrite Hlen1 in HK.
    rewrite Hlen1 in Hlt. specialize (Hmul _ Hlt).
    exists h', P'. split_and!; try done.
    + exists (S K). split; [simpl; lia|].
      intros [|steps] fuel Hs Hf; [lia|].
      rewrite HF1 by done. apply HKF; [lia|by apply Hde1].
    + by eapply same_shape_trans.
    + set_solver.
    + intros a [->|Ha]%elem_of_cons; [set_solver|].
      apply Hin. rewrite elem_of_app. auto.
Qed.

(** ** [finalize] *)

(** the automaton is complete: every state has its suffix link *)
Definition final_inv (ci : bool) (ks : list string) (pth : ref → list ascii)
    (h : list State) : Prop :=
  tinv ci ks pth h ∧ ∀ a, a < length h → finished h a.

Definition finalized_with (h : list State) (t : KeywordTree) : KeywordTree :=
  {| heap := h; _counter := _counter t; _finalized := true;
     _case_insensitive := _case_insensitive t |}.

Lemma pinv_all ci ks pth h P :
  pinv ci ks pth h P [] → 0 ∈ P → ∀ a, a < length h → a ∈ P.
Proof.
  intros (Ht & _ & HP) H0. pose proof Ht as (Hinv & _).
  induction a as [a IH] using lt_wf_ind. intros Ha.
  destruct (decide (a = 0)) as [->|Hne]; [done|].
  destruct (auto_inv_node _ _ _ _ _ Hinv Ha Hne)
    as (st & p & c & _ & _ & _ & Hp & _ & Hlt & _).
  assert (p ∈ P) as HpP by (apply IH; lia).
  destruct (HP p HpP) as (_ & _ & Hch).
  destruct (Hch a Hp) as [?|Hin]; [done|]. by apply elem_of_nil in Hin.
Qed.

Lemma unprocessed_le n P : unprocessed n P ≤ n.
Proof.
  unfold unprocessed.
  etrans; [apply (subseteq_size _ (set_seq 0 n : gset nat)); set_solver|].
  by rewrite size_set_seq.
Qed.

Lemma deep_enough_length ci ks pth h fuel :
  auto_inv ci ks pth h → length h ≤ fuel → deep_enough pth h fuel.
Proof.
  intros Hinv Hf a Ha. pose proof (auto_inv_depth _ _ _ _ _ Hinv Ha). lia.
Qed.

(** [finalize] returns normally when it has a frame for each symbol of the
    longest path *)
Lemma finalize_frames ks pth t :
  build_inv ks pth t →
  ∃ h',
    (∀ fuel, deep_enough pth (heap t) fuel →
       finalize fuel t = (Ok tt, finalized_with h' t)) ∧
    final_inv (_case_insensitive t) ks pth h' ∧
    same_shape (heap t) h'.
Proof.
  intros (Hinv & Hnone & Hcnt & Hfin).
  set (ci := _case_insensitive t) in *.
  destruct (ai_root _ _ _ _ Hinv) as (_ & st0 & Hst0 & _).
  assert (0 < length (heap t)) as H0v by by eapply lookup_lt_Some.
  set (h0 := link (heap t) 0 0).
  assert (same_shape (heap t) h0) as Hsh0 by apply link_shape.
  assert (∀ a, lss_of h0 a = if decide (a = 0) then Some 0 else None) as Hlss0.
  { intros a. unfold h0. rewrite link_lss_of by done.
    destruct (decide (a = 0)); [done|]. apply Hnone. }
  assert (tinv ci ks pth h0) as Ht0.
  { split_and!.
    - apply link_inv; try done.
    - by rewrite Hlss0.
    - intros a j Hne. rewrite Hlss0. by rewrite decide_False. }
  assert (pinv ci ks pth h0 ∅ [0]) as Hp0.
  { split_and!; [done| |set_solver].
    intros a ->%list_elem_of_singleton.
    rewrite (same_shape_length _ _ Hsh0). split; [done|].
    unfold finished. rewrite Hlss0. by eexists. }
  destruct (process_loop_spec ci ks pth _ [0] (with_heap h0 t) ∅
              (Nat.le_refl _) Hp0)
    as (h' & P' & (K & HK & HKF) & Hp' & Hsh' & _ & Hin).
  simpl in Hsh', HK, HKF.
  pose proof (same_shape_length _ _ Hsh0) as Hlen0.
  assert (K ≤ S (length h0 * (2 * length h0 + 1))) as HKb.
  { pose proof (unprocessed_le (length h0) ∅) as Hu.
    apply (Nat.mul_le_mono_l _ _ (2 * length h0 + 1)) in Hu. lia. }
  exists h'. split_and!.
  - intros fuel Hfuel. unfold finalize. rewrite Hfin.
    rewrite (bind_ok _ _ _ _ _ (modify_link _ _ _ _ Hst0)).
    assert (deep_enough pth h0 fuel) as Hde.
    { intros a Ha. apply Hfuel. by rewrite <- Hlen0. }
    rewrite (bind_ok (search_lss_for_children fuel _zero_state) _ _ _ _
               (HKF _ fuel HKb Hde)).
    done.
  - split; [by destruct Hp'|].
    intros a Ha. destruct Hp' as (Ht' & Hst' & HP').
    apply HP'. eapply pinv_all; [by split_and!| |done].
    apply Hin. left.
  - by eapply same_shape_trans.
Qed.

Lemma finalize_spec ks pth t :
  build_inv ks pth t →
  ∃ h',
    (∃ F, ∀ fuel, F ≤ fuel → finalize fuel t = (Ok tt, finalized_with h' t)) ∧
    final_inv (_case_insensitive t) ks pth h' ∧
    same_shape (heap t) h'.
Proof.
  intros Hb. destruct (finalize_frames ks pth t Hb) as (h' & HF & Hfi & Hsh).
  exists h'. split_and!; try done.
  exists (length (heap t)). intros fuel Hfuel. apply HF.
  destruct Hb as (Hinv & _). by eapply deep_enough_length.
Qed.

(** the automaton built from [ks] and finalized *)
Lemma automaton_spec ci ks :
  ∃ pth h',
    (∃ F, ∀ fuel, F ≤ fuel →
       finalize fuel (built ci ks) =
       (Ok tt, finalized_with h' (built ci ks))) ∧
    final_inv ci ks pth h' ∧
    same_shape (heap (built ci ks)) h'.
Proof.
  destruct (built_spec ci ks) as (_ & Hci & pth & Hb).
  destruct (finalize_spec ks pth _ Hb) as (h' & HF & Hfi & Hsh).
  rewrite Hci in Hfi. by exists pth, h'.
Qed.

(** ** [search_all] *)

(** the keyword [k], as the tree stores it, occurs in the text [w] and ends
    at the index [i] *)
Definition occurs_at (ci : bool) (k : string) (w : list ascii) (i : nat)
    : Prop :=
  i < length w ∧ normk ci k ≠ [] ∧ normk ci k `suffix_of` take (S i) w.

(** the order of the reports: by ending position, and the deeper state
    first among those reported at the same position; the depth of the state
    that reports a keyword is the length of the keyword as the tree stores
    it *)
Definition before (ci : bool) (x y : nat * string) : Prop :=
  x.1 < y.1 ∨
  (x.1 = y.1 ∧ length (normk ci y.2) < length (normk ci x.2)).

(** keywords that are suffixes of [w], each shorter than the one before and
    all shorter than [bound] *)
Fixpoint desc (ci : bool) (ks : list string) (w : list ascii) (bound : nat)
    (kl : list string) : Prop :=
  match kl with
  | [] => True
  | k :: kl' =>
      last_form ci ks k ∧ normk ci k `suffix_of` w ∧ normk ci k ≠ [] ∧
      length (normk ci k) < bound ∧ desc ci ks w (length (normk ci k)) kl'
  end.

Lemma desc_mono ci ks w w' b b' kl :
  w `suffix_of` w' → b ≤ b' → desc ci ks w b kl → desc ci ks w' b' kl.
Proof.
  intros Hw. revert b b'. induction kl as [|k kl IH]; intros b b' Hb; [done|].
  simpl. intros (? & ? & ? & ? & ?). split_and!; try done.
  - by etrans.
  - lia.
  - by eapply IH.
Qed.

Lemma desc_elem ci ks w b kl k :
  desc ci ks w b kl → k ∈ kl →
  last_form ci ks k ∧ normk ci k `suffix_of` w ∧ normk ci k ≠ [] ∧
  length (normk ci k) < b.
Proof.
  revert b. induction kl as [|k' kl IH]; intros b Hd Hk.
  { by apply elem_of_nil in Hk. }
  destruct Hd as (? & ? & ? & ? & Hd).
  apply elem_of_cons in Hk as [->|Hk]; [done|].
  destruct (IH _ Hd Hk) as (? & ? & ? & ?). split_and!; try done. lia.
Qed.

Lemma desc_sorted ci ks w b kl (i : nat) :
  desc ci ks w b kl → StronglySorted (before ci) ((λ k, (i, k)) <$> kl).
Proof.
  revert b. induction kl as [|k kl IH]; intros b Hd; simpl; [constructor|].
  destruct Hd as (_ & _ & _ & _ & Hd). constructor; [by eapply IH|].
  apply Forall_forall. intros x [k' [-> Hk']]%list_elem_of_fmap.
  right. simpl. split; [done|].
  by destruct (desc_elem _ _ _ _ _ _ Hd Hk') as (_ & _ & _ & ?).
Qed.

Lemma emit_loop_zero fuel ret_ t :
  emit_loop fuel (Some 0) ret_ t = (Ok ret_, t).
Proof. by destruct fuel. Qed.

Lemma emit_loop_step fuel a ret_ t st :
  a ≠ 0 → heap t !! a = Some st →
  emit_loop (S fuel) (Some a) ret_ t =
  emit_loop fuel (longest_strict_suffix st)
    (if success st then ret_ ++ [matched_keyword st] else ret_) t.
Proof.
  intros Ha Hst. simpl. rewrite decide_False by (intros [= ->]; done).
  by rewrite (bind_ok _ _ _ _ _ (deref_ok _ _ _ Hst)).
Qed.

Lemma emit_loop_spec ci ks pth t :
  final_inv ci ks pth (heap t) →
  ∀ n a, length (pth a) ≤ n → a < length (heap t) →
  ∃ kl,
    (∃ F, ∀ fuel ret_, F ≤ fuel →
       emit_loop fuel (Some a) ret_ t = (Ok (ret_ ++ (Some <$> kl)), t)) ∧
    desc ci ks (pth a) (S (length (pth a))) kl.
Proof.
  intros ((Hinv & H0 & Hdone) & Hall).
  induction n as [n IH] using lt_wf_ind. intros a Hn Ha.
  destruct (decide (a = 0)) as [->|Hne].
  { exists []. split; [|done]. exists 0. intros fuel ret_ _.
    by rewrite emit_loop_zero, app_nil_r. }
  destruct (Hall a Ha) as [j Hj].
  destruct (ai_lss _ _ _ _ Hinv _ _ Hj) as (Hjv & Hjs).
  rewrite decide_False in Hjs by done. destruct Hjs as [Hsuf Hlen].
  unfold lss_of in Hj. destruct (heap t !! a) as [st|] eqn:Hst; [|done].
  simpl in Hj.
  destruct (IH (length (pth j)) ltac:(lia) j) as (kl & [F HF] & Hd);
    [done|done|].
  assert (desc ci ks (pth a) (length (pth a)) kl) as Hd'.
  { eapply desc_mono; [done| |done]. lia. }
  destruct (success st) eqn:Hsucc.
  - destruct (ai_match _ _ _ _ Hinv _ _ Hst Hsucc) as (k & Hk & Hin & Hnk & _).
    exists (k :: kl). split.
    + exists (S F). intros [|fuel] ret_ Hf; [lia|].
      rewrite (emit_loop_step _ _ _ _ _ Hne Hst), Hj, Hsucc, Hk.
      rewrite HF by lia. by rewrite <- app_assoc.
    + simpl. rewrite Hnk. split_and!; try done; [|lia].
      intros Hnil. rewrite Hnil in Hlen. simpl in Hlen. lia.
  - exists kl. split.
    + exists (S F). intros [|fuel] ret_ Hf; [lia|].
      rewrite (emit_loop_step _ _ _ _ _ Hne Hst), Hj, Hsucc.
      apply HF. lia.
    + eapply desc_mono; [done| |done]. lia.
Qed.

Lemma step_spec ci ks pth h zero cur sc c pre :
  auto_inv ci ks pth h → h !! 0 = Some zero → h !! cur = Some sc →
  pth cur `suffix_of` pre →
  step zero sc c < length h ∧ pth (step zero sc c) `suffix_of` pre ++ [c].
Proof.
  intros Hinv Hz Hc Hsuf. unfold step.
  destruct (ai_root _ _ _ _ Hinv) as (Hp0 & _).
  destruct (dict_get c (transitions sc)) as [j|] eqn:Hj; simpl.
  { apply dict_get_elem in Hj. rewrite <- (entries_lookup _ _ _ Hc) in Hj.
    destruct (ai_tr _ _ _ _ Hinv _ _ _ Hj) as (? & _ & ?).
    split; [done|]. etrans; [done|]. by apply suffix_app. }
  destruct (dict_get c (transitions zero)) as [j|] eqn:Hj'; simpl.
  { apply dict_get_elem in Hj'. rewrite <- (entries_lookup _ _ _ Hz) in Hj'.
    destruct (ai_tr _ _ _ _ Hinv _ _ _ Hj') as (? & _ & Hs).
    split; [done|]. rewrite Hp0 in Hs. etrans; [done|].
    by apply suffix_app_r. }
  split; [by eapply lookup_lt_Some|]. unfold _zero_state. rewrite Hp0.
  apply suffix_nil.
Qed.

Lemma scan_loop_spec ci ks pth t :
  final_inv ci ks pth (heap t) →
  ∀ text pre cur ret_, cur < length (heap t) → pth cur `suffix_of` pre →
  ∃ occ,
    (∃ F, ∀ fuel, F ≤ fuel →
       scan_loop fuel text cur ret_ t =
       (Ok (ret_ ++ ((λ x, Some x.2) <$> occ)), t)) ∧
    (∀ x, x ∈ occ →
       last_form ci ks x.2 ∧ length pre ≤ x.1 ∧
       occurs_at ci x.2 (pre ++ text) x.1) ∧
    StronglySorted (before ci) occ.
Proof.
  intros Hfin. pose proof Hfin as ((Hinv & H0 & Hdone) & Hall).
  destruct (ai_root _ _ _ _ Hinv) as (_ & zero & Hzero & _).
  induction text as [|c text IH]; intros pre cur ret_ Hcur Hsuf.
  { exists []. split_and!.
    - exists 0. intros fuel _. simpl. unfold ret. by rewrite app_nil_r.
    - intros x Hx. by apply elem_of_nil in Hx.
    - constructor. }
  apply lookup_lt_is_Some_2 in Hcur as [sc Hsc].
  destruct (step_spec _ _ _ _ _ _ _ c _ Hinv Hzero Hsc Hsuf) as [Hv Hs].
  set (cur' := step zero sc c) in *.
  destruct (emit_loop_spec _ _ _ _ Hfin (length (pth cur')) cur')
    as (kl & [F1 HF1] & Hd); [done|done|].
  destruct (IH (pre ++ [c]) cur' (ret_ ++ (Some <$> kl)) Hv Hs)
    as (occ & [F2 HF2] & Hocc & Hsorted).
  exists (((λ k, (length pre, k)) <$> kl) ++ occ). split_and!.
  - exists (max F1 F2). intros fuel Hf. simpl.
    rewrite (bind_ok _ _ _ _ _ (deref_ok _ _ _ Hsc)).
    rewrite (bind_ok _ _ _ _ _ (deref_ok _ _ _ Hzero)).
    fold cur'. rewrite (bind_ok _ _ _ _ _ (HF1 fuel ret_ ltac:(lia))).
    rewrite HF2 by lia. rewrite fmap_app, <- list_fmap_compose.
    by rewrite app_assoc.
  - intros x [Hx|Hx]%elem_of_app.
    + apply list_elem_of_fmap in Hx as (k & -> & Hk). simpl.
      destruct (desc_elem _ _ _ _ _ _ Hd Hk) as (? & Hks & ? & _).
      split_and!; try done. split_and!; try done.
      * rewrite length_app. simpl. lia.
      * rewrite (cons_middle c pre text), app_assoc.
        rewrite take_app_length' by (rewrite length_app; simpl; lia).
        by etrans.
    + destruct (Hocc x Hx) as (? & Hle & Hoc).
      rewrite length_app in Hle. simpl in Hle.
      rewrite <- app_assoc in Hoc. split_and!; [done|lia|done].
  - apply StronglySorted_app_2; [|by eapply desc_sorted|done].
    intros x1 x2 (k & -> & Hk)%list_elem_of_fmap Hx2.
    destruct (Hocc x2 Hx2) as (_ & Hle & _).
    rewrite length_app in Hle. simpl in Hle. left. simpl. lia.
Qed.

(** ** The finalized automaton *)

Lemma automaton_final ci ks :
  ∃ pth t,
    (∃ F, ∀ fuel, F ≤ fuel →
       automaton fuel ci ks = t ∧ finalize fuel (built ci ks) = (Ok tt, t)) ∧
    _finalized t = true ∧ _case_insensitive t = ci ∧
    final_inv ci ks pth (heap t).
Proof.
  destruct (automaton_spec ci ks) as (pth & h' & [F HF] & Hfin & _).
  destruct (built_spec ci ks) as (_ & Hci & _).
  exists pth, (finalized_with h' (built ci ks)). split_and!; try done.
  exists F. intros fuel Hf. unfold automaton. by rewrite HF.
Qed.

Lemma search_all_spec ci ks pth t text :
  _finalized t = true → _case_insensitive t = ci →
  final_inv ci ks pth (heap t) →
  ∃ occ,
    (∃ F, ∀ fuel, F ≤ fuel →
       search_all fuel text t = (Ok ((λ x, Some x.2) <$> occ), t)) ∧
    (∀ x, x ∈ occ →
       last_form ci ks x.2 ∧ occurs_at ci x.2 (normk ci text) x.1) ∧
    StronglySorted (before ci) occ.
Proof.
  intros Hf Hci Hfin. pose proof Hfin as ((Hinv & _) & _).
  destruct (ai_root _ _ _ _ Hinv) as (Hp0 & st0 & Hst0 & _).
  destruct (scan_loop_spec _ _ _ _ Hfin (normk ci text) [] 0 [])
    as (occ & [F HF] & Hocc & Hsorted).
  { by eapply lookup_lt_Some. }
  { rewrite Hp0. apply suffix_nil. }
  exists occ. split_and!; try done.
  - exists F. intros fuel Hfuel. unfold search_all. rewrite Hf, Hci. simpl.
    by apply HF.
  - intros x Hx. by destruct (Hocc x Hx) as (? & _ & ?).
Qed.

(** [finalize] sets the flag, and a tree under construction does not have
    it *)
Lemma finalize_sets_flag fuel t t' :
  finalize fuel t = (Ok tt, t') → _finalized t' = true.
Proof.
  unfold finalize. destruct (_finalized t); [done|]. unfold bind.
  destruct (modify _ _ t) as [[[]| |] t1]; try done.
  destruct (search_lss_for_children _ _ t1) as [[[]| |] t2]; try done.
  by intros [= <-].
Qed.

Lemma built_not_finalized ci ks : _finalized (built ci ks) = false.
Proof. by destruct (built_spec ci ks) as (_ & _ & pth & _ & _ & _ & ?). Qed.

(** * The outcomes of [finalize]

    With fewer frames a run is the same run cut short: it has the same
    outcome, or RecursionError. Whatever the outcome, the methods of the
    finalize phase touch the heap only. *)

(** the outcome [r'] with fewer frames, against the outcome [r] *)
Definition cut_short {A} (r' r : res A * KeywordTree) : Prop :=
  r' = r ∨ ∃ t', r' = (Raise RecursionError, t').

Lemma cut_short_refl {A} (r : res A * KeywordTree) : cut_short r r.
Proof. by left. Qed.

Lemma bind_cut_short {A B} (m m' : M A) (k k' : A → M B) t :
  cut_short (m' t) (m t) →
  (∀ a t1, m t = (Ok a, t1) → cut_short (k' a t1) (k a t1)) →
  cut_short (bind m' k' t) (bind m k t).
Proof.
  unfold bind. intros [Hm|[t' Hm]] Hk; rewrite Hm.
  - destruct (m t) as [[a|e|] t1] eqn:E; [by apply Hk|by left..].
  - right. by exists t'.
Qed.

Lemma search_lss_cut_short : ∀ fuel fuel' s t,
  fuel ≤ fuel' → cut_short (search_lss fuel s t) (search_lss fuel' s t).
Proof.
  induction fuel as [|fuel IH]; intros fuel' s t Hle.
  { right. by exists t. }
  destruct fuel' as [|fuel']; [lia|]. cbn [search_lss].
  apply bind_cut_short; [apply cut_short_refl|]. intros st t1 _.
  apply bind_cut_short; [apply cut_short_refl|]. intros pa t2 _.
  apply bind_cut_short; [apply cut_short_refl|]. intros ? t3 _.
  apply bind_cut_short; [apply cut_short_refl|]. intros st' t4 _.
  case_decide; [apply cut_short_refl|].
  apply bind_cut_short; [apply cut_short_refl|]. intros sf t5 _.
  apply bind_cut_short; [|intros; apply cut_short_refl].
  destruct (longest_strict_suffix sf); [apply cut_short_refl|].
  destruct (longest_strict_suffix st'); [|apply cut_short_refl].
  apply IH. lia.
Qed.

Lemma children_loop_cut_short fuel fuel' size0 x P : ∀ n pos stack t,
  fuel ≤ fuel' →
  cut_short (children_loop fuel n pos size0 x P stack t)
    (children_loop fuel' n pos size0 x P stack t).
Proof.
  induction n as [|n IH]; intros pos stack t Hle; [apply cut_short_refl|].
  cbn [children_loop].
  apply bind_cut_short; [apply cut_short_refl|]. intros st t1 _.
  apply bind_cut_short; [apply cut_short_refl|].
  intros [[c child]|] t2 _; [|apply cut_short_refl].
  apply bind_cut_short; [apply cut_short_refl|]. intros ch t3 _.
  case_decide; [|by apply IH].
  apply bind_cut_short; [by apply search_lss_cut_short|].
  intros ? t4 _. by apply IH.
Qed.

Lemma process_loop_cut_short fuel fuel' : ∀ steps P stack t,
  fuel ≤ fuel' →
  cut_short (process_loop steps fuel P stack t)
    (process_loop steps fuel' P stack t).
Proof.
  induction steps as [|steps IH]; intros P [|x stack] t Hf;
    try apply cut_short_refl.
  cbn [process_loop].
  apply bind_cut_short; [apply cut_short_refl|]. intros st t1 _.
  apply bind_cut_short; [by apply children_loop_cut_short|].
  intros stack' t2 _. by apply IH.
Qed.

Lemma finalize_cut_short fuel fuel' t :
  fuel ≤ fuel' → cut_short (finalize fuel t) (finalize fuel' t).
Proof.
  intros Hle. unfold finalize.
  destruct (_finalized t); [apply cut_short_refl|].
  apply bind_cut_short; [apply cut_short_refl|]. intros ? t1 _.
  apply bind_cut_short; [|intros; apply cut_short_refl].
  unfold search_lss_for_children. by apply process_loop_cut_short.
Qed.

(** a method that changes nothing but the heap *)
Definition heap_only {A} (m : M A) : Prop :=
  ∀ t, ∃ h, (m t).2 = with_heap h t.

Lemma heap_only_id {A} (m : M A) : (∀ t, (m t).2 = t) → heap_only m.
Proof. intros H t. exists (heap t). by rewrite H, with_heap_id. Qed.

Lemma heap_only_bind {A B} (m : M A) (k : A → M B) :
  heap_only m → (∀ a, heap_only (k a)) → heap_only (bind m k).
Proof.
  intros Hm Hk t. unfold bind. destruct (Hm t) as [h Hh].
  destruct (m t) as [[a|e|] t1]; simpl in Hh; rewrite Hh; [|by exists h..].
  destruct (Hk a (with_heap h t)) as [h' Hh']. exists h'.
  by rewrite Hh', with_heap_twice.
Qed.

Lemma heap_only_deref r : heap_only (deref r).
Proof. apply heap_only_id. intros t. unfold deref. by destruct (heap t !! r). Qed.

Lemma heap_only_deref_opt r : heap_only (deref_opt r).
Proof. destruct r; [apply heap_only_deref|by apply heap_only_id]. Qed.

Lemma heap_only_modify r f : heap_only (modify r f).
Proof.
  intros t. unfold modify. destruct (heap t !! r); [by eexists|].
  exists (heap t). by rewrite with_heap_id.
Qed.

Lemma heap_only_dict_next size0 pos d : heap_only (dict_next size0 pos d).
Proof. apply heap_only_id. intros t. unfold dict_next. by case_decide. Qed.

Lemma heap_only_lss_loop s : ∀ fuel tr, heap_only (lss_loop fuel s tr).
Proof.
  induction fuel as [|fuel IH]; intros tr; [by apply heap_only_id|].
  cbn [lss_loop].
  apply heap_only_bind; [apply heap_only_deref|]. intros st.
  apply heap_only_bind; [apply heap_only_deref_opt|]. intros trs.
  destruct (dict_find (symbol st) (transitions trs)); repeat case_decide;
    try apply heap_only_modify; apply IH.
Qed.

Lemma heap_only_suffix_search s tr : heap_only (suffix_search s tr).
Proof. intros t. apply heap_only_lss_loop. Qed.

Lemma heap_only_merge_loop size0 j s : ∀ n pos,
  heap_only (merge_loop n pos size0 j s).
Proof.
  induction n as [|n IH]; intros pos; cbn [merge_loop];
    (apply heap_only_bind; [apply heap_only_deref_opt|]; intros sf;
     apply heap_only_bind; [apply heap_only_dict_next|]; intros [[c nx]|];
     try by apply heap_only_id).
  apply heap_only_bind; [apply heap_only_deref|]. intros st.
  apply heap_only_bind; [|intros ?; apply IH].
  destruct (dict_get c (transitions st));
    [by apply heap_only_id|apply heap_only_modify].
Qed.

Lemma heap_only_search_lss : ∀ fuel s, heap_only (search_lss fuel s).
Proof.
  induction fuel as [|fuel IH]; intros s; [by apply heap_only_id|].
  cbn [search_lss].
  apply heap_only_bind; [apply heap_only_deref|]. intros st.
  apply heap_only_bind; [apply heap_only_deref_opt|]. intros pa.
  apply heap_only_bind; [apply heap_only_suffix_search|]. intros ?.
  apply heap_only_bind; [apply heap_only_deref|]. intros st'.
  case_decide; [by apply heap_only_id|].
  apply heap_only_bind; [apply heap_only_deref_opt|]. intros sf.
  apply heap_only_bind.
  - destruct (longest_strict_suffix sf); [by apply heap_only_id|].
    destruct (longest_strict_suffix st'); [apply IH|by apply heap_only_id].
  - intros ?. apply heap_only_bind; [apply heap_only_deref_opt|]. intros sf'.
    destruct (longest_strict_suffix st');
      [apply heap_only_merge_loop|by apply heap_only_id].
Qed.

Lemma heap_only_children_loop fuel size0 x P : ∀ n pos stack,
  heap_only (children_loop fuel n pos size0 x P stack).
Proof.
  induction n as [|n IH]; intros pos stack; cbn [children_loop];
    (apply heap_only_bind; [apply heap_only_deref|]; intros st;
     apply heap_only_bind; [apply heap_only_dict_next|]; intros [[c child]|];
     try by apply heap_only_id).
  apply heap_only_bind; [apply heap_only_deref|]. intros ch.
  case_decide; [|apply IH].
  apply heap_only_bind; [apply heap_only_search_lss|]. intros ?. apply IH.
Qed.

Lemma heap_only_process_loop fuel : ∀ steps P stack,
  heap_only (process_loop steps fuel P stack).
Proof.
  induction steps as [|steps IH]; intros P [|x stack];
    try by apply heap_only_id.
  cbn [process_loop].
  apply heap_only_bind; [apply heap_only_deref|]. intros st.
  apply heap_only_bind; [apply heap_only_children_loop|]. intros stack'.
  apply IH.
Qed.

(** [finalize] sets the flag when it returns normally, and only then *)
Lemma finalize_flag fuel t r t' :
  finalize fuel t = (r, t') →
  _finalized t' = match r with Ok _ => true | _ => _finalized t end.
Proof.
  unfold finalize. destruct (_finalized t) eqn:Hf.
  { intros [= <- <-]. done. }
  assert (heap_only (modify _zero_state (with_suffix (Some _zero_state)) ;;
                     search_lss_for_children fuel _zero_state)) as Hh.
  { apply heap_only_bind; [apply heap_only_modify|]. intros ? t1.
    apply heap_only_process_loop. }
  specialize (Hh t). destruct Hh as [h Hh]. revert Hh.
  unfold bind.
  destruct (modify _ _ t) as [[[]|e|] t1]; simpl.
  - destruct (search_lss_for_children _ _ t1) as [[[]|e|] t2]; simpl;
      intros -> [= <- <-]; done.
  - intros -> [= <- <-]. done.
  - intros -> [= <- <-]. done.
Qed.

(** * The claims *)

(** ** C3: the order of the phases *)

(** C3. Whatever the automaton holds: once the finalized flag is set, [add]
    and [finalize] raise the error of the phase (ValueError, the StateError
    of the specification), and while it is not set [search_all] raises it;
    in each case the automaton is returned as it was. *)
Theorem phase_ordering (h : list State) (counter : nat) (ci : bool)
    (ks : list string) (k text : string) (fuel : nat) :
  let finalized := mkTree h counter true ci in
  let building := mkTree h counter false ci in
  (add k finalized = (Raise ValueError, finalized) ∧
   finalize fuel finalized = (Raise ValueError, finalized) ∧
   search_all fuel text building = (Raise ValueError, building)) ∧
  (* and so along the life of an automaton built from [ks] *)
  search_all fuel text (built ci ks) = (Raise ValueError, built ci ks) ∧
  ∃ F, ∀ n,
    let a := automaton (F + n) ci ks in
    finalize (F + n) (built ci ks) = (Ok tt, a) ∧
    add k a = (Raise ValueError, a) ∧
    finalize fuel a = (Raise ValueError, a).
Proof.
  split; [done|]. split.
  - unfold search_all. by rewrite built_not_finalized.
  - destruct (automaton_final ci ks) as (pth & t & [F HF] & Hf & _).
    exists F. intros n. destruct (HF (F + n) ltac:(lia)) as [Ha Hrun].
    simpl. rewrite Ha. split; [done|].
    unfold add, finalize. by rewrite Hf.
Qed.

(** ** C5: case sensitivity *)

(** C5. Case-insensitive, the keyword "Cat" is reported in its original
    form for the text "the cat sat", and the report comes with the symbol
    at index 6, where "cat" ends: the text up to index 5 gives nothing.
    Case-sensitive, nothing is reported. *)
Theorem case_sensitivity :
  fst (search_all 20 "the cat sat" (automaton 20 true ["Cat"]))
    = Ok [Some "Cat"] ∧
  fst (search_all 20 "the ca" (automaton 20 true ["Cat"])) = Ok [] ∧
  fst (search_all 20 "the cat" (automaton 20 true ["Cat"]))
    = Ok [Some "Cat"] ∧
  fst (search_all 20 "the cat sat" (automaton 20 false ["Cat"])) = Ok [].
Proof. by vm_compute. Qed.

(** accented letters: the keyword E-acute t e, stored as e-acute t e, is
    found in the text e-acute T E when the automaton is case-insensitive;
    the multiplication sign (215) and the sharp s (223) have no other
    case *)
Lemma accented_example :
  let k := String (ascii_of_nat 201) "te" in
  let text := String (ascii_of_nat 233) "TE" in
  lower k = String (ascii_of_nat 233) "te" ∧ lower text = lower k ∧
  (search_all 20 text (automaton 20 true [k])).1 = Ok [Some k] ∧
  (search_all 20 text (automaton 20 false [k])).1 = Ok [] ∧
  symbol <$> heap (built true [k]) !! 1 = Some (Some (ascii_of_nat 233)) ∧
  lower (String (ascii_of_nat 215) (String (ascii_of_nat 223) ""))
    = String (ascii_of_nat 215) (String (ascii_of_nat 223) "").
Proof. split_and!; by vm_compute. Qed.

(** ** C1: the classic example *)

(** the words of [text] that end at the index [i] *)
Definition substrings_ending_at (text : list ascii) (i : nat)
    : list (list ascii) :=
  (λ j, drop j (take (S i) text)) <$> seq 0 (S i).

(** every keyword tested for equality against every substring that ends at
    the index [i] *)
Definition brute_force (ks : list string) (text : string) (i : nat)
    : list string :=
  sub ← substrings_ending_at (chars text) i;
  filter (λ k, chars k = sub) ks.

(** C1. For the keywords a, ab, bab, bc, bca, c, caa and the text "abccab",
    the result of [search_all] is made of one group of reports for each
    index of the text, in order, and the group of an index is, as a
    multiset, what the brute-force check finds there. *)
Theorem suffix_chain_example :
  let ks := ["a"; "ab"; "bab"; "bc"; "bca"; "c"; "caa"] in
  ∃ groups,
    fst (search_all 20 "abccab" (automaton 20 false ks))
      = Ok (concat groups) ∧
    Forall2 (λ g i, g ≡ₚ Some <$> brute_force ks "abccab" i)
      groups (seq 0 6).
Proof.
  exists [[Some "a"]; [Some "ab"]; [Some "bc"; Some "c"]; [Some "c"];
          [Some "a"]; [Some "ab"]].
  split; [by vm_compute|].
  repeat constructor; by vm_compute.
Qed.

(** ** C4: no match *)

(** the keyword [k], as the tree stores it, is not empty and occurs in the
    text *)
Definition occurs (ci : bool) (k text : string) : bool :=
  bool_decide (normk ci k ≠ []) &&
  existsb
    (λ i, bool_decide (normk ci k `suffix_of` take (S i) (normk ci text)))
    (seq 0 (length (normk ci text))).

Lemma occurs_at_occurs ci k text i :
  occurs_at ci k (normk ci text) i → occurs ci k text = true.
Proof.
  intros (Hi & Hne & Hsuf). unfold occurs.
  apply andb_true_iff. split; [by apply bool_decide_eq_true|].
  apply existsb_exists. exists i. split.
  - apply in_seq. lia.
  - by apply bool_decide_eq_true.
Qed.

(** C4. When none of the keywords added occurs in the text (the empty
    keyword, which [add] ignores, set aside), [search_all] on the finalized
    automaton returns the empty list, a list and not None. A keyword
    occurs as the automaton reads it: as it is when the automaton is
    case-sensitive, and else its lower case in the lower case of the
    text. *)
Theorem no_match_empty (ci : bool) (ks : list string) (text : string) :
  forallb (λ k, negb (occurs ci k text)) ks = true →
  ∃ F, ∀ n,
    search_all (F + n) text (automaton (F + n) ci ks)
    = (Ok [], automaton (F + n) ci ks).
Proof.
  intros Hno.
  destruct (automaton_final ci ks) as (pth & t & [F1 HF1] & Hf & Hci & Hfin).
  destruct (search_all_spec ci ks pth t text Hf Hci Hfin)
    as (occ & [F2 HF2] & Hocc & _).
  destruct occ as [|x occ].
  - exists (max F1 F2). intros n.
    destruct (HF1 (max F1 F2 + n) ltac:(lia)) as [-> _].
    apply HF2. lia.
  - destruct (Hocc x) as [Hl Ho]; [left|].
    apply last_form_elem in Hl. apply occurs_at_occurs in Ho.
    rewrite forallb_forall in Hno. apply list_elem_of_In in Hl.
    apply Hno in Hl. rewrite Ho in Hl. done.
Qed.

(** the baseline of the specification: keywords {"abc"}, text "xyz" *)
Lemma no_match_baseline :
  forallb (λ k, negb (occurs false k "xyz")) ["abc"] = true ∧
  (∃ F, ∀ n,
     search_all (F + n) "xyz" (automaton (F + n) false ["abc"])
     = (Ok [], automaton (F + n) false ["abc"])) ∧
  fst (search_all 20 "xyz" (automaton 20 false ["abc"])) = Ok [].
Proof.
  split; [reflexivity|].
  split; [apply (no_match_empty false ["abc"] "xyz"); reflexivity|].
  vm_compute. reflexivity.
Defined.

(** ** C6: the order of the reports *)

(** C6. The result of [search_all] on the finalized automaton is a list of
    occurrences, each keyword ending in the text at the index that goes
    with it, in the order [before]: by ending index, and among the keywords
    that end at one index the deeper state first, that is, the keyword
    whose stored form is the longer. *)
Theorem search_all_order (ci : bool) (ks : list string) (text : string) :
  ∃ F occ, ∀ n,
    search_all (F + n) text (automaton (F + n) ci ks)
    = (Ok ((λ x, Some x.2) <$> occ), automaton (F + n) ci ks) ∧
    Forall (λ x, x.2 ∈ ks ∧ occurs_at ci x.2 (normk ci text) x.1) occ ∧
    StronglySorted (before ci) occ.
Proof.
  destruct (automaton_final ci ks) as (pth & t & [F1 HF1] & Hf & Hci & Hfin).
  destruct (search_all_spec ci ks pth t text Hf Hci Hfin)
    as (occ & [F2 HF2] & Hocc & Hsorted).
  exists (max F1 F2), occ. intros n.
  destruct (HF1 (max F1 F2 + n) ltac:(lia)) as [-> _].
  split_and!; [apply HF2; lia| |done].
  apply Forall_forall. intros x Hx. destruct (Hocc x Hx) as [Hl Ho].
  split; [by eapply last_form_elem|done].
Qed.

(** ** C8: the completion of the transitions *)

(** for the state [s] of suffix [suf] and the symbol [c]: the entry of the
    suffix is the entry of [s], unless [s] has a child for [c] *)
Definition completed_at (h : list State) (s suf : ref) (c : ascii) : Prop :=
  ∀ t, dict_get c (entries h suf) = Some t →
    (∀ t', dict_get c (entries h s) = Some t' → parent_of h t' ≠ Some s) →
    dict_get c (entries h s) = Some t.

(** C8 as stated fails: with the keywords "a" and "b", the suffix of the
    state of "a" is the root, the root has an entry for b, the state of "a"
    has no child for b, and yet it has no entry for b. *)
Lemma completion_root_counterexample :
  let h := heap (automaton 20 false ["a"; "b"]) in
  fst (finalize 20 (built false ["a"; "b"])) = Ok tt ∧
  lss_of h 1 = Some 0 ∧
  dict_get "b"%char (entries h 0) = Some 2 ∧
  dict_get "b"%char (entries h 1) = None ∧
  ¬ completed_at h 1 0 "b"%char.
Proof.
  split_and!; try by vm_compute.
  intros Hc. specialize (Hc 2). revert Hc. vm_compute.
  intros Hc. by discriminate Hc.
Qed.

(** C8, amended. After [finalize], for every state whose suffix is not the
    root and every symbol that the dict of the suffix maps, the state maps
    the symbol to the same target unless it has a child for it. *)
Theorem completion_non_root (ci : bool) (ks : list string) :
  ∃ F, ∀ n s suf c,
    let h := heap (automaton (F + n) ci ks) in
    lss_of h s = Some suf → suf ≠ 0 → completed_at h s suf c.
Proof.
  destruct (automaton_final ci ks)
    as (pth & t & [F HF] & Hf & Hci & (Hinv & H0 & Hdone) & Hall).
  exists F. intros n s suf c. destruct (HF (F + n) ltac:(lia)) as [-> _].
  simpl. intros Hs Hsuf u Hu Hchild.
  assert (s ≠ 0) as Hne.
  { intros ->. destruct (ai_lss _ _ _ _ Hinv _ _ Hs) as (_ & Hz).
    by simpl in Hz. }
  destruct (Hdone s suf Hne Hs) as (_ & _ & Hm).
  destruct (Hm Hsuf c u (dict_get_elem _ _ _ Hu)) as (t' & Hg & [->|Hp]);
    [done|]. by destruct (Hchild t' Hg).
Qed.

(** ** C7: adding along an existing path *)

(** the state reached from [cur] along [cs] through the dicts, as the loop
    of [add] walks when it creates nothing *)
Fixpoint follow (h : list State) (cur : ref) (cs : list ascii) : option ref :=
  match cs with
  | [] => Some cur
  | c :: cs' =>
      match dict_get c (entries h cur) with
      | Some next_state => follow h next_state cs'
      | None => None
      end
  end.

Lemma follow_app h cur cs1 cs2 :
  follow h cur (cs1 ++ cs2) = follow h cur cs1 ≫= λ b, follow h b cs2.
Proof.
  revert cur. induction cs1 as [|c cs1 IH]; intros cur; simpl; [done|].
  destruct (dict_get c (entries h cur)); [by rewrite IH|done].
Qed.

Lemma follow_pth ci ks pth h :
  auto_inv ci ks pth h → ∀ n, n < length h → follow h 0 (pth n) = Some n.
Proof.
  intros Hinv. induction n as [n IH] using lt_wf_ind. intros Hn.
  destruct (decide (n = 0)) as [->|Hne].
  { by destruct (ai_root _ _ _ _ Hinv) as [-> _]. }
  destruct (auto_inv_node _ _ _ _ _ Hinv Hn Hne)
    as (st & p & c & _ & _ & _ & _ & _ & Hlt & Hg & ->).
  rewrite follow_app, IH by lia. simpl. by rewrite Hg.
Qed.

Lemma add_loop_follow cs : ∀ cur t n,
  follow (heap t) cur cs = Some n → add_loop cs cur t = (Ok n, t).
Proof.
  induction cs as [|c cs IH]; intros cur t n; simpl.
  { by intros [= ->]. }
  unfold entries. destruct (heap t !! cur) as [st|] eqn:Hst; [|done]. simpl.
  rewrite (bind_ok _ _ _ _ _ (deref_ok _ _ _ Hst)).
  destruct (dict_get c (transitions st)) as [nx|] eqn:Hg; [|done].
  apply IH.
Qed.

(** a second keyword stored along the path of the first one only replaces
    what the state at the end of the path holds *)
Lemma add_again ks pth t k1 k2 :
  build_inv ks pth t →
  normk (_case_insensitive t) k1 = normk (_case_insensitive t) k2 →
  add k2 (snd (add k1 t)) = (Ok tt, snd (add k2 t)) ∧
  (normk (_case_insensitive t) k1 ≠ [] →
   ∃ n st1,
     heap (snd (add k1 t)) !! n = Some st1 ∧
     matched_keyword st1 = Some k1 ∧
     follow (heap (snd (add k1 t))) 0 (normk (_case_insensitive t) k1)
       = Some n ∧
     snd (add k2 (snd (add k1 t)))
       = with_heap (<[n := with_match k2 st1]> (heap (snd (add k1 t))))
           (snd (add k1 t))).
Proof.
  intros Hb Hnorm. pose proof Hb as (Hinv & Hnone & Hcnt & Hfin).
  set (ci := _case_insensitive t) in *.
  assert (∀ k, String.length (if ci then lower k else k) =
               length (normk ci k)) as Hlen
    by (intros k; unfold normk; by rewrite chars_length).
  destruct (length (normk ci k1)) as [|m] eqn:Hm.
  { assert (add k1 t = (Ok tt, t)) as ->.
    { unfold add. rewrite Hfin. fold ci. by rewrite Hlen, Hm. }
    simpl. split.
    - destruct (add_spec k2 t ks pth Hb) as (t2 & _ & -> & _). done.
    - intros Hne. apply length_zero_iff_nil in Hm. done. }
  destruct (add_loop_spec (normk ci k1) 0 t ks pth Hb)
    as (n & t1 & pth1 & Hrun & Hb1 & Hn & Hpn & Hold & Hle & Hci).
  { destruct (ai_root _ _ _ _ Hinv) as (_ & st0 & Hst0 & _).
    by eapply lookup_lt_Some. }
  destruct Hb1 as (Hinv1 & Hnone1 & Hcnt1 & Hfin1).
  apply lookup_lt_is_Some_2 in Hn as Hst. destruct Hst as [st Hst].
  destruct (ai_root _ _ _ _ Hinv) as (Hp0 & _).
  rewrite Hp0 in Hpn. simpl in Hpn.
  assert (n ≠ 0) as Hnz.
  { intros ->. destruct (ai_root _ _ _ _ Hinv1) as (Hp1 & _).
    rewrite Hp1 in Hpn. by rewrite <- Hpn in Hm. }
  assert (∀ k, normk ci k = normk ci k1 →
            add k t = (Ok tt, with_heap (<[n := with_match k st]> (heap t1)) t1))
    as Hadd.
  { intros k Hk. unfold add. rewrite Hfin. fold ci.
    rewrite Hlen, Hk, Hm. simpl.
    change (chars (if ci then lower k else k)) with (normk ci k). rewrite Hk.
    rewrite (bind_ok _ _ _ _ _ Hrun). by apply modify_ok. }
  rewrite (Hadd k1 eq_refl), (Hadd k2 (eq_sym Hnorm)). simpl.
  set (h1 := <[n := with_match k1 st]> (heap t1)).
  assert (h1 !! n = Some (with_match k1 st)) as Hst1
    by (unfold h1; by apply list_lookup_insert_eq).
  assert (auto_inv ci (ks ++ [k1]) pth1 h1) as Hinv2.
  { rewrite Hci in Hinv1. by apply mark_inv. }
  assert (follow h1 0 (normk ci k1) = Some n) as Hfol.
  { rewrite <- Hpn. eapply follow_pth; [done|]. unfold h1.
    by rewrite length_insert. }
  assert (add k2 (with_heap h1 t1)
          = (Ok tt, with_heap (<[n := with_match k2 st]> (heap t1)) t1)) as Hk2.
  { unfold add. simpl. rewrite Hfin1, Hci. fold ci.
    rewrite Hlen, <- Hnorm, Hm. simpl.
    change (chars (if ci then lower k2 else k2)) with (normk ci k2).
    rewrite <- Hnorm.
    rewrite (bind_ok _ _ _ _ _ (add_loop_follow _ _ (with_heap h1 t1) _ Hfol)).
    rewrite (modify_ok (with_heap h1 t1) _ _ _ Hst1). simpl. unfold h1.
    by rewrite list_insert_insert_eq. }
  split; [done|]. intros _. exists n, (with_match k1 st).
  split_and!; try done. rewrite Hk2. simpl. unfold h1.
  by rewrite list_insert_insert_eq.
Qed.

Lemma add_all_app ks1 ks2 t :
  add_all (ks1 ++ ks2) t = (add_all ks1 ;; add_all ks2) t.
Proof.
  revert t. induction ks1 as [|k ks1 IH]; intros t; simpl; [done|].
  unfold bind. by destruct (add k t) as [[[]| |] t1].
Qed.

Lemma built_snoc ci ks k :
  add k (built ci ks) = (Ok tt, built ci (ks ++ [k])).
Proof.
  destruct (built_spec ci ks) as (Hrun & _ & pth & Hb).
  destruct (add_spec k _ _ _ Hb) as (t2 & _ & Hk & _).
  unfold built at 2. rewrite add_all_app, (bind_ok _ _ _ _ _ Hrun).
  simpl. rewrite (bind_ok _ _ _ _ _ Hk). by rewrite Hk.
Qed.

(** C7. For an automaton under construction, adding a keyword twice, then
    finalizing and searching a text, gives the result (and the automaton)
    that adding it once gives. *)
Theorem add_twice (ci : bool) (ks : list string) (k text : string) :
  ∃ F, ∀ n, ∃ r a,
    (add k ;; add k ;; finalize (F + n) ;; search_all (F + n) text)
      (built ci ks) = (Ok r, a) ∧
    (add k ;; finalize (F + n) ;; search_all (F + n) text)
      (built ci ks) = (Ok r, a).
Proof.
  destruct (built_spec ci ks) as (_ & Hci & pth & Hb).
  destruct (add_again ks pth _ k k Hb eq_refl) as [Hagain _].
  rewrite (built_snoc ci ks k) in Hagain. simpl in Hagain.
  destruct (automaton_final ci (ks ++ [k]))
    as (pth2 & t & [F1 HF1] & Hf & Hci2 & Hfin).
  destruct (search_all_spec ci _ pth2 t text Hf Hci2 Hfin)
    as (occ & [F2 HF2] & _).
  exists (max F1 F2). intros n. eexists _, t.
  destruct (HF1 (max F1 F2 + n) ltac:(lia)) as [_ Hrun].
  rewrite !(bind_ok _ _ _ _ _ (built_snoc ci ks k)).
  rewrite (bind_ok _ _ _ _ _ Hagain).
  rewrite !(bind_ok _ _ _ _ _ Hrun).
  split; apply HF2; lia.
Qed.

Lemma last_form_unique ci l k2 k :
  last_form ci (l ++ [k2]) k → normk ci k = normk ci k2 → k = k2.
Proof.
  intros (l1 & l2 & Heq & Hl) Hn.
  destruct l2 as [|x l2 _] using rev_ind.
  - by apply app_inj_tail in Heq as [_ ->].
  - rewrite app_comm_cons, app_assoc in Heq.
    apply app_inj_tail in Heq as [_ ->].
    destruct (Hl x); [|done]. rewrite elem_of_app, list_elem_of_singleton. auto.
Qed.

(** ** C2: [main] *)

(** the values of the case flag and of the connector that [main] accepts *)
Definition flag_arg (case_sensitive : bool) : string :=
  if case_sensitive then "true" else "false".
Definition connector_arg (conj : bool) : string :=
  if conj then "and" else "or".

(** the combination predicate: all the keywords, or any of them, are equal
    to a [matched_keyword] of the result *)
Definition holds (conj : bool) (kw : list string)
    (result : list (option string)) : Prop :=
  if conj then Forall (λ k, Some k ∈ result) kw
  else Exists (λ k, Some k ∈ result) kw.

Global Instance holds_dec conj kw result : Decision (holds conj kw result).
Proof. destruct conj; apply _. Defined.

(** the 1-based numbers of the lines whose result satisfies the predicate,
    the first result being that of line [i] (counted from 0) *)
Definition matching_from (conj : bool) (kw : list string) (i : nat)
    (results : list (list (option string))) : list nat :=
  (λ ir, ir.1 + 1) <$>
    filter (λ ir, holds conj kw ir.2) (imap (λ j r, (i + j, r)) results).

Definition matching_lines (conj : bool) (kw : list string)
    (results : list (list (option string))) : list nat :=
  matching_from conj kw 0 results.

Lemma matching_from_cons conj kw i r results :
  matching_from conj kw i (r :: results) =
  (if decide (holds conj kw r) then [i + 1] else []) ++
  matching_from conj kw (S i) results.
Proof.
  unfold matching_from. simpl. rewrite filter_cons. simpl.
  rewrite Nat.add_0_r.
  assert (imap ((λ j r0, (i + j, r0)) ∘ S) results
          = imap (λ j r0, (S i + j, r0)) results) as ->.
  { apply imap_ext. intros j x _. simpl. f_equal. lia. }
  by destruct (decide (holds conj kw r)).
Qed.

Lemma forallb_elem_in kw result :
  forallb (elem_in result) kw = bool_decide (holds true kw result).
Proof.
  unfold holds, elem_in. induction kw as [|k kw IH]; simpl; [done|].
  rewrite IH. destruct (decide (Some k ∈ result)) as [Hk|Hk].
  - rewrite (bool_decide_eq_true_2 _ Hk). simpl.
    apply bool_decide_ext. rewrite Forall_cons. tauto.
  - rewrite (bool_decide_eq_false_2 _ Hk). simpl. symmetry.
    apply bool_decide_eq_false_2. rewrite Forall_cons. tauto.
Qed.

Lemma existsb_elem_in kw result :
  existsb (elem_in result) kw = bool_decide (holds false kw result).
Proof.
  unfold holds, elem_in. induction kw as [|k kw IH]; simpl; [done|].
  rewrite IH. destruct (decide (Some k ∈ result)) as [Hk|Hk].
  - rewrite (bool_decide_eq_true_2 _ Hk). simpl. symmetry.
    apply bool_decide_eq_true_2. by left.
  - rewrite (bool_decide_eq_false_2 _ Hk). simpl.
    apply bool_decide_ext. rewrite Exists_cons. tauto.
Qed.

Lemma lines_loop_ret conj kw result (ret_ : list nat) i :
  (if decide (connector_arg conj = "and") then
     if forallb (elem_in result) kw then ret_ ++ [i + 1] else ret_
   else
     if existsb (elem_in result) kw then ret_ ++ [i + 1] else ret_)
  = ret_ ++ if decide (holds conj kw result) then [i + 1] else [].
Proof.
  destruct conj.
  - rewrite decide_True by done. rewrite forallb_elem_in.
    unfold bool_decide, decide.
    destruct (holds_dec true kw result); [done|by rewrite app_nil_r].
  - rewrite decide_False by done. rewrite existsb_elem_in.
    unfold bool_decide, decide.
    destruct (holds_dec false kw result); [done|by rewrite app_nil_r].
Qed.

Lemma lines_loop_spec ci ks pth a conj kw :
  _finalized a = true → _case_insensitive a = ci →
  final_inv ci ks pth (heap a) →
  ∀ filelines i ret_, ∃ results F, ∀ fuel, F ≤ fuel →
    lines_loop fuel (connector_arg conj) kw filelines i ret_ a
      = (Ok (ret_ ++ matching_from conj kw i results), a) ∧
    Forall2 (λ line result, search_all fuel line a = (Ok result, a))
      filelines results.
Proof.
  intros Hf Hci Hfin.
  induction filelines as [|line filelines IH]; intros i ret_.
  { exists [], 0. intros fuel _. split; [|constructor].
    simpl. unfold ret. by rewrite app_nil_r. }
  destruct (search_all_spec ci ks pth a line Hf Hci Hfin)
    as (occ & [F1 HF1] & _).
  set (result := (λ x : nat * string, Some x.2) <$> occ) in *.
  set (ret2 :=
         ret_ ++ if decide (holds conj kw result) then [i + 1] else []).
  destruct (IH (S i) ret2) as (results & F2 & HF2).
  exists (result :: results), (max F1 F2). intros fuel Hfuel.
  destruct (HF2 fuel ltac:(lia)) as [Hrun Hall].
  split; [|constructor; [apply HF1; lia|done]].
  simpl. rewrite (bind_ok _ _ _ _ _ (HF1 fuel ltac:(lia))).
  rewrite matching_from_cons, app_assoc. fold ret2. rewrite <- Hrun.
  f_equal. apply lines_loop_ret.
Qed.

(** the result of [main] as C2 states it: an automaton seeded with the
    keywords [kw] alone, and the lines that satisfy the predicate *)
Definition output_as_claimed (fuel : nat) (case_sensitive conj : bool)
    (kw filelines : list string) : output :=
  let a := automaton fuel (negb case_sensitive) kw in
  Lines (matching_lines conj kw
           ((λ line, match fst (search_all fuel line a) with
                     | Ok result => result
                     | _ => []
                     end) <$> filelines)).

(** C2 as stated fails: with one keyword, which occurs in the one line of
    the file, [main] prints the readme and reports no line. *)
Lemma main_one_keyword_counterexample :
  main 20 ["keywordtree.py"; "notes.txt"; "true"; "or"; "a"] ["a"]
    = Ok Readme ∧
  output_as_claimed 20 true false ["a"] ["a"] = Lines [1].
Proof. split; by vm_compute. Qed.

(** C2, amended. With a file, a valid case flag, a valid connector and at
    least two keywords, [main] builds one automaton, calls [search_all] on
    it once for each line, and prints the 1-based numbers of the lines whose
    result satisfies the combination predicate. *)
Theorem main_reports (prog file : string) (case_sensitive conj : bool)
    (k1 k2 : string) (kw filelines : list string) :
  let flag := flag_arg case_sensitive in
  let connector := connector_arg conj in
  ∃ F, ∀ n, ∃ results,
    let a := automaton (F + n) (negb case_sensitive)
               (flag :: connector :: k1 :: k2 :: kw) in
    Forall2 (λ line result, search_all (F + n) line a = (Ok result, a))
      filelines results ∧
    main (F + n) (prog :: file :: flag :: connector :: k1 :: k2 :: kw)
      filelines
    = Ok (Lines (matching_lines conj (k1 :: k2 :: kw) results)).
Proof.
  simpl.
  set (ci := negb case_sensitive).
  set (ks := flag_arg case_sensitive :: connector_arg conj :: k1 :: k2 :: kw).
  destruct (automaton_final ci ks) as (pth & a & [F1 HF1] & Hf & Hci & Hfin).
  destruct (lines_loop_spec ci ks pth a conj (k1 :: k2 :: kw) Hf Hci Hfin
              filelines 0 []) as (results & F2 & HF2).
  destruct (built_spec ci ks) as (Hbuilt & _).
  exists (max F1 F2). intros n. exists results.
  destruct (HF1 (max F1 F2 + n) ltac:(lia)) as [-> Hrun].
  destruct (HF2 (max F1 F2 + n) ltac:(lia)) as [Hloop Hall].
  split; [done|].
  unfold main.
  assert (bool_decide (flag_arg case_sensitive = "false") = ci) as ->
    by by destruct case_sensitive.
  assert (bool_decide (flag_arg case_sensitive ∈ ["true"; "false"]) = true)
    as ->.
  { apply bool_decide_eq_true_2. destruct case_sensitive; repeat constructor. }
  assert (bool_decide (connector_arg conj ∈ ["and"; "or"]) = true) as ->.
  { apply bool_decide_eq_true_2. destruct conj; repeat constructor. }
  simpl. fold ks.
  rewrite (bind_ok _ _ _ _ _ Hbuilt), (bind_ok _ _ _ _ _ Hrun), Hloop.
  done.
Qed.

(** * The automaton is the Aho-Corasick automaton of the keywords

    Nothing said so far tells where an entry of a dict comes from. The
    entries of a state are its children, put there by [add], and the
    entries that [search_lss] copied from the dict of the suffix of the
    state. *)

Definition sourced (h : list State) : Prop :=
  ∀ a c t, (c, t) ∈ entries h a →
    parent_of h t = Some a ∨
    ∃ j, lss_of h a = Some j ∧ j ≠ 0 ∧ (c, t) ∈ entries h j.

Lemma sourced_link ci ks pth h s j :
  auto_inv ci ks pth h → s < length h → lss_of h s = None →
  sourced h → sourced (link h s j).
Proof.
  intros Hinv Hs Hnone Hsrc a c t.
  rewrite link_entries, (same_shape_parent_of _ _ _ (link_shape h s j)).
  intros Hin. destruct (decide (a = s)) as [->|Ha].
  { left. by eapply (ai_fresh _ _ _ _ Hinv). }
  destruct (Hsrc _ _ _ Hin) as [?|(j' & Hj' & ? & ?)]; [by left|].
  right. exists j'. rewrite link_lss_of, decide_False by done.
  by rewrite link_entries.
Qed.

Lemma sourced_grow h s st j add :
  h !! s = Some st → lss_of h s = Some j → j ≠ 0 → j ≠ s →
  (∀ e, e ∈ add → e ∈ entries h j) →
  sourced h → sourced (grow h s (transitions st ++ add)).
Proof.
  intros Hst Hj Hj0 Hjs Hadd Hsrc a c t.
  assert (s < length h) as Hs by by eapply lookup_lt_Some.
  rewrite (same_shape_parent_of _ _ _ (grow_shape h s _)), grow_lss_of.
  rewrite grow_entries by done. setoid_rewrite grow_entries; [|done..].
  destruct (decide (a = s)) as [->|Ha].
  - rewrite elem_of_app, <- (entries_lookup _ _ _ Hst).
    intros [Hin|Hin].
    + destruct (Hsrc _ _ _ Hin) as [?|(j' & Hj' & ? & ?)]; [by left|].
      right. exists j'. split_and!; try done.
      rewrite decide_False by congruence. done.
    + right. exists j. split_and!; try done.
      rewrite decide_False by done. auto.
  - intros Hin.
    destruct (Hsrc _ _ _ Hin) as [?|(j' & Hj' & ? & Hin')]; [by left|].
    right. exists j'. split_and!; try done.
    case_decide; [|done]. subst j'.
    rewrite elem_of_app, <- (entries_lookup _ _ _ Hst). by left.
Qed.

(** the first call of [search_lss] for a state keeps the dicts sourced: the
    heap it leaves is the one of [search_lss_fresh], obtained by one [link]
    of a state without suffix and one [grow] from the dict of the suffix *)
Lemma search_lss_fresh_sourced ci ks pth : ∀ n s t,
  length (pth s) ≤ n →
  auto_inv ci ks pth (heap t) → s < length (heap t) → s ≠ 0 →
  lss_of (heap t) s = None → lss_of (heap t) 0 = Some 0 →
  (∃ p, parent_of (heap t) s = Some p ∧ finished (heap t) p) →
  (∀ a, length (pth a) < length (pth s) → done (heap t) a) →
  sourced (heap t) →
  ∀ h' F,
    (∀ fuel, F ≤ fuel → search_lss fuel s t = (Ok tt, with_heap h' t)) →
    sourced h'.
Proof.
  induction n as [n IH] using lt_wf_ind.
  intros s t Hn Hinv Hs Hne Hnone H0 (p & Hp & Hfp) Hdone Hsrc h' F HF.
  set (h := heap t) in *.
  destruct (auto_inv_node _ _ _ _ _ Hinv Hs Hne)
    as (st & p' & c & Hst & Hpst & Hcst & Hp' & Hc & Hlt & Hchild & Hpth).
  assert (p' = p) as -> by congruence.
  destruct (walk_exists _ _ _ _ _ _ _ Hinv Hne Hs Hp Hc Hfp H0 Hdone)
    as (j & Hw & Hjv & Hjsuf & Hjlen & Hjpar).
  assert (∃ pa, h !! p = Some pa ∧ lss_of h p = longest_strict_suffix pa)
    as (pa & Hpa & Hlp).
  { destruct Hfp as [tr Htr]. unfold lss_of in *.
    destruct (h !! p) as [pa|]; [|done]. by exists pa. }
  assert (∃ tr, lss_of h p = Some tr ∧ tr < length h) as (tr0 & Htr0 & Htr0v).
  { destruct Hfp as [tr Htr]. exists tr. split; [done|].
    by destruct (ai_lss _ _ _ _ Hinv _ _ Htr). }
  rewrite Htr0 in Hw.
  pose proof (suffix_search_walks _ _ _ _ _ _ _ _ _ Hinv Hw Htr0v Hst Hcst)
    as HF1.
  set (st1 := with_suffix (Some j) st).
  set (h1 := link h s j) in *.
  assert (auto_inv ci ks pth h1) as Hinv1.
  { apply link_inv; try done. by rewrite decide_False. }
  assert (sourced h1) as Hsrc1 by by eapply sourced_link.
  assert (h1 !! s = Some st1) as Hst1 by by apply link_lookup_eq.
  assert (∀ a, a ≠ s → h1 !! a = h !! a) as Hfr1
    by (intros; by apply link_lookup_ne).
  assert (same_shape h h1) as Hsh1 by apply link_shape.
  assert (j ≠ s) as Hjs by (intros ->; lia).
  assert (∀ fuel,
    search_lss (S fuel) s t =
    (let* st := deref s in
     let suffix := longest_strict_suffix st in
     if decide (suffix = Some _zero_state) then ret tt
     else search_lss_rest fuel s) (with_heap h1 t)) as Hrun.
  { intros fuel.
    rewrite (search_lss_unfold _ _ _ _ _ _ Hst Hpst Hpa), <- Hlp, Htr0.
    rewrite (bind_ok _ _ _ _ _ HF1).
    unfold search_lss_rest at 1.
    rewrite !(bind_ok _ _ _ _ _ (deref_ok (with_heap h1 t) _ _ Hst1)).
    change (longest_strict_suffix st1) with (Some j).
    destruct (decide (Some j = Some _zero_state)); [done|].
    unfold search_lss_rest.
    rewrite (bind_ok _ _ _ _ _ (deref_ok (with_heap h1 t) _ _ Hst1)).
    change (longest_strict_suffix st1) with (Some j).
    by rewrite decide_False. }
  destruct (decide (j = 0)) as [->|Hj0].
  { assert (h' = h1) as ->; [|done].
    specialize (HF (S F) ltac:(lia)).
    rewrite Hrun in HF.
    rewrite (bind_ok _ _ _ _ _ (deref_ok (with_heap h1 t) _ _ Hst1)) in HF.
    change (longest_strict_suffix st1) with (Some 0) in HF.
    rewrite decide_True in HF by done. by injection HF. }
  destruct (lookup_lt_is_Some_2 h j Hjv) as [sf Hsf].
  assert (h1 !! j = Some sf) as Hsf1 by by rewrite Hfr1.
  assert (∃ h2,
    (∃ F2, ∀ fuel, F2 ≤ fuel →
       match longest_strict_suffix sf with
       | None => search_lss fuel j
       | Some _ => ret tt
       end (with_heap h1 t) = (Ok tt, with_heap h2 t)) ∧
    h2 !! s = Some st1 ∧ finished h2 j ∧ sourced h2)
    as (h2 & [F2 HF2] & Hst2 & Hfj & Hsrc2).
  { destruct (longest_strict_suffix sf) as [jj|] eqn:Hjj.
    { exists h1. split_and!; try done.
      - by exists 0.
      - unfold finished, lss_of. rewrite Hsf1. simpl. by eexists. }
    assert (lss_of h j = None) as Hnj by (unfold lss_of; by rewrite Hsf).
    assert (finished h1 s) as Hfs1.
    { unfold finished, lss_of. rewrite Hst1. by eexists. }
    assert (j < length (heap (with_heap h1 t))) as Ha1
      by (simpl; by rewrite (same_shape_length _ _ Hsh1)).
    assert (lss_of (heap (with_heap h1 t)) j = None) as Ha2
      by (simpl; unfold lss_of; by rewrite Hsf1).
    assert (lss_of (heap (with_heap h1 t)) 0 = Some 0) as Ha3
      by (simpl; by rewrite (frame_lss_of h h1 0) by auto).
    assert (∃ pj, parent_of (heap (with_heap h1 t)) j = Some pj ∧
                  finished (heap (with_heap h1 t)) pj) as Ha4.
    { destruct (Hjpar Hj0) as (pj & Hpj & Hfpj). exists pj. simpl.
      rewrite (same_shape_parent_of _ _ _ Hsh1). split; [done|].
      destruct (decide (pj = s)) as [->|?]; [done|].
      unfold finished. by rewrite (frame_lss_of h h1 pj) by auto. }
    assert (∀ a, length (pth a) < length (pth j) →
              done (heap (with_heap h1 t)) a) as Ha5.
    { intros a Ha. simpl.
      apply (done_frame (λ x, length (pth x) < length (pth s)) h h1); auto.
      - intros x Hx. apply Hfr1. intros ->. lia.
      - intros x y. by eapply depth_closed_lss.
      - intros x q. by eapply depth_closed_parent.
      - lia.
      - apply Hdone. lia. }
    destruct (search_lss_fresh ci ks pth (length (pth j)) j (with_heap h1 t)
                (Nat.le_refl _) Hinv1 Ha1 Hj0 Ha2 Ha3 Ha4 Ha5)
      as (h2 & HF2 & _ & _ & HfrA & _ & Hfj & _).
    exists h2. split_and!; try done; [by exists (length (pth j))| |].
    - change (heap (with_heap h1 t)) with h1 in HfrA. by rewrite HfrA.
    - by apply (IH (length (pth j)) ltac:(lia) j (with_heap h1 t)
                  (Nat.le_refl _) Hinv1 Ha1 Hj0 Ha2 Ha3 Ha4 Ha5 Hsrc1 h2
                  (length (pth j))). }
  assert (∃ sf2, h2 !! j = Some sf2) as [sf2 Hsf2].
  { destruct Hfj as [? Hfj]. unfold lss_of in Hfj.
    destruct (h2 !! j); [by eexists|done]. }
  destruct (merge_dict_app (transitions sf2) (transitions st))
    as (add & Hd & Hadd).
  assert (h' = grow h2 s (transitions st ++ add)) as ->.
  { set (fu := max F F2).
    specialize (HF (S fu) ltac:(lia)).
    rewrite Hrun in HF.
    rewrite (bind_ok _ _ _ _ _ (deref_ok (with_heap h1 t) _ _ Hst1)) in HF.
    change (longest_strict_suffix st1) with (Some j) in HF.
    rewrite decide_False in HF by (intros [= ->]; done).
    unfold search_lss_rest in HF.
    rewrite (bind_ok _ _ _ _ _ (deref_ok (with_heap h1 t) _ _ Hst1)) in HF.
    change (longest_strict_suffix st1) with (Some j) in HF.
    rewrite decide_False in HF by (intros [= ->]; done). simpl deref_opt in HF.
    rewrite (bind_ok _ _ _ _ _ (deref_ok (with_heap h1 t) _ _ Hsf1)) in HF.
    rewrite (bind_ok _ _ _ _ _ (HF2 fu ltac:(lia))) in HF.
    rewrite (bind_ok _ _ _ _ _ (deref_ok (with_heap h2 t) _ _ Hsf2)) in HF.
    rewrite (merge_loop_spec j s sf2 _ 0 (with_heap h2 t) st1 Hjs Hsf2 Hst2)
      in HF by lia.
    rewrite drop_0 in HF. simpl in HF. rewrite Hd in HF. by injection HF. }
  apply (sourced_grow h2 s st1 j add); try done.
  - unfold lss_of. by rewrite Hst2.
  - intros e He. rewrite (entries_lookup _ _ _ Hsf2). auto.
Qed.

Lemma search_lss_top_sourced ci ks pth s t :
  tinv ci ks pth (heap t) → s < length (heap t) → s ≠ 0 →
  (∃ p, parent_of (heap t) s = Some p ∧ finished (heap t) p) →
  sourced (heap t) →
  ∀ h' F,
    (∀ fuel, F ≤ fuel → search_lss fuel s t = (Ok tt, with_heap h' t)) →
    sourced h'.
Proof.
  intros (Hinv & H0 & Hdone) Hs Hne Hp Hsrc h' F HF.
  destruct (lss_of (heap t) s) as [j|] eqn:Hj.
  - pose proof (search_lss_again _ _ _ _ _ _ Hinv Hne Hj (Hdone s)) as HF0.
    specialize (HF (S F) ltac:(lia)). rewrite HF0 in HF by lia.
    assert (heap t = h') as <-; [|done].
    by apply (f_equal (λ x, heap x.2)) in HF.
  - by eapply (search_lss_fresh_sourced ci ks pth (length (pth s)) s t).
Qed.

Lemma children_loop_sourced ci ks pth x P sx n : ∀ pos t stack,
  tinv ci ks pth (heap t) → heap t !! x = Some sx → finished (heap t) x →
  n + pos = length (transitions sx) →
  sourced (heap t) →
  ∀ h' r F,
    (∀ fuel, F ≤ fuel →
       children_loop fuel n pos (length (transitions sx)) x P stack t =
       (Ok r, with_heap h' t)) →
    sourced h'.
Proof.
  induction n as [|n IH]; intros pos t stack Ht Hx Hfx Hn Hsrc h' r F HF.
  - specialize (HF F (Nat.le_refl _)). simpl in HF.
    rewrite (bind_ok _ _ _ _ _ (deref_ok _ _ _ Hx)) in HF.
    unfold dict_next in HF. rewrite decide_True in HF by done.
    unfold bind, ret in HF. rewrite lookup_ge_None_2 in HF by lia.
    assert (heap t = h') as <-; [|done].
    by apply (f_equal (λ x, heap x.2)) in HF.
  - assert (pos < length (transitions sx)) as Hpos by lia.
    apply lookup_lt_is_Some_2 in Hpos as [[c child] Hc].
    pose proof Ht as (Hinv & H0 & Hdone).
    assert ((c, child) ∈ entries (heap t) x) as Hin.
    { rewrite (entries_lookup _ _ _ Hx). by eapply list_elem_of_lookup_2. }
    destruct (ai_tr _ _ _ _ Hinv _ _ _ Hin) as (Hv & _ & _).
    apply lookup_lt_is_Some_2 in Hv as Hch. destruct Hch as [ch Hch].
    pose proof (ai_id _ _ _ _ Hinv _ _ Hch) as Hid.
    assert (∀ fuel stack',
      children_loop fuel (S n) pos (length (transitions sx)) x P stack' t =
      if decide (child ∉ P) then
        (search_lss fuel child ;;
         children_loop fuel n (S pos) (length (transitions sx)) x P
           (child :: stack')) t
      else
        children_loop fuel n (S pos) (length (transitions sx)) x P stack' t)
      as Hunf.
    { intros fuel stack'. simpl.
      rewrite (bind_ok _ _ _ _ _ (deref_ok _ _ _ Hx)).
      unfold dict_next. rewrite decide_True by done.
      unfold bind at 1. unfold ret at 1. rewrite Hc.
      rewrite (bind_ok _ _ _ _ _ (deref_ok _ _ _ Hch)). rewrite Hid.
      by destruct (decide (child ∉ P)). }
    destruct (decide (child ∉ P)) as [Hnp|Hp].
    + assert (child ≠ 0) as Hc0 by by eapply auto_inv_target_nonzero.
      assert (∃ p, parent_of (heap t) child = Some p ∧ finished (heap t) p)
        as Hpar.
      { destruct (ai_par _ _ _ _ Hinv _ _ _ Hin) as [?|?]; eauto. }
      destruct (search_lss_top ci ks pth child t Ht Hv Hc0 Hpar)
        as (h1 & HF1 & Ht1 & Hsh1 & Hfz1 & Hfc).
      set (F1 := length (pth child)).
      apply (IH (S pos) (with_heap h1 t) (child :: stack)) with (r := r)
        (F := max F F1); try done.
      * change (h1 !! x = Some sx). rewrite Hfz1; auto.
      * by eapply frozen_finished.
      * lia.
      * by eapply (search_lss_top_sourced ci ks pth child t Ht Hv Hc0 Hpar
                     Hsrc h1 F1).
      * intros fuel Hfuel. rewrite with_heap_twice, <- (HF fuel) by lia.
        rewrite Hunf.
        by rewrite (bind_ok _ _ _ _ _ (HF1 fuel ltac:(unfold F1 in *; lia))).
    + apply (IH (S pos) t stack) with (r := r) (F := F); try done; [lia|].
      intros fuel Hfuel. rewrite <- (HF fuel) by lia. by rewrite Hunf.
Qed.

Lemma process_loop_sourced ci ks pth : ∀ K stack t P h' F,
  tinv ci ks pth (heap t) →
  (∀ a, a ∈ stack → a < length (heap t) ∧ finished (heap t) a) →
  sourced (heap t) →
  (∀ steps fuel, K ≤ steps → F ≤ fuel →
     process_loop steps fuel P stack t = (Ok tt, with_heap h' t)) →
  sourced h'.
Proof.
  induction K as [|K IH]; intros [|x rest] t P h' F Ht Hst Hsrc HF.
  - specialize (HF 0 F (Nat.le_refl _) (Nat.le_refl _)). simpl in HF.
    assert (heap t = h') as <-; [|done].
    by apply (f_equal (λ x, heap x.2)) in HF.
  - by specialize (HF 0 F (Nat.le_refl _) (Nat.le_refl _)).
  - specialize (HF (S K) F (Nat.le_refl _) (Nat.le_refl _)). simpl in HF.
    assert (heap t = h') as <-; [|done].
    by apply (f_equal (λ x, heap x.2)) in HF.
  - pose proof Ht as (Hinv & H0 & Hdone).
    destruct (Hst x) as [Hx Hfx]; [left|].
    apply lookup_lt_is_Some_2 in Hx as Hsx. destruct Hsx as [sx Hsx].
    pose proof (ai_id _ _ _ _ Hinv _ _ Hsx) as Hid.
    destruct (children_loop_spec ci ks pth x (P ∪ {[x]}) sx
                (length (transitions sx)) 0 t rest)
      as (h1 & pushed & HF1 & Ht1 & Hsh & Hfz & Hpu & Hall & _); try done.
    set (F1 := length (heap t)).
    assert (∀ fuel, F1 ≤ fuel → deep_enough pth (heap t) fuel) as Hde
      by (intros; by eapply deep_enough_length).
    apply (IH (pushed ++ rest) (with_heap h1 t) (P ∪ {[x]}) h' (max F F1));
      try done.
    + intros a [Ha|Ha]%elem_of_app.
      * destruct (Hpu a Ha) as (? & ? & _). done.
      * destruct (Hst a) as [? ?]; [by right|]. simpl.
        rewrite (same_shape_length _ _ Hsh).
        split; [done|by eapply frozen_finished].
    + eapply (children_loop_sourced ci ks pth x (P ∪ {[x]}) sx
                (length (transitions sx)) 0 t rest) with (F := F1);
        try done.
      intros fuel Hfuel. apply HF1. by apply Hde.
    + intros steps fuel Hs Hf.
      rewrite with_heap_twice, <- (HF (S steps) fuel) by lia. simpl.
      rewrite (bind_ok _ _ _ _ _ (deref_ok _ _ _ Hsx)). rewrite Hid.
      by rewrite (bind_ok _ _ _ _ _ (HF1 fuel (Hde fuel ltac:(lia)))).
Qed.

(** the dicts of a tree under construction hold children only *)
Lemma build_inv_sourced ks pth t : build_inv ks pth t → sourced (heap t).
Proof.
  intros (Hinv & Hnone & _) a c x Hin. left.
  by eapply (ai_fresh _ _ _ _ Hinv).
Qed.

Lemma finalize_sourced ks pth t h' F :
  build_inv ks pth t →
  (∀ fuel, F ≤ fuel → finalize fuel t = (Ok tt, finalized_with h' t)) →
  sourced h'.
Proof.
  intros Hb HF. pose proof Hb as (Hinv & Hnone & Hcnt & Hfin).
  set (ci := _case_insensitive t) in *.
  destruct (ai_root _ _ _ _ Hinv) as (_ & st0 & Hst0 & _).
  assert (0 < length (heap t)) as H0v by by eapply lookup_lt_Some.
  set (h0 := link (heap t) 0 0).
  assert (same_shape (heap t) h0) as Hsh0 by apply link_shape.
  assert (∀ a, lss_of h0 a = if decide (a = 0) then Some 0 else None) as Hlss0.
  { intros a. unfold h0. rewrite link_lss_of by done.
    destruct (decide (a = 0)); [done|]. apply Hnone. }
  assert (tinv ci ks pth h0) as Ht0.
  { split_and!.
    - apply link_inv; try done.
    - by rewrite Hlss0.
    - intros a j Hne. rewrite Hlss0. by rewrite decide_False. }
  assert (∀ a, a ∈ [0] → a < length h0 ∧ finished h0 a) as Hst.
  { intros a ->%list_elem_of_singleton.
    rewrite (same_shape_length _ _ Hsh0). split; [done|].
    unfold finished. rewrite Hlss0. by eexists. }
  assert (pinv ci ks pth h0 ∅ [0]) as Hp0 by (split_and!; [done|done|set_solver]).
  assert (sourced h0) as Hsrc0.
  { eapply sourced_link; try done. by eapply build_inv_sourced. }
  destruct (process_loop_spec ci ks pth _ [0] (with_heap h0 t) ∅
              (Nat.le_refl _) Hp0)
    as (hP & P' & (K & HK & HKF) & _).
  simpl in HK, HKF.
  assert (K ≤ S (length h0 * (2 * length h0 + 1))) as HKb.
  { pose proof (unprocessed_le (length h0) ∅) as Hu.
    apply (Nat.mul_le_mono_l _ _ (2 * length h0 + 1)) in Hu. lia. }
  assert (∀ fuel, length h0 ≤ fuel → deep_enough pth h0 fuel) as Hde.
  { intros fuel Hf. destruct Ht0 as (Hinv0 & _).
    by eapply deep_enough_length. }
  assert (h' = hP) as ->.
  { set (fu := max F (length h0)).
    specialize (HF fu ltac:(lia)). unfold finalize in HF. rewrite Hfin in HF.
    rewrite (bind_ok _ _ _ _ _ (modify_link _ _ _ _ Hst0)) in HF.
    rewrite (bind_ok (search_lss_for_children fu _zero_state) _ _ _ _
               (HKF _ fu HKb (Hde fu ltac:(lia)))) in HF.
    by apply (f_equal (λ x, heap x.2)) in HF. }
  apply (process_loop_sourced ci ks pth K [0] (with_heap h0 t) ∅ hP
           (length h0)); try done.
  intros steps fuel Hs Hf. apply HKF; [done|by apply Hde].
Qed.

(** ** Every keyword has its state

    [add] only adds: an entry of a dict stays, and so does the mark of a
    state at which a keyword ends. *)

Definition grows (h h' : list State) : Prop :=
  (∀ a c x, dict_get c (entries h a) = Some x →
     dict_get c (entries h' a) = Some x) ∧
  (∀ a st, h !! a = Some st → success st = true →
     ∃ st', h' !! a = Some st' ∧ success st' = true).

Lemma grows_refl h : grows h h.
Proof. split; [done|]. intros a st Hst Hs. by exists st. Qed.

Lemma grows_trans h1 h2 h3 : grows h1 h2 → grows h2 h3 → grows h1 h3.
Proof.
  intros [He1 Hs1] [He2 Hs2]. split; [by auto|].
  intros a st Hst Hs. destruct (Hs1 a st Hst Hs) as (st' & Hst' & Hs').
  by apply (Hs2 a st').
Qed.

Lemma grows_follow h h' : grows h h' →
  ∀ cs cur b, follow h cur cs = Some b → follow h' cur cs = Some b.
Proof.
  intros [He _]. induction cs as [|c cs IH]; intros cur b; simpl; [done|].
  destruct (dict_get c (entries h cur)) as [x|] eqn:Hx; [|done].
  rewrite (He _ _ _ Hx). apply IH.
Qed.

Lemma extend_grows h cur c st :
  h !! cur = Some st → grows h (extend h cur c).
Proof.
  intros Hcur. split.
  - intros a x y. rewrite (extend_entries _ _ _ _ Hcur).
    case_decide; [|done]. subst a. rewrite dict_get_app. by intros ->.
  - intros a sa Ha Hs.
    assert (a ≠ length h) as Hn by (apply lookup_lt_Some in Ha; lia).
    destruct (decide (a = cur)) as [->|Hc].
    + rewrite (extend_lookup_cur _ _ _ _ Hcur). eexists. split; [done|].
      simpl. congruence.
    + rewrite (extend_lookup_old _ _ _ _ Hcur) by done. by exists sa.
Qed.

Lemma add_loop_grows cs : ∀ cur t ks pth n t',
  build_inv ks pth t → cur < length (heap t) →
  add_loop cs cur t = (Ok n, t') → grows (heap t) (heap t').
Proof.
  induction cs as [|char cs IH]; intros cur t ks pth n t' Hb Hcur; simpl.
  { intros [= _ <-]. apply grows_refl. }
  pose proof Hb as (Hinv & Hnone & Hcnt & Hfin).
  apply lookup_lt_is_Some_2 in Hcur as Hst. destruct Hst as [st Hst].
  rewrite (bind_ok _ _ _ _ _ (deref_ok _ _ _ Hst)).
  destruct (dict_get char (transitions st)) as [next_state|] eqn:Hget.
  - apply dict_get_elem in Hget.
    rewrite <- (entries_lookup _ _ _ Hst) in Hget.
    destruct (ai_tr _ _ _ _ Hinv _ _ _ Hget) as (Hlt & _ & _).
    by apply (IH next_state t ks pth).
  - rewrite (add_loop_create _ t cur st char Hst Hcnt Hget).
    set (t1 := {| heap := extend (heap t) cur char;
                  _counter := length (heap t) + 1;
                  _finalized := _finalized t;
                  _case_insensitive := _case_insensitive t |}) in *.
    assert (build_inv ks (extend_pth (heap t) cur char pth) t1) as Hb1.
    { split_and!; simpl.
      - by eapply extend_inv.
      - intros a. by rewrite (extend_lss_of _ _ _ _ Hst).
      - rewrite (extend_length _ _ _ _ Hst). lia.
      - done. }
    assert (length (heap t) < length (heap t1)) as Hlt1.
    { simpl. rewrite (extend_length _ _ _ _ Hst). lia. }
    intros Hrun. eapply grows_trans; [by apply (extend_grows _ cur char st)|].
    by apply (IH _ t1 ks _ n t' Hb1 Hlt1).
Qed.

Lemma mark_grows h n st k :
  h !! n = Some st → grows h (<[n := with_match k st]> h).
Proof.
  intros Hn.
  destruct (mark_views h n st k Hn) as (_ & _ & _ & _ & Hent & _).
  split; [intros a c x; by rewrite Hent|].
  intros a sa Ha Hs. destruct (decide (a = n)) as [->|Hne].
  - rewrite list_lookup_insert_eq by by eapply lookup_lt_Some. by eexists.
  - rewrite list_lookup_insert_ne by done. by exists sa.
Qed.

Lemma add_grows k t ks pth t' :
  build_inv ks pth t → add k t = (Ok tt, t') → grows (heap t) (heap t').
Proof.
  intros Hb. pose proof Hb as (Hinv & Hnone & Hcnt & Hfin).
  unfold add. rewrite Hfin.
  destruct (String.length _ <=? 0); [intros [= <-]; apply grows_refl|].
  destruct (add_loop_spec
              (chars (if _case_insensitive t then lower k else k)) 0 t ks pth Hb)
    as (n & t1 & pth' & Hrun & Hb1 & Hn & _).
  { destruct (ai_root _ _ _ _ Hinv) as (_ & st0 & Hst0 & _).
    by eapply lookup_lt_Some. }
  rewrite (bind_ok _ _ _ _ _ Hrun).
  apply lookup_lt_is_Some_2 in Hn as [st Hst].
  rewrite (modify_ok _ _ _ _ Hst). intros [= <-]. simpl.
  eapply grows_trans; [|by apply mark_grows].
  eapply (add_loop_grows _ 0 t ks pth); [done| |done].
  destruct (ai_root _ _ _ _ Hinv) as (_ & st0 & Hst0 & _).
  by eapply lookup_lt_Some.
Qed.

(** the dicts lead from the root, along a keyword added, to a state at which
    a keyword ends *)
Lemma built_terminal ci ks k :
  k ∈ ks → normk ci k ≠ [] →
  ∃ a st, follow (heap (built ci ks)) 0 (normk ci k) = Some a ∧
          heap (built ci ks) !! a = Some st ∧ success st = true.
Proof.
  induction ks as [|k0 ks IH] using rev_ind; intros Hk Hne.
  { by apply elem_of_nil in Hk. }
  destruct (built_spec ci ks) as (_ & Hci & pth & Hb).
  pose proof (built_snoc ci ks k0) as Hadd.
  pose proof (add_grows _ _ _ _ _ Hb Hadd) as Hg.
  destruct (decide (normk ci k0 = normk ci k)) as [Heq|Hneq].
  - rewrite <- Heq in *.
    destruct (add_again ks pth _ k0 k0 Hb eq_refl) as [Hagain Hnode].
    rewrite Hci in Hnode. destruct (Hnode Hne) as (n & st1 & Hst1 & _ & Hfol & Ht2).
    rewrite Hadd in *. simpl in *.
    exists n, st1. split_and!; try done.
    apply (f_equal heap) in Ht2. simpl in Ht2.
    assert (n < length (heap (built ci (ks ++ [k0])))) as Hn
      by by eapply lookup_lt_Some.
    pose proof (list_lookup_insert_eq (heap (built ci (ks ++ [k0]))) n
                  (with_match k0 st1) Hn) as Hl.
    rewrite Hagain in Ht2. simpl in Ht2.
    rewrite <- Ht2, Hst1 in Hl. by injection Hl as ->.
  - apply elem_of_app in Hk as [Hk|Hk%list_elem_of_singleton]; [|by subst].
    destruct (IH Hk Hne) as (a & st & Hfol & Hst & Hs).
    destruct Hg as [He Hsucc].
    destruct (Hsucc a st Hst Hs) as (st' & Hst' & Hs').
    exists a, st'. split_and!; try done.
    by apply (grows_follow _ _ (conj He Hsucc)).
Qed.

(** in a tree under construction the dicts lead along the paths *)
Lemma follow_build ks pth t :
  build_inv ks pth t →
  ∀ cs cur b, cur < length (heap t) → follow (heap t) cur cs = Some b →
    b < length (heap t) ∧ pth b = pth cur ++ cs.
Proof.
  intros (Hinv & Hnone & _).
  induction cs as [|c cs IH]; intros cur b Hcur; simpl.
  { intros [= <-]. by rewrite app_nil_r. }
  destruct (dict_get c (entries (heap t) cur)) as [x|] eqn:Hx; [|done].
  apply dict_get_elem in Hx.
  destruct (ai_tr _ _ _ _ Hinv _ _ _ Hx) as (Hxv & Hsym & _).
  pose proof (ai_fresh _ _ _ _ Hinv _ _ _ (Hnone cur) Hx) as Hpar.
  assert (x ≠ 0) as Hx0 by by eapply auto_inv_target_nonzero.
  destruct (auto_inv_node _ _ _ _ _ Hinv Hxv Hx0)
    as (sx & p & c' & _ & _ & _ & Hp & Hc & _ & _ & Hpth).
  assert (p = cur) as -> by congruence.
  assert (c' = c) as -> by congruence.
  intros Hf. destruct (IH x b Hxv Hf) as [Hb ->].
  split; [done|]. by rewrite Hpth, <- app_assoc.
Qed.

(** ** The suffix links and the dicts of the finalized automaton

    Among the paths of the tree, the path of the suffix of a state is the
    longest proper suffix of the path of the state; the entry of a state
    for a symbol leads to the longest suffix of its path followed by the
    symbol; and where a state has no entry for a symbol, no such suffix
    has more than one symbol. *)

Definition suffix_is_longest (pth : ref → list ascii) (h : list State)
    (a : ref) : Prop :=
  ∀ j b, a ≠ 0 → lss_of h a = Some j →
    b < length h → pth b `suffix_of` pth a → b ≠ a →
    pth b `suffix_of` pth j.

Definition entry_is_longest (pth : ref → list ascii) (h : list State)
    (a : ref) : Prop :=
  ∀ c t b, (c, t) ∈ entries h a →
    b < length h → pth b `suffix_of` pth a ++ [c] →
    pth b `suffix_of` pth t.

Definition missing_is_short (pth : ref → list ascii) (h : list State)
    (a : ref) : Prop :=
  ∀ c b, a < length h → dict_get c (entries h a) = None →
    b < length h → pth b `suffix_of` pth a ++ [c] →
    length (pth b) ≤ 1.

Lemma suffix_snoc_cases {A} (v w : list A) c :
  v `suffix_of` w ++ [c] → v = [] ∨ ∃ v', v = v' ++ [c] ∧ v' `suffix_of` w.
Proof.
  destruct v as [|x v' _] using rev_ind; [by left|]. intros Hs. right.
  exists v'. rewrite (suffix_snoc_inv_1 _ _ _ _ Hs). split; [done|].
  by eapply suffix_snoc_inv_2.
Qed.

Lemma suffix_shorter {A} (v1 v2 w : list A) :
  v1 `suffix_of` w → v2 `suffix_of` w → length v1 ≤ length v2 →
  v1 `suffix_of` v2.
Proof.
  intros H1 H2 Hl. destruct (suffix_weak_total _ _ _ H1 H2) as [?|H21]; [done|].
  by rewrite (suffix_length_eq _ _ H21 Hl).
Qed.

(** a path that ends with [c] is the path of a child for [c] *)
Lemma path_snoc ci ks pth h b w c :
  auto_inv ci ks pth h → b < length h → pth b = w ++ [c] →
  ∃ p, p < length h ∧ pth p = w ∧ parent_of h b = Some p ∧
       dict_get c (entries h p) = Some b.
Proof.
  intros Hinv Hb Hw.
  assert (b ≠ 0) as Hb0.
  { intros ->. destruct (ai_root _ _ _ _ Hinv) as [Hp0 _].
    rewrite Hp0 in Hw. by destruct w. }
  destruct (auto_inv_node _ _ _ _ _ Hinv Hb Hb0)
    as (st & p & c' & _ & _ & _ & Hp & _ & Hlt & Hg & Hpth).
  rewrite Hpth in Hw. apply app_inj_tail in Hw as [<- <-].
  exists p. split_and!; try done. lia.
Qed.

(** the entry of a child leads to the path of the state followed by the
    symbol *)
Lemma child_path ci ks pth h a c t :
  auto_inv ci ks pth h → (c, t) ∈ entries h a → parent_of h t = Some a →
  pth t = pth a ++ [c].
Proof.
  intros Hinv Hin Hp.
  destruct (ai_tr _ _ _ _ Hinv _ _ _ Hin) as (Hv & Hsym & _).
  assert (t ≠ 0) as Ht0 by by eapply auto_inv_target_nonzero.
  destruct (auto_inv_node _ _ _ _ _ Hinv Hv Ht0)
    as (st & p & c' & _ & _ & _ & Hp' & Hc' & _ & _ & Hpth).
  congruence.
Qed.

(** the search of [search_lss], started at a suffix [tr] of the parent,
    ends at the longest suffix of the path of [tr] followed by the symbol
    of the state, the state itself set aside *)
Lemma walk_longest ci ks pth h s p c :
  auto_inv ci ks pth h → s < length h → s ≠ 0 →
  parent_of h s = Some p → symbol_of h s = Some c →
  (∀ x, length (pth x) < length (pth s) →
     entry_is_longest pth h x ∧ missing_is_short pth h x) →
  ∀ tr0 j, walks h s (Some c) tr0 j →
  ∀ tr, tr0 = Some tr → tr < length h →
    tr = 0 ∨ length (pth tr) < length (pth p) →
  ∀ b, b < length h → pth b `suffix_of` pth tr ++ [c] → b ≠ s →
    pth b `suffix_of` pth j.
Proof.
  intros Hinv Hs Hne Hp Hc Hlow.
  destruct (auto_inv_node _ _ _ _ _ Hinv Hs Hne)
    as (st & p' & c' & Hst & _ & _ & Hp' & Hc' & Hlt & Hchild & Hpth).
  assert (p' = p) as -> by congruence. assert (c' = c) as -> by congruence.
  destruct (ai_root _ _ _ _ Hinv) as [Hp0 _].
  assert (length (pth s) = S (length (pth p))) as Hlen.
  { rewrite Hpth, length_app. simpl. lia. }
  induction 1 as [tr ts target Htr Hhit|ts Htr Hhit|tr ts j Htr Hhit Hn0 Hw IH];
    intros tr1 [= <-] Htrv Hdepth b Hb Hsuf Hbs.
  - assert (length (pth tr) < length (pth s)) as Hd.
    { destruct Hdepth as [->|?]; [rewrite Hp0; simpl|]; lia. }
    destruct (Hlow tr Hd) as [Hent _].
    unfold hit in Hhit. simpl in Hhit.
    destruct (dict_get c (transitions ts)) as [x|] eqn:Hx; [|done].
    destruct (decide (x ≠ s)); [|done]. simplify_eq.
    apply dict_get_elem in Hx. rewrite <- (entries_lookup _ _ _ Htr) in Hx.
    by apply (Hent c target b).
  - rewrite Hp0 in *. simpl in Hsuf.
    destruct (suffix_snoc_cases _ [] _ Hsuf) as [->|(v' & Hv & Hv')]; [done|].
    apply suffix_nil_inv in Hv'. subst v'. simpl in Hv.
    destruct (path_snoc _ _ _ _ _ [] c Hinv Hb Hv) as (q & Hq & Hpq & _ & Hg).
    assert (q = 0) as -> by (apply (ai_inj _ _ _ _ Hinv); [done|lia|congruence]).
    rewrite (entries_lookup _ _ _ Htr) in Hg.
    unfold hit in Hhit. simpl in Hhit. rewrite Hg in Hhit.
    destruct (decide (b ≠ s)); [done|]. by destruct Hbs; apply dec_stable.
  - destruct Hdepth as [->|Hdepth]; [done|].
    assert (length (pth tr) < length (pth s)) as Hd by lia.
    destruct (Hlow tr Hd) as [_ Hmiss].
    assert (dict_get c (entries h tr) = None) as Hnone.
    { rewrite (entries_lookup _ _ _ Htr).
      unfold hit in Hhit. simpl in Hhit.
      destruct (dict_get c (transitions ts)) as [x|] eqn:Hx; [|done].
      destruct (decide (x ≠ s)) as [|Hxs]; [done|].
      apply dec_stable in Hxs. subst x.
      apply dict_get_elem in Hx. rewrite <- (entries_lookup _ _ _ Htr) in Hx.
      destruct (ai_tr _ _ _ _ Hinv _ _ _ Hx) as (_ & _ & Hsf).
      apply suffix_length in Hsf. rewrite length_app in Hsf. simpl in Hsf. lia. }
    pose proof (Hmiss c b Htrv Hnone Hb Hsuf) as Hshort.
    destruct (suffix_snoc_cases _ _ _ Hsuf) as [Hnil|(v' & Hv & Hv')].
    { rewrite Hnil. apply suffix_nil. }
    assert (v' = []) as ->.
    { rewrite Hv, length_app in Hshort. simpl in Hshort.
      apply length_zero_iff_nil. lia. }
    destruct (longest_strict_suffix ts) as [y|] eqn:Hy; [|by inversion Hw].
    assert (lss_of h tr = Some y) as Hly by (unfold lss_of; by rewrite Htr).
    destruct (ai_lss _ _ _ _ Hinv _ _ Hly) as (Hyv & Hys).
    rewrite decide_False in Hys by done. destruct Hys as [_ Hyl].
    apply (IH y eq_refl Hyv); [right; lia|done| |done].
    rewrite Hv. simpl. by apply suffix_app_r.
Qed.

(** every keyword added, the empty one apart, is the path of a state at
    which a keyword ends *)
Definition spells (ci : bool) (ks : list string) (pth : ref → list ascii)
    (h : list State) : Prop :=
  ∀ k, k ∈ ks → normk ci k ≠ [] →
    ∃ b st, h !! b = Some st ∧ pth b = normk ci k ∧ success st = true.

(** the automaton as [finalize] leaves it *)
Definition aho (ci : bool) (ks : list string) (pth : ref → list ascii)
    (h : list State) : Prop :=
  final_inv ci ks pth h ∧ sourced h ∧ spells ci ks pth h.

Lemma aho_longest ci ks pth h :
  aho ci ks pth h →
  ∀ n a, length (pth a) ≤ n →
    suffix_is_longest pth h a ∧ entry_is_longest pth h a ∧
    missing_is_short pth h a.
Proof.
  intros (((Hinv & H0 & Hdone) & Hall) & Hsrc & _).
  destruct (ai_root _ _ _ _ Hinv) as [Hp0 _].
  induction n as [n IH] using lt_wf_ind. intros a Hn.
  destruct (decide (a < length h)) as [Ha|Ha].
  2:{ split_and!.
      - intros j b _ Hj. destruct Ha. unfold lss_of in Hj.
        destruct (h !! a) eqn:E; [by eapply lookup_lt_Some|done].
      - intros c t b Hin. destruct Ha. by eapply entries_valid.
      - by intros c b ?. }
  destruct (decide (a = 0)) as [->|Hne].
  { split_and!.
    - by intros j b ?.
    - intros c t b Hin Hb Hsuf.
      destruct (Hsrc _ _ _ Hin) as [Hpar|(j & Hj & Hj0 & _)]; [|congruence].
      by rewrite (child_path _ _ _ _ _ _ _ Hinv Hin Hpar).
    - intros c b _ _ _ Hsuf. apply suffix_length in Hsuf.
      by rewrite Hp0 in Hsuf. }
  destruct (Hall a Ha) as [j Hj].
  destruct (Hdone a j Hne Hj) as (Hfj & (p & c0 & Hp & Hc0 & [tr Htr] & Hw) & Hm).
  destruct (auto_inv_node _ _ _ _ _ Hinv Ha Hne)
    as (st & p' & c' & Hst & _ & _ & Hp' & Hc' & Hlt & Hchild & Hpth).
  assert (p' = p) as -> by congruence. assert (c' = c0) as -> by congruence.
  assert (length (pth a) = S (length (pth p))) as Hlen.
  { rewrite Hpth, length_app. simpl. lia. }
  destruct (ai_lss _ _ _ _ Hinv _ _ Hj) as (Hjv & Hjs).
  rewrite decide_False in Hjs by done. destruct Hjs as [Hjsuf Hjlen].
  assert (∀ x, length (pth x) < length (pth a) →
            suffix_is_longest pth h x ∧ entry_is_longest pth h x ∧
            missing_is_short pth h x) as IH'.
  { intros x Hx. apply (IH (length (pth x))); lia. }
  assert (suffix_is_longest pth h a) as Hlong.
  { intros j' b _ Hj' Hb Hsuf Hba. assert (j' = j) as -> by congruence.
    rewrite Hpth in Hsuf.
    destruct (suffix_snoc_cases _ _ _ Hsuf) as [Hnil|(v' & Hv & Hv')].
    { rewrite Hnil. apply suffix_nil. }
    destruct (path_snoc _ _ _ _ _ _ _ Hinv Hb Hv) as (q & Hq & Hpq & _ & _).
    assert (q ≠ p) as Hqp.
    { intros ->. apply Hba. apply (ai_inj _ _ _ _ Hinv); try done. congruence. }
    destruct (ai_lss _ _ _ _ Hinv _ _ Htr) as (Htrv & Htrs).
    assert (p ≠ 0) as Hpz.
    { intros ->. rewrite Hp0 in Hv'. apply suffix_nil_inv in Hv'. subst v'.
      apply Hqp. apply (ai_inj _ _ _ _ Hinv); [done|lia|congruence]. }
    rewrite decide_False in Htrs by done.
    destruct (IH' p ltac:(lia)) as (Hlp & _).
    assert (pth q `suffix_of` pth tr) as Hqs.
    { apply (Hlp tr q); try done. by rewrite Hpq. }
    rewrite Htr in Hw.
    apply (walk_longest _ _ _ _ _ _ _ Hinv Ha Hne Hp Hc0) with
      (tr0 := Some tr) (tr := tr) (b := b); try done.
    - intros x Hx. by destruct (IH' x Hx) as (_ & ? & ?).
    - right. by destruct Htrs.
    - rewrite Hv, <- Hpq. by apply suffix_app. }
  split_and!; [done| |].
  - intros c t b Hin Hb Hsuf.
    destruct (Hsrc _ _ _ Hin) as [Hpar|(j' & Hj' & Hj0 & Hin')].
    { by rewrite (child_path _ _ _ _ _ _ _ Hinv Hin Hpar). }
    assert (j' = j) as -> by congruence.
    destruct (suffix_snoc_cases _ _ _ Hsuf) as [Hnil|(v' & Hv & Hv')].
    { rewrite Hnil. apply suffix_nil. }
    destruct (path_snoc _ _ _ _ _ _ _ Hinv Hb Hv) as (q & Hq & Hpq & _ & Hg).
    destruct (decide (q = a)) as [->|Hqa].
    { rewrite (entries_lookup _ _ _ Hst) in Hg, Hin.
      rewrite (dict_elem_get _ _ _ (ai_keys _ _ _ _ Hinv _ _ Hst) Hin) in Hg.
      by simplify_eq. }
    destruct (IH' j Hjlen) as (_ & Hej & _).
    apply (Hej c t b); try done.
    rewrite Hv, <- Hpq. apply suffix_app. apply (Hlong j q); try done.
    by rewrite Hpq.
  - intros c b _ Hnone Hb Hsuf.
    destruct (suffix_snoc_cases _ _ _ Hsuf) as [Hnil|(v' & Hv & Hv')].
    { rewrite Hnil. simpl. lia. }
    destruct (path_snoc _ _ _ _ _ _ _ Hinv Hb Hv) as (q & Hq & Hpq & _ & Hg).
    assert (q ≠ a) as Hqa by (intros ->; congruence).
    assert (pth q `suffix_of` pth j) as Hqj.
    { apply (Hlong j q); try done. by rewrite Hpq. }
    destruct (decide (j = 0)) as [->|Hj0].
    { rewrite Hp0 in Hqj. apply suffix_nil_inv in Hqj.
      rewrite Hv, <- Hpq, Hqj. simpl. lia. }
    destruct (IH' j Hjlen) as (_ & _ & Hmj).
    apply (Hmj c b); try done.
    + destruct (dict_get c (entries h j)) as [t|] eqn:Ht; [|done].
      destruct (Hm Hj0 c t (dict_get_elem _ _ _ Ht)) as (t' & Ht' & _).
      congruence.
    + rewrite Hv, <- Hpq. by apply suffix_app.
Qed.

Lemma automaton_aho ci ks :
  ∃ pth t,
    (∃ F, ∀ fuel, F ≤ fuel →
       automaton fuel ci ks = t ∧ finalize fuel (built ci ks) = (Ok tt, t)) ∧
    _finalized t = true ∧ _case_insensitive t = ci ∧
    _counter t = _counter (built ci ks) ∧
    build_inv ks pth (built ci ks) ∧
    same_shape (heap (built ci ks)) (heap t) ∧
    aho ci ks pth (heap t).
Proof.
  destruct (built_spec ci ks) as (_ & Hci & pth & Hb).
  destruct (finalize_spec ks pth _ Hb) as (h' & [F HF] & Hfin & Hsh).
  rewrite Hci in Hfin.
  exists pth, (finalized_with h' (built ci ks)). split_and!; try done.
  - exists F. intros fuel Hf. unfold automaton. by rewrite HF.
  - split_and!; [done|by eapply finalize_sourced|]. simpl.
    intros k Hk Hne.
    destruct (built_terminal ci ks k Hk Hne) as (a & st & Hfol & Hst & Hs).
    pose proof Hb as (Hinv & _).
    destruct (ai_root _ _ _ _ Hinv) as (Hp0 & st0 & Hst0 & _).
    destruct (follow_build _ _ _ Hb (normk ci k) 0 a) as [Ha Hpa]; [|done|].
    { by eapply lookup_lt_Some. }
    rewrite Hp0 in Hpa. simpl in Hpa.
    destruct (same_shape_lookup _ _ _ _ Hsh Hst) as (st' & Hst' & Heq).
    exists a, st'. split_and!; try done.
    unfold shape in Heq. congruence.
Qed.

(** ** [search_all] reports every occurrence *)

(** the state [cur] spells the longest suffix of [pre] that is a path *)
Definition tracks (pth : ref → list ascii) (h : list State)
    (pre : list ascii) (cur : ref) : Prop :=
  cur < length h ∧ pth cur `suffix_of` pre ∧
  ∀ b, b < length h → pth b `suffix_of` pre → pth b `suffix_of` pth cur.

Lemma step_tracks ci ks pth h zero cur sc c pre :
  aho ci ks pth h → h !! 0 = Some zero → h !! cur = Some sc →
  tracks pth h pre cur → tracks pth h (pre ++ [c]) (step zero sc c).
Proof.
  intros Haho Hz Hc (Hcur & Hsuf & Hmax).
  pose proof Haho as (((Hinv & _) & _) & _).
  destruct (aho_longest _ _ _ _ Haho (length (pth cur)) cur (Nat.le_refl _))
    as (_ & Hent & Hmiss).
  destruct (aho_longest _ _ _ _ Haho (length (pth 0)) 0 (Nat.le_refl _))
    as (_ & Hent0 & _).
  destruct (ai_root _ _ _ _ Hinv) as (Hp0 & _).
  destruct (step_spec _ _ _ _ _ _ _ c _ Hinv Hz Hc Hsuf) as [Hv Hs].
  split_and!; try done. intros b Hb Hbs.
  destruct (suffix_snoc_cases _ _ _ Hbs) as [Hnil|(v' & Hv' & Hv'')].
  { rewrite Hnil. apply suffix_nil. }
  destruct (path_snoc _ _ _ _ _ _ _ Hinv Hb Hv') as (q & Hq & Hpq & _ & Hg).
  assert (pth b `suffix_of` pth cur ++ [c]) as Hbc.
  { rewrite Hv', <- Hpq. apply suffix_app. apply Hmax; [done|].
    by rewrite Hpq. }
  unfold step. destruct (dict_get c (transitions sc)) as [j|] eqn:Hj; simpl.
  { apply dict_get_elem in Hj. rewrite <- (entries_lookup _ _ _ Hc) in Hj.
    by apply (Hent c j b). }
  rewrite <- (entries_lookup _ _ _ Hc) in Hj.
  pose proof (Hmiss c b Hcur Hj Hb Hbc) as Hshort.
  assert (v' = []) as ->.
  { rewrite Hv', length_app in Hshort. simpl in Hshort.
    apply length_zero_iff_nil. lia. }
  assert (q = 0) as ->.
  { apply (ai_inj _ _ _ _ Hinv); [done|by eapply lookup_lt_Some|congruence]. }
  rewrite (entries_lookup _ _ _ Hz) in Hg. by rewrite Hg.
Qed.

Lemma emit_loop_exact ci ks pth t :
  aho ci ks pth (heap t) →
  ∀ n a, length (pth a) ≤ n → a < length (heap t) →
  ∃ kl,
    (∃ F, ∀ fuel ret_, F ≤ fuel →
       emit_loop fuel (Some a) ret_ t = (Ok (ret_ ++ (Some <$> kl)), t)) ∧
    desc ci ks (pth a) (S (length (pth a))) kl ∧
    ∀ b st, b < length (heap t) → pth b `suffix_of` pth a →
      heap t !! b = Some st → success st = true →
      ∃ k, matched_keyword st = Some k ∧ k ∈ kl.
Proof.
  intros Haho. pose proof Haho as (((Hinv & H0 & Hdone) & Hall) & _).
  destruct (ai_root _ _ _ _ Hinv) as (Hp0 & _).
  induction n as [n IH] using lt_wf_ind. intros a Hn Ha.
  destruct (decide (a = 0)) as [->|Hne].
  { exists []. split_and!; [|done|].
    - exists 0. intros fuel ret_ _. by rewrite emit_loop_zero, app_nil_r.
    - intros b st Hb Hsuf Hst Hs. rewrite Hp0 in Hsuf.
      apply suffix_nil_inv in Hsuf.
      destruct (ai_match _ _ _ _ Hinv _ _ Hst Hs) as (k & _ & _ & _ & Hb0).
      destruct Hb0. apply (ai_inj _ _ _ _ Hinv); [done|lia|congruence]. }
  destruct (Hall a Ha) as [j Hj].
  destruct (ai_lss _ _ _ _ Hinv _ _ Hj) as (Hjv & Hjs).
  rewrite decide_False in Hjs by done. destruct Hjs as [Hsuf Hlen].
  destruct (aho_longest _ _ _ _ Haho (length (pth a)) a (Nat.le_refl _))
    as (Hlong & _).
  pose proof Hj as Hj'.
  unfold lss_of in Hj. destruct (heap t !! a) as [st|] eqn:Hst; [|done].
  simpl in Hj.
  destruct (IH (length (pth j)) ltac:(lia) j) as (kl & [F HF] & Hd & Hcov);
    [done|done|].
  assert (desc ci ks (pth a) (length (pth a)) kl) as Hd'.
  { eapply desc_mono; [done| |done]. lia. }
  assert (∀ b sb, b < length (heap t) → pth b `suffix_of` pth a → b ≠ a →
            heap t !! b = Some sb → success sb = true →
            ∃ k, matched_keyword sb = Some k ∧ k ∈ kl) as Hrest.
  { intros b sb Hb Hbs Hba Hsb Hs. apply (Hcov b sb); try done.
    by apply (Hlong j b). }
  destruct (success st) eqn:Hsucc.
  - destruct (ai_match _ _ _ _ Hinv _ _ Hst Hsucc) as (k & Hk & Hin & Hnk & _).
    exists (k :: kl). split_and!.
    + exists (S F). intros [|fuel] ret_ Hf; [lia|].
      rewrite (emit_loop_step _ _ _ _ _ Hne Hst), Hj, Hsucc, Hk.
      rewrite HF by lia. by rewrite <- app_assoc.
    + simpl. rewrite Hnk. split_and!; try done; [|lia].
      intros Hnil. rewrite Hnil in Hlen. simpl in Hlen. lia.
    + intros b sb Hb Hbs Hsb Hs. destruct (decide (b = a)) as [->|Hba].
      * exists k. split; [congruence|left].
      * destruct (Hrest b sb) as (k' & ? & ?); try done.
        exists k'. split; [done|by right].
  - exists kl. split_and!.
    + exists (S F). intros [|fuel] ret_ Hf; [lia|].
      rewrite (emit_loop_step _ _ _ _ _ Hne Hst), Hj, Hsucc.
      apply HF. lia.
    + eapply desc_mono; [done| |done]. lia.
    + intros b sb Hb Hbs Hsb Hs. destruct (decide (b = a)) as [->|Hba].
      * congruence.
      * by apply (Hrest b sb).
Qed.

Lemma scan_loop_exact ci ks pth t :
  aho ci ks pth (heap t) →
  ∀ text pre cur ret_, tracks pth (heap t) pre cur →
  ∃ occ,
    (∃ F, ∀ fuel, F ≤ fuel →
       scan_loop fuel text cur ret_ t =
       (Ok (ret_ ++ ((λ x, Some x.2) <$> occ)), t)) ∧
    (∀ x, x ∈ occ →
       last_form ci ks x.2 ∧ length pre ≤ x.1 ∧
       occurs_at ci x.2 (pre ++ text) x.1) ∧
    StronglySorted (before ci) occ ∧
    (∀ k i, k ∈ ks → length pre ≤ i → occurs_at ci k (pre ++ text) i →
       ∃ k', (i, k') ∈ occ ∧ normk ci k' = normk ci k).
Proof.
  intros Haho. pose proof Haho as (Hfin & _ & Hspell).
  pose proof Hfin as ((Hinv & H0 & Hdone) & Hall).
  destruct (ai_root _ _ _ _ Hinv) as (_ & zero & Hzero & _).
  induction text as [|c text IH]; intros pre cur ret_ Htr.
  { exists []. split_and!.
    - exists 0. intros fuel _. simpl. unfold ret. by rewrite app_nil_r.
    - intros x Hx. by apply elem_of_nil in Hx.
    - constructor.
    - intros k i _ Hi (Hlt & _). rewrite app_nil_r in Hlt. lia. }
  pose proof Htr as (Hcur & Hsuf & _).
  apply lookup_lt_is_Some_2 in Hcur as [sc Hsc].
  pose proof (step_tracks _ _ _ _ _ _ _ c _ Haho Hzero Hsc Htr) as Htr'.
  set (cur' := step zero sc c) in *.
  pose proof Htr' as (Hv & Hs & Hmax).
  destruct (emit_loop_exact _ _ _ _ Haho (length (pth cur')) cur')
    as (kl & [F1 HF1] & Hd & Hcov); [done|done|].
  destruct (IH (pre ++ [c]) cur' (ret_ ++ (Some <$> kl)) Htr')
    as (occ & [F2 HF2] & Hocc & Hsorted & Hcomp).
  exists (((λ k, (length pre, k)) <$> kl) ++ occ). split_and!.
  - exists (max F1 F2). intros fuel Hf. simpl.
    rewrite (bind_ok _ _ _ _ _ (deref_ok _ _ _ Hsc)).
    rewrite (bind_ok _ _ _ _ _ (deref_ok _ _ _ Hzero)).
    fold cur'. rewrite (bind_ok _ _ _ _ _ (HF1 fuel ret_ ltac:(lia))).
    rewrite HF2 by lia. rewrite fmap_app, <- list_fmap_compose.
    by rewrite app_assoc.
  - intros x [Hx|Hx]%elem_of_app.
    + apply list_elem_of_fmap in Hx as (k & -> & Hk). simpl.
      destruct (desc_elem _ _ _ _ _ _ Hd Hk) as (? & Hks & ? & _).
      split_and!; try done. split_and!; try done.
      * rewrite length_app. simpl. lia.
      * rewrite (cons_middle c pre text), app_assoc.
        rewrite take_app_length' by (rewrite length_app; simpl; lia).
        by etrans.
    + destruct (Hocc x Hx) as (? & Hle & Hoc).
      rewrite length_app in Hle. simpl in Hle.
      rewrite <- app_assoc in Hoc. split_and!; [done|lia|done].
  - apply StronglySorted_app_2; [|by eapply desc_sorted|done].
    intros x1 x2 (k & -> & Hk)%list_elem_of_fmap Hx2.
    destruct (Hocc x2 Hx2) as (_ & Hle & _).
    rewrite length_app in Hle. simpl in Hle. left. simpl. lia.
  - intros k i Hk Hi Hoc. destruct (decide (i = length pre)) as [->|Hne].
    + destruct Hoc as (_ & Hnn & Hks).
      rewrite (cons_middle c pre text), app_assoc in Hks.
      rewrite take_app_length' in Hks by (rewrite length_app; simpl; lia).
      destruct (Hspell k Hk Hnn) as (b & sb & Hsb & Hpb & Hsucc).
      assert (b < length (heap t)) as Hb by by eapply lookup_lt_Some.
      destruct (Hcov b sb) as (k' & Hm & Hin); try done.
      { apply Hmax; [done|]. by rewrite Hpb. }
      destruct (ai_match _ _ _ _ Hinv _ _ Hsb Hsucc) as (k'' & Hm' & _ & Hn & _).
      assert (k'' = k') as -> by congruence.
      exists k'. split; [|congruence].
      apply elem_of_app. left. apply list_elem_of_fmap. by exists k'.
    + destruct (Hcomp k i Hk) as (k' & Hin & Hn).
      { rewrite length_app. simpl. lia. }
      { by rewrite <- app_assoc. }
      exists k'. split; [|done]. apply elem_of_app. by right.
Qed.

Lemma last_form_inj ci ks k k' :
  last_form ci ks k → last_form ci ks k' → normk ci k = normk ci k' → k = k'.
Proof.
  intros (l1 & l2 & -> & Hl) (l1' & l2' & Heq & Hl') Hn.
  revert l1' Heq. induction l1 as [|x l1 IH]; intros [|x' l1'] Heq;
    simplify_eq/=; try done.
  - destruct (Hl k'); [|done]. rewrite elem_of_app, elem_of_cons. auto.
  - destruct (Hl' k); [|done]. rewrite elem_of_app, elem_of_cons. auto.
  - by apply (IH l1').
Qed.

Lemma tracks_root ci ks pth h :
  auto_inv ci ks pth h → tracks pth h [] 0.
Proof.
  intros Hinv. destruct (ai_root _ _ _ _ Hinv) as (Hp0 & st0 & Hst0 & _).
  split_and!.
  - by eapply lookup_lt_Some.
  - by rewrite Hp0.
  - intros b _ Hb. by rewrite Hp0.
Qed.

(** the reports of [search_all] are the occurrences of the keywords, each
    in the form added last *)
Lemma search_all_exact ci ks pth t text :
  _finalized t = true → _case_insensitive t = ci →
  aho ci ks pth (heap t) →
  ∃ occ,
    (∃ F, ∀ fuel, F ≤ fuel →
       search_all fuel text t = (Ok ((λ x, Some x.2) <$> occ), t)) ∧
    StronglySorted (before ci) occ ∧
    ∀ i k, (i, k) ∈ occ ↔
      last_form ci ks k ∧ occurs_at ci k (normk ci text) i.
Proof.
  intros Hf Hci Haho. pose proof Haho as (((Hinv & _) & _) & _).
  destruct (scan_loop_exact _ _ _ _ Haho (normk ci text) [] 0 []
              (tracks_root _ _ _ _ Hinv))
    as (occ & [F HF] & Hocc & Hsorted & Hcomp).
  exists occ. split_and!; try done.
  - exists F. intros fuel Hfuel. unfold search_all. rewrite Hf, Hci. simpl.
    by apply HF.
  - intros i k. split.
    + intros Hin. by destruct (Hocc _ Hin) as (? & _ & ?).
    + intros [Hl Ho].
      destruct (Hcomp k i) as (k' & Hin & Hn);
        [by eapply last_form_elem|simpl; lia|done|].
      destruct (Hocc _ Hin) as (Hl' & _). simpl in Hl'.
      by rewrite (last_form_inj _ _ _ _ Hl Hl' (eq_sym Hn)).
Qed.

(** the order of the reports leaves one list only for a set of reports *)
Lemma before_asym ci x y : before ci x y → before ci y x → False.
Proof. unfold before. lia. Qed.

Lemma sorted_before_NoDup ci l : StronglySorted (before ci) l → NoDup l.
Proof.
  induction 1 as [|x l _ IH Hx]; [constructor|]. constructor; [|done].
  intros Hin. rewrite Forall_forall in Hx.
  by apply (before_asym ci x x); apply Hx.
Qed.

Lemma sorted_before_unique ci l1 l2 :
  StronglySorted (before ci) l1 → StronglySorted (before ci) l2 →
  (∀ x, x ∈ l1 ↔ x ∈ l2) → l1 = l2.
Proof.
  intros H1 H2 Heq. apply (StronglySorted_unique_strong (before ci)); try done.
  - intros x1 x2 _ _ Hb Hb'. by destruct (before_asym _ _ _ Hb Hb').
  - apply NoDup_Permutation; [by eapply sorted_before_NoDup..|done].
Qed.

(** ** [search_all] against the search of every substring

    The reference matcher looks every substring of the text up among the
    keywords: for each index of the text in turn, the substrings that end
    there, the longest first. *)

(** the keyword added last among those that the tree stores as [w] *)
Definition last_with (ci : bool) (ks : list string) (w : list ascii)
    : option string :=
  last (filter (λ k, normk ci k = w) ks).

(** what the substrings of [w] that end at the index [i] give *)
Definition reports_at (ci : bool) (ks : list string) (w : list ascii)
    (i : nat) : list string :=
  omap (λ j, last_with ci ks (drop j (take (S i) w))) (seq 0 (S i)).

Definition naive_search (ci : bool) (ks : list string) (text : string)
    : list string :=
  let w := normk ci text in
  i ← seq 0 (length w); reports_at ci ks w i.

(** the reports with the index at which they end *)
Definition naive_occ (ci : bool) (ks : list string) (w : list ascii)
    : list (nat * string) :=
  i ← seq 0 (length w); (λ k, (i, k)) <$> reports_at ci ks w i.

Lemma last_form_snoc_inv ci ks x k :
  last_form ci (ks ++ [x]) k → normk ci x ≠ normk ci k → last_form ci ks k.
Proof.
  intros (l1 & l2 & Heq & Hl) Hne.
  destruct l2 as [|y l2 _] using rev_ind.
  - apply app_inj_tail in Heq as [_ ->]. done.
  - rewrite app_comm_cons, app_assoc in Heq.
    apply app_inj_tail in Heq as [-> ->].
    exists l1, l2. split; [done|]. intros k' Hk'. apply Hl.
    rewrite elem_of_app. by left.
Qed.

Lemma last_with_spec ci ks w k :
  last_with ci ks w = Some k ↔ last_form ci ks k ∧ normk ci k = w.
Proof.
  unfold last_with. induction ks as [|x ks IH] using rev_ind.
  { simpl. split; [done|]. intros [Hl _]. apply last_form_elem in Hl.
    by apply elem_of_nil in Hl. }
  rewrite filter_app, filter_cons, filter_nil.
  destruct (decide (normk ci x = w)) as [Hx|Hx].
  - rewrite last_snoc. split.
    + intros [= <-]. split; [apply last_form_last|done].
    + intros [Hl Hk]. f_equal. symmetry.
      apply (last_form_unique ci ks); [done|congruence].
  - rewrite app_nil_r, IH. split; intros [Hl Hk]; (split; [|done]).
    + apply last_form_snoc; [done|congruence].
    + eapply last_form_snoc_inv; [done|congruence].
Qed.

Lemma reports_at_elem ci ks w i k :
  i < length w →
  k ∈ reports_at ci ks w i ↔ last_form ci ks k ∧ occurs_at ci k w i.
Proof.
  intros Hi. unfold reports_at. rewrite list_elem_of_omap.
  assert (length (take (S i) w) = S i) as Hlen by (rewrite length_take; lia).
  split.
  - intros (j & Hj%elem_of_seq & [Hl Hk]%last_with_spec).
    split; [done|]. split_and!; [done| |].
    + intros Hnil. apply (f_equal length) in Hk.
      rewrite Hnil, length_drop, Hlen in Hk. simpl in Hk. lia.
    + rewrite Hk. apply suffix_drop.
  - intros (Hl & _ & Hne & [pre Hpre]).
    exists (length pre). split.
    + apply elem_of_seq. apply (f_equal length) in Hpre.
      rewrite Hlen, length_app in Hpre.
      assert (length (normk ci k) ≠ 0) by by rewrite length_zero_iff_nil.
      lia.
    + apply last_with_spec. split; [done|].
      by rewrite Hpre, drop_app_length.
Qed.

Lemma reports_at_sorted ci ks w i :
  i < length w →
  StronglySorted (before ci) ((λ k, (i, k)) <$> reports_at ci ks w i).
Proof.
  intros Hi. unfold reports_at.
  assert (length (take (S i) w) = S i) as Hlen by (rewrite length_take; lia).
  set (f := λ j, last_with ci ks (drop j (take (S i) w))).
  assert (∀ j k, f j = Some k → length (normk ci k) = S i - j) as Hf.
  { intros j k [_ Hk]%last_with_spec.
    by rewrite Hk, length_drop, Hlen. }
  assert (∀ n a, a + n ≤ S i →
    StronglySorted (before ci) ((λ k, (i, k)) <$> omap f (seq a n))) as Hgen;
    [|by apply Hgen].
  induction n as [|n IH]; intros a Han; simpl; [constructor|].
  destruct (f a) as [k|] eqn:Hk; [|apply IH; lia]. simpl.
  constructor; [apply IH; lia|]. apply Forall_forall.
  intros x (k' & -> & (j & Hj%elem_of_seq & Hk')%list_elem_of_omap)%list_elem_of_fmap.
  right. simpl. split; [done|].
  rewrite (Hf _ _ Hk), (Hf _ _ Hk'). lia.
Qed.

Lemma naive_occ_elem ci ks w i k :
  (i, k) ∈ naive_occ ci ks w ↔ last_form ci ks k ∧ occurs_at ci k w i.
Proof.
  unfold naive_occ. rewrite list_elem_of_bind. split.
  - intros (i' & (k' & [= <- <-] & Hk)%list_elem_of_fmap & Hi%elem_of_seq).
    apply reports_at_elem; [lia|done].
  - intros [Hl Ho]. pose proof Ho as (Hi & _). exists i. split.
    + apply list_elem_of_fmap. exists k. split; [done|].
      by apply reports_at_elem.
    + apply elem_of_seq. lia.
Qed.

Lemma naive_occ_sorted ci ks w : StronglySorted (before ci) (naive_occ ci ks w).
Proof.
  unfold naive_occ.
  assert (∀ n a, a + n ≤ length w →
    StronglySorted (before ci)
      (i ← seq a n; (λ k, (i, k)) <$> reports_at ci ks w i)) as Hgen;
    [|by apply Hgen].
  induction n as [|n IH]; intros a Han; simpl; [constructor|].
  apply StronglySorted_app_2; [|apply reports_at_sorted; lia|apply IH; lia].
  intros x1 x2 (k & -> & _)%list_elem_of_fmap
    (i' & (k' & -> & _)%list_elem_of_fmap & Hi%elem_of_seq)%list_elem_of_bind.
  left. simpl. lia.
Qed.

Lemma naive_occ_search ci ks text :
  (λ x, x.2) <$> naive_occ ci ks (normk ci text) = naive_search ci ks text.
Proof.
  unfold naive_occ, naive_search. simpl.
  induction (seq 0 (length (normk ci text))) as [|i l IH]; [done|].
  rewrite !bind_cons, fmap_app, IH, <- list_fmap_compose. f_equal.
  by rewrite list_fmap_id.
Qed.

(** on the finalized automaton [search_all] returns what the reference
    matcher returns *)
Lemma search_all_naive ci ks pth t text :
  _finalized t = true → _case_insensitive t = ci →
  aho ci ks pth (heap t) →
  ∃ F, ∀ fuel, F ≤ fuel →
    search_all fuel text t = (Ok (Some <$> naive_search ci ks text), t).
Proof.
  intros Hf Hci Haho.
  destruct (search_all_exact ci ks pth t text Hf Hci Haho)
    as (occ & [F HF] & Hsorted & Hocc).
  assert (occ = naive_occ ci ks (normk ci text)) as ->.
  { apply (sorted_before_unique ci); [done|apply naive_occ_sorted|].
    intros [i k]. by rewrite Hocc, naive_occ_elem. }
  exists F. intros fuel Hfuel. rewrite (HF fuel Hfuel).
  by rewrite <- naive_occ_search, <- list_fmap_compose.
Qed.

(** ** The word of a state *)

(** the symbols from the root to the state [a], read off the parents *)
Fixpoint word_fuel (n : nat) (h : list State) (a : ref) : list ascii :=
  match n with
  | 0 => []
  | S n' =>
      match h !! a with
      | Some st =>
          match parent st, symbol st with
          | Some p, Some c => word_fuel n' h p ++ [c]
          | _, _ => []
          end
      | None => []
      end
  end.

Definition word_of (h : list State) (a : ref) : list ascii :=
  word_fuel (length h) h a.

Lemma word_fuel_pth ci ks pth h :
  auto_inv ci ks pth h →
  ∀ n a, a < n → a < length h → word_fuel n h a = pth a.
Proof.
  intros Hinv. destruct (ai_root _ _ _ _ Hinv) as (Hp0 & st0 & Hst0 & Hpa & _).
  induction n as [|n IH]; intros a Han Ha; [lia|]. simpl.
  destruct (decide (a = 0)) as [->|Hne].
  { by rewrite Hst0, Hpa, Hp0. }
  destruct (auto_inv_node _ _ _ _ _ Hinv Ha Hne)
    as (st & p & c & Hst & Hp & Hc & _ & _ & Hlt & _ & Hpth).
  rewrite Hst, Hp, Hc, Hpth, IH; [done|lia|lia].
Qed.

Lemma word_of_pth ci ks pth h a :
  auto_inv ci ks pth h → a < length h → word_of h a = pth a.
Proof. intros Hinv Ha. by apply (word_fuel_pth ci ks pth h Hinv). Qed.

Lemma last_form_exists ci ks k :
  k ∈ ks → ∃ k', last_form ci ks k' ∧ normk ci k' = normk ci k.
Proof.
  intros Hk.
  destruct (last_with ci ks (normk ci k)) as [k'|] eqn:Hl.
  { exists k'. by apply last_with_spec. }
  unfold last_with in Hl.
  assert (k ∈ filter (λ k0, normk ci k0 = normk ci k) ks) as Hin
    by by apply list_elem_of_filter.
  apply last_None in Hl. rewrite Hl in Hin. by apply elem_of_nil in Hin.
Qed.

(** ** The states of a tree built by [add] *)

Lemma word_of_mark h n st k a :
  h !! n = Some st → word_of (<[n := with_match k st]> h) a = word_of h a.
Proof.
  intros Hn. unfold word_of. rewrite length_insert.
  generalize (length h). intros m. revert a.
  induction m as [|m IH]; intros a; [done|].
  cbn [word_fuel]. destruct (decide (a = n)) as [->|Hne].
  - rewrite list_lookup_insert_eq by by eapply lookup_lt_Some.
    rewrite Hn. cbn [parent symbol with_match].
    destruct (parent st), (symbol st); try done. by rewrite IH.
  - rewrite list_lookup_insert_ne by done.
    destruct (h !! a) as [sa|]; [|done].
    destruct (parent sa), (symbol sa); try done. by rewrite IH.
Qed.

(** the states that the loop of [add] creates spell the prefixes of the
    keyword *)
Lemma add_loop_new cs : ∀ cur t ks pth n t',
  build_inv ks pth t → cur < length (heap t) →
  add_loop cs cur t = (Ok n, t') →
  ∀ a, length (heap t) ≤ a → a < length (heap t') →
    ∃ cs1, cs1 `prefix_of` cs ∧ word_of (heap t') a = pth cur ++ cs1.
Proof.
  induction cs as [|char cs IH]; intros cur t ks pth n t' Hb Hcur; simpl.
  { intros [= _ <-] a ? ?. lia. }
  pose proof Hb as (Hinv & Hnone & Hcnt & Hfin).
  apply lookup_lt_is_Some_2 in Hcur as Hst. destruct Hst as [st Hst].
  rewrite (bind_ok _ _ _ _ _ (deref_ok _ _ _ Hst)).
  destruct (dict_get char (transitions st)) as [next_state|] eqn:Hget.
  - apply dict_get_elem in Hget.
    rewrite <- (entries_lookup _ _ _ Hst) in Hget.
    destruct (ai_tr _ _ _ _ Hinv _ _ _ Hget) as (Hlt & _ & _).
    pose proof (ai_fresh _ _ _ _ Hinv _ _ _ (Hnone cur) Hget) as Hpar.
    pose proof (child_path _ _ _ _ _ _ _ Hinv Hget Hpar) as Hpth.
    intros Hrun a Ha Ha'.
    destruct (IH next_state t ks pth n t' Hb Hlt Hrun a Ha Ha')
      as (cs1 & Hpre & Hw).
    exists (char :: cs1). split; [by apply prefix_cons|].
    by rewrite Hw, Hpth, <- app_assoc.
  - rewrite (add_loop_create _ t cur st char Hst Hcnt Hget).
    set (t1 := {| heap := extend (heap t) cur char;
                  _counter := length (heap t) + 1;
                  _finalized := _finalized t;
                  _case_insensitive := _case_insensitive t |}) in *.
    set (pth1 := extend_pth (heap t) cur char pth).
    assert (build_inv ks pth1 t1) as Hb1.
    { split_and!; simpl.
      - by eapply extend_inv.
      - intros a. by rewrite (extend_lss_of _ _ _ _ Hst).
      - rewrite (extend_length _ _ _ _ Hst). lia.
      - done. }
    assert (length (heap t1) = S (length (heap t))) as Hlen1.
    { simpl. by rewrite (extend_length _ _ _ _ Hst). }
    assert (length (heap t) < length (heap t1)) as Hlt1 by lia.
    assert (pth1 (length (heap t)) = pth cur ++ [char]) as Hnew
      by apply extend_pth_new.
    intros Hrun a Ha Ha'.
    destruct (decide (a = length (heap t))) as [->|Hne].
    + destruct (add_loop_spec cs _ t1 ks pth1 Hb1 Hlt1)
        as (n' & t'' & pth' & Hrun' & (Hinv' & _) & _ & _ & Hold & _).
      rewrite Hrun in Hrun'. simplify_eq.
      exists [char]. split; [apply prefix_cons, prefix_nil|].
      rewrite (word_of_pth _ _ _ _ _ Hinv' Ha'), Hold by done. done.
    + destruct (IH _ t1 ks pth1 n t' Hb1 Hlt1 Hrun a ltac:(lia) Ha')
        as (cs1 & Hpre & Hw).
      exists (char :: cs1). split; [by apply prefix_cons|].
      by rewrite Hw, Hnew, <- app_assoc.
Qed.

(** the word of every state of a tree built by [add] is a prefix of a
    keyword as the tree stores it *)
Lemma built_words ci ks : ∀ a,
  a < length (heap (built ci ks)) → a ≠ 0 →
  ∃ k, k ∈ ks ∧ word_of (heap (built ci ks)) a `prefix_of` normk ci k.
Proof.
  induction ks as [|k0 ks IH] using rev_ind.
  { intros [|a] Ha Hne; [done|]. simpl in Ha. lia. }
  destruct (built_spec ci ks) as (_ & Hci & pth & Hb).
  pose proof (built_snoc ci ks k0) as Hadd.
  pose proof Hb as (Hinv & _ & _ & Hfin).
  destruct (ai_root _ _ _ _ Hinv) as (Hp0 & st0 & Hst0 & _).
  assert (0 < length (heap (built ci ks))) as H0v
    by by eapply lookup_lt_Some.
  assert (∀ a, a < length (heap (built ci ks)) → a ≠ 0 →
            ∃ k, k ∈ ks ++ [k0] ∧
                 word_of (heap (built ci ks)) a `prefix_of` normk ci k)
    as IH'.
  { intros a Ha Hne. destruct (IH a Ha Hne) as (k & Hk & Hpre).
    exists k. split; [|done]. rewrite elem_of_app. by left. }
  revert Hadd. generalize (built ci (ks ++ [k0])). intros t'.
  unfold add. rewrite Hfin, Hci.
  destruct (String.length _ <=? 0); [by intros [= <-]|].
  change (chars (if ci then lower k0 else k0)) with (normk ci k0).
  destruct (add_loop_spec (normk ci k0) 0 _ ks pth Hb H0v)
    as (n & t1 & pth' & Hrun & (Hinv1 & _) & Hn & _ & Hold & Hle & _).
  rewrite (bind_ok _ _ _ _ _ Hrun).
  apply lookup_lt_is_Some_2 in Hn as [st Hst].
  rewrite (modify_ok _ _ _ _ Hst). intros [= <-]. simpl.
  rewrite length_insert. intros a Ha Hne.
  rewrite (word_of_mark _ _ _ _ _ Hst).
  destruct (decide (a < length (heap (built ci ks)))) as [Hold'|Hnew].
  + destruct (IH' a Hold' Hne) as (k & Hk & Hpre). exists k.
    split; [done|].
    rewrite (word_of_pth _ _ _ _ _ Hinv1 Ha), Hold by done.
    by rewrite <- (word_of_pth _ _ _ _ _ Hinv Hold').
  + destruct (add_loop_new _ 0 _ ks pth n t1 Hb H0v Hrun a ltac:(lia) Ha)
      as (cs1 & Hpre & Hw).
    exists k0. split; [rewrite elem_of_app, list_elem_of_singleton; auto|].
    by rewrite Hw, Hp0.
Qed.

(** no path is longer than the longest keyword, as the tree stores it *)
Lemma built_deep_enough ci ks pth :
  build_inv ks pth (built ci ks) →
  deep_enough pth (heap (built ci ks))
    (max_list ((λ k, length (normk ci k)) <$> ks)).
Proof.
  intros Hb a Ha. destruct (built_spec ci ks) as (_ & Hci & _).
  pose proof Hb as (Hinv & _). rewrite Hci in Hinv.
  destruct (decide (a = 0)) as [->|Hne].
  { destruct (ai_root _ _ _ _ Hinv) as (-> & _). simpl. lia. }
  destruct (built_words ci ks a Ha Hne) as (k & Hk & Hpre).
  rewrite (word_of_pth _ _ _ _ _ Hinv Ha) in Hpre.
  apply prefix_length in Hpre. etrans; [done|].
  apply max_list_elem_of_le, list_elem_of_fmap. by exists k.
Qed.

(** * C9: [finalize] and the recursion of [search_lss] *)

(** C9 as stated fails: the recursion of [search_lss] is on the stack of
    the interpreter. For the keywords ab, cab, ccab, cccab the call for the
    state of cccab calls itself for ccab, cab and ab, one call inside the
    other: with three frames left [finalize] raises RecursionError, the
    tree is not finalized and is left partly linked (the state of ab, at
    2, has no suffix link, the state of cccab, at 11, has one); with four
    frames it returns normally. *)
Lemma finalize_recursion_counterexample :
  let ks := ["ab"; "cab"; "ccab"; "cccab"] in
  let r := finalize 3 (built false ks) in
  r.1 = Raise RecursionError ∧ _finalized r.2 = false ∧
  lss_of (heap r.2) 2 = None ∧ lss_of (heap r.2) 11 = Some 8 ∧
  (finalize 4 (built false ks)).1 = Ok tt.
Proof. split_and!; by vm_compute. Qed.

(** the keywords ab, cab, ccab, ...: [k] of them *)
Definition chain_keywords (k : nat) : list string :=
  (λ i, string_of_list_ascii (replicate i "c"%char ++ ["a"; "b"]%char))
    <$> seq 0 k.

(** the first [k] keywords of this shape take [k] frames, for every [k] up
    to 30: with one frame less [finalize] raises RecursionError *)
Lemma chain_keywords_frames :
  (λ k, ((finalize (k - 1) (built false (chain_keywords k))).1,
         (finalize k (built false (chain_keywords k))).1)) <$> seq 1 30
  = replicate 30 (Raise RecursionError, Ok tt).
Proof. by vm_compute. Qed.

(** C9, amended. For the tree built by any sequence of [add], [finalize]
    returns normally, with the tree finalized, whenever the interpreter
    leaves to the recursion of [search_lss] as many frames as the longest
    keyword has symbols (as the tree stores it): the search for a suffix,
    the recursive resolution of suffixes and the traversal all come to an
    end. Whatever the number of frames, [finalize] returns so or raises
    RecursionError, which leaves the tree not finalized. *)
Theorem finalize_outcomes (ci : bool) (ks : list string) :
  let longest := max_list ((λ k, length (normk ci k)) <$> ks) in
  ∃ t', _finalized t' = true ∧
    (∀ fuel, longest ≤ fuel → finalize fuel (built ci ks) = (Ok tt, t')) ∧
    (∀ fuel,
       finalize fuel (built ci ks) = (Ok tt, t') ∨
       ∃ t'', finalize fuel (built ci ks) = (Raise RecursionError, t'') ∧
              _finalized t'' = false).
Proof.
  simpl. destruct (built_spec ci ks) as (_ & Hci & pth & Hb).
  destruct (finalize_frames ks pth _ Hb) as (h' & HF & _).
  assert (∀ fuel, max_list ((λ k, length (normk ci k)) <$> ks) ≤ fuel →
            finalize fuel (built ci ks)
            = (Ok tt, finalized_with h' (built ci ks))) as Hok.
  { intros fuel Hfuel. apply HF. intros a Ha.
    etrans; [by apply (built_deep_enough ci ks pth)|done]. }
  exists (finalized_with h' (built ci ks)). split_and!; [done|done|].
  intros fuel.
  set (F := max fuel (max_list ((λ k, length (normk ci k)) <$> ks))).
  destruct (finalize_cut_short fuel F (built ci ks) ltac:(lia))
    as [Heq|[t'' Hr]].
  - left. rewrite Heq. apply Hok. lia.
  - right. exists t''. split; [done|].
    rewrite (finalize_flag _ _ _ _ Hr). apply built_not_finalized.
Qed.

(** * C10: keywords that differ in the case of their letters *)

Lemma chars_inj k k' : chars k = chars k' → k = k'.
Proof.
  intros H. rewrite <- (string_of_list_ascii_of_string k),
    <- (string_of_list_ascii_of_string k'). by rewrite H.
Qed.

(** the state at the end of the path of a keyword holds the form added last
    among the keywords stored along this path *)
Lemma built_node ci ks k :
  k ∈ ks → normk ci k ≠ [] →
  ∃ a st k',
    follow (heap (built ci ks)) 0 (normk ci k) = Some a ∧
    heap (built ci ks) !! a = Some st ∧ success st = true ∧
    matched_keyword st = Some k' ∧ last_form ci ks k' ∧
    normk ci k' = normk ci k.
Proof.
  intros Hk Hne.
  destruct (built_terminal ci ks k Hk Hne) as (a & st & Hfol & Hst & Hs).
  destruct (built_spec ci ks) as (_ & Hci & pth & Hb).
  pose proof Hb as (Hinv & _). rewrite Hci in Hinv.
  destruct (ai_root _ _ _ _ Hinv) as (Hp0 & st0 & Hst0 & _).
  assert (0 < length (heap (built ci ks))) as H0v by by eapply lookup_lt_Some.
  destruct (follow_build _ _ _ Hb (normk ci k) 0 a H0v Hfol) as [_ Hpa].
  rewrite Hp0 in Hpa. simpl in Hpa.
  destruct (ai_match _ _ _ _ Hinv _ _ Hst Hs) as (k' & Hk' & Hl & Hn & _).
  exists a, st, k'. split_and!; try done. congruence.
Qed.

Lemma built_grows ci ks ks' :
  grows (heap (built ci ks)) (heap (built ci (ks ++ ks'))).
Proof.
  induction ks' as [|k ks' IH] using rev_ind.
  { rewrite app_nil_r. apply grows_refl. }
  destruct (built_spec ci (ks ++ ks')) as (_ & _ & pth & Hb).
  pose proof (built_snoc ci (ks ++ ks') k) as Hadd.
  rewrite <- app_assoc in Hadd.
  eapply grows_trans; [done|]. by eapply add_grows.
Qed.

Lemma occurs_occurs_at ci k text :
  occurs ci k text = true → ∃ i, occurs_at ci k (normk ci text) i.
Proof.
  unfold occurs. intros [Hne Hex]%andb_true_iff.
  apply bool_decide_eq_true in Hne.
  apply existsb_exists in Hex as (i & Hi%in_seq & Hsuf).
  apply bool_decide_eq_true in Hsuf. exists i. split_and!; [lia|done|done].
Qed.

(** what C10 says of the keywords [k1] and [k2], added in this order to a
    case-insensitive tree, whatever is added before ([ks1]), in between
    ([ks2]) and afterwards ([ks3]) *)
Definition overwrites (ks1 ks2 ks3 : list string) (k1 k2 text : string)
    : Prop :=
  let t1 := built true (ks1 ++ [k1]) in
  let tb := built true (ks1 ++ k1 :: ks2) in
  let t2 := snd (add k2 tb) in
  let ks := ks1 ++ k1 :: ks2 ++ k2 :: ks3 in
  (* one state ends both: the path of [k2] leads to the state at which the
     path of [k1] ended when [k1] was added, and still does when all the
     keywords are added; the state holds the form added last so far, and
     the [add] of [k2] only overwrites what it holds *)
  (∃ n st k',
     follow (heap t1) 0 (chars (lower k1)) = Some n ∧
     follow (heap tb) 0 (chars (lower k2)) = Some n ∧
     follow (heap t2) 0 (chars (lower k2)) = Some n ∧
     follow (heap (built true ks)) 0 (chars (lower k2)) = Some n ∧
     heap tb !! n = Some st ∧ success st = true ∧
     matched_keyword st = Some k' ∧ lower k' = lower k1 ∧
     ((∀ k, k ∈ ks2 → lower k ≠ lower k1) → k' = k1) ∧
     add k2 tb = (Ok tt, with_heap (<[n := with_match k2 st]> (heap tb)) tb)) ∧
  t2 = built true (ks1 ++ k1 :: ks2 ++ [k2]) ∧
  (* and from then on every report of this keyword is in the form added
     last *)
  ∃ F, ∀ n, ∃ rs,
    search_all (F + n) text (automaton (F + n) true ks)
      = (Ok (Some <$> rs), automaton (F + n) true ks) ∧
    (∀ r, r ∈ rs → lower r = lower k2 →
       last_with true ks (chars (lower k2)) = Some r ∧
       ((∀ k, k ∈ ks3 → lower k ≠ lower k2) → r = k2)) ∧
    (occurs true k2 text = true → ∃ r, r ∈ rs ∧ lower r = lower k2).

(** C10. In a case-insensitive automaton, two keywords that differ only in
    the case of their letters end at the same state, wherever they stand
    among the keywords added; adding the second overwrites the original
    text stored there, and every match of the keyword is reported, in the
    form added last. *)
Theorem case_variants (ks1 ks2 ks3 : list string) (k1 k2 text : string) :
  lower k1 = lower k2 → k1 ≠ "" → overwrites ks1 ks2 ks3 k1 k2 text.
Proof.
  intros Hlow Hne. unfold overwrites.
  assert (∀ k k', normk true k = normk true k' ↔ lower k = lower k') as Hnl.
  { intros k k'. unfold normk. split; [apply chars_inj|by intros ->]. }
  assert (normk true k1 = normk true k2) as Hnorm by by apply Hnl.
  assert (normk true k1 ≠ []) as Hnn.
  { intros Hnil. apply (f_equal length) in Hnil.
    rewrite normk_length in Hnil. by destruct k1. }
  change (chars (lower k1)) with (normk true k1).
  change (chars (lower k2)) with (normk true k2).
  rewrite <- Hnorm.
  set (tb := built true (ks1 ++ k1 :: ks2)).
  destruct (built_node true (ks1 ++ [k1]) k1) as (n & st1 & _ & Hfol1 & _);
    [set_solver|done|].
  destruct (built_node true (ks1 ++ k1 :: ks2) k1)
    as (n' & st & k' & Hfolb & Hst & Hs & Hk' & Hl' & Hn'); [set_solver|done|].
  fold tb in Hfolb, Hst.
  assert (n' = n) as ->.
  { pose proof (built_grows true (ks1 ++ [k1]) ks2) as Hg.
    rewrite <- app_assoc in Hg. simpl in Hg.
    pose proof (grows_follow _ _ Hg _ _ _ Hfol1) as Hf. fold tb in Hf.
    congruence. }
  destruct (built_spec true (ks1 ++ k1 :: ks2)) as (_ & Hci & pth & Hb).
  fold tb in Hci, Hb. pose proof Hb as (_ & _ & _ & Hfin).
  assert (add k2 tb
          = (Ok tt, with_heap (<[n := with_match k2 st]> (heap tb)) tb))
    as Hadd.
  { unfold add. rewrite Hfin, Hci.
    assert ((String.length (lower k2) <=? 0) = false) as ->.
    { apply Nat.leb_gt. rewrite <- chars_length.
      change (chars (lower k2)) with (normk true k2). rewrite <- Hnorm.
      destruct (normk true k1); [done|simpl; lia]. }
    change (chars (lower k2)) with (normk true k2). rewrite <- Hnorm.
    rewrite (bind_ok _ _ _ _ _ (add_loop_follow _ _ tb _ Hfolb)).
    by apply modify_ok. }
  split_and!.
  - exists n, st, k'. split_and!; try done.
    + rewrite Hadd. simpl.
      by apply (grows_follow _ _ (mark_grows _ _ _ k2 Hst)).
    + pose proof (built_grows true (ks1 ++ k1 :: ks2) (k2 :: ks3)) as Hg.
      rewrite <- app_assoc in Hg. simpl in Hg.
      by apply (grows_follow _ _ Hg).
    + by apply Hnl.
    + intros Hno. apply (last_form_inj true (ks1 ++ k1 :: ks2)); try done.
      exists ks1, ks2. split; [done|]. intros k Hk. rewrite Hnl. by apply Hno.
  - rewrite Hadd. simpl.
    pose proof (built_snoc true (ks1 ++ k1 :: ks2) k2) as Hsn.
    fold tb in Hsn. rewrite Hadd in Hsn. injection Hsn as ->.
    by rewrite <- app_assoc.
  - set (ks := ks1 ++ k1 :: ks2 ++ k2 :: ks3).
    destruct (automaton_aho true ks)
      as (pth2 & t & [F1 HF1] & Hf & Hci2 & _ & _ & _ & Haho).
    destruct (search_all_exact true ks pth2 t text Hf Hci2 Haho)
      as (occ & [F2 HF2] & _ & Hocc).
    exists (max F1 F2). intros m. exists ((λ x, x.2) <$> occ).
    destruct (HF1 (max F1 F2 + m) ltac:(lia)) as [-> _].
    split_and!.
    + rewrite HF2 by lia. by rewrite <- list_fmap_compose.
    + intros r ([i r'] & -> & Hx)%list_elem_of_fmap Hr. simpl in *.
      apply Hocc in Hx as [Hl _]. split.
      * apply last_with_spec. split; [done|]. rewrite Hnorm. by apply Hnl.
      * intros Hno. apply (last_form_inj true ks); try done.
        -- exists (ks1 ++ k1 :: ks2), ks3. split.
           ++ unfold ks. by rewrite <- app_assoc.
           ++ intros k Hk. rewrite Hnl. by apply Hno.
        -- by apply Hnl.
    + intros (i & Ho)%occurs_occurs_at.
      destruct (last_form_exists true ks k2) as (r & Hl & Hn); [set_solver|].
      exists r. split; [|by apply Hnl].
      apply list_elem_of_fmap. exists (i, r). split; [done|].
      apply Hocc. split; [done|]. unfold occurs_at in *. by rewrite Hn.
Qed.

(** the example of the claim, "Cat" and then "CAT", among other keywords *)
Lemma case_variants_example :
  lower "Cat" = lower "CAT" ∧ "Cat" ≠ "" ∧
  overwrites ["at"] ["dog"; "cAt"] ["cats"] "Cat" "CAT" "the cat sat" ∧
  fst (search_all 20 "the cat sat"
         (automaton 20 true ["at"; "Cat"; "dog"; "cAt"; "CAT"; "cats"]))
    = Ok [Some "CAT"; Some "at"; Some "at"].
Proof.
  split; [reflexivity|]. split; [discriminate|].
  split; [apply (case_variants ["at"] ["dog"; "cAt"] ["cats"]
                   "Cat" "CAT" "the cat sat");
          [reflexivity|discriminate]|].
  vm_compute. reflexivity.
Defined.

(** * Further properties of the code *)

(** ** [search_all] *)

(** X1. [search_all] on the finalized automaton misses no occurrence. Its
    result is a list of occurrences in the order [before], and an
    occurrence is in the list exactly when its keyword is the form added
    last of a keyword and ends in the text at its index; so every keyword
    added, the empty one apart, is reported, in the form added last among
    the keywords stored like it, at every index at which it ends. *)
Theorem search_all_complete (ci : bool) (ks : list string) (text : string) :
  ∃ F occ, ∀ n,
    search_all (F + n) text (automaton (F + n) ci ks)
    = (Ok ((λ x, Some x.2) <$> occ), automaton (F + n) ci ks) ∧
    StronglySorted (before ci) occ ∧
    (∀ i k, (i, k) ∈ occ ↔
       last_form ci ks k ∧ occurs_at ci k (normk ci text) i) ∧
    (∀ i k, k ∈ ks → occurs_at ci k (normk ci text) i →
       ∃ k', (i, k') ∈ occ ∧ normk ci k' = normk ci k).
Proof.
  destruct (automaton_aho ci ks)
    as (pth & t & [F1 HF1] & Hf & Hci & _ & _ & _ & Haho).
  destruct (search_all_exact ci ks pth t text Hf Hci Haho)
    as (occ & [F2 HF2] & Hsorted & Hocc).
  exists (max F1 F2), occ. intros n.
  destruct (HF1 (max F1 F2 + n) ltac:(lia)) as [-> _].
  split_and!; [apply HF2; lia|done|done|].
  intros i k Hk Ho.
  destruct (last_form_exists ci ks k Hk) as (k' & Hl & Hn).
  exists k'. split; [|done]. apply Hocc. split; [done|].
  unfold occurs_at in *. by rewrite Hn.
Qed.

(** X2. On the finalized automaton [search_all] returns what the reference
    matcher returns, which looks every substring of the text up among the
    keywords: index by index, the longest substring first, and for a
    substring the keyword added last among those stored as this
    substring. *)
Theorem search_all_reference (ci : bool) (ks : list string) (text : string) :
  ∃ F, ∀ n,
    search_all (F + n) text (automaton (F + n) ci ks)
    = (Ok (Some <$> naive_search ci ks text), automaton (F + n) ci ks).
Proof.
  destruct (automaton_aho ci ks)
    as (pth & t & [F1 HF1] & Hf & Hci & _ & _ & _ & Haho).
  destruct (search_all_naive ci ks pth t text Hf Hci Haho) as [F2 HF2].
  exists (max F1 F2). intros n.
  destruct (HF1 (max F1 F2 + n) ltac:(lia)) as [-> _].
  apply HF2. lia.
Qed.

(** ** [search_lss] and [finalize] *)

(** X3. After [finalize] every state has a suffix link: the root's is the
    root, and the link of another state leads to the state whose word is
    the longest proper suffix of the word of the state among the words of
    the tree. *)
Theorem suffix_links_longest (ci : bool) (ks : list string) :
  ∃ F, ∀ n a,
    let h := heap (automaton (F + n) ci ks) in
    a < length h →
    ∃ j, lss_of h a = Some j ∧ j < length h ∧
      if decide (a = 0) then j = 0
      else
        word_of h j `suffix_of` word_of h a ∧
        length (word_of h j) < length (word_of h a) ∧
        ∀ b, b < length h → word_of h b `suffix_of` word_of h a →
          length (word_of h b) < length (word_of h a) →
          word_of h b `suffix_of` word_of h j.
Proof.
  destruct (automaton_aho ci ks)
    as (pth & t & [F HF] & Hf & Hci & _ & _ & _ & Haho).
  pose proof Haho as (((Hinv & H0 & Hdone) & Hall) & _).
  exists F. intros n a. destruct (HF (F + n) ltac:(lia)) as [-> _].
  simpl. intros Ha. destruct (Hall a Ha) as [j Hj].
  destruct (ai_lss _ _ _ _ Hinv _ _ Hj) as (Hjv & Hjs).
  exists j. split_and!; try done.
  destruct (decide (a = 0)) as [->|Hne]; [done|].
  destruct Hjs as [Hjsuf Hjlen].
  rewrite !(word_of_pth _ _ _ _ _ Hinv) by done.
  split_and!; try done. intros b Hb.
  rewrite !(word_of_pth _ _ _ _ _ Hinv) by done. intros Hbs Hbl.
  destruct (aho_longest _ _ _ _ Haho (length (pth a)) a (Nat.le_refl _))
    as (Hlong & _).
  apply (Hlong j b); try done. intros ->. lia.
Qed.

(** X4. After [finalize] the step of [search_all] from a state on a symbol
    leads to the state whose word is the longest suffix, among the words
    of the tree, of the word of the state followed by the symbol. *)
Theorem step_longest (ci : bool) (ks : list string) :
  ∃ F, ∀ n a c sa zero,
    let h := heap (automaton (F + n) ci ks) in
    h !! a = Some sa → h !! 0 = Some zero →
    let t := step zero sa c in
    t < length h ∧
    word_of h t `suffix_of` word_of h a ++ [c] ∧
    ∀ b, b < length h → word_of h b `suffix_of` word_of h a ++ [c] →
      word_of h b `suffix_of` word_of h t.
Proof.
  destruct (automaton_aho ci ks)
    as (pth & t & [F HF] & Hf & Hci & _ & _ & _ & Haho).
  pose proof Haho as (((Hinv & H0 & Hdone) & Hall) & _).
  exists F. intros n a c sa zero. destruct (HF (F + n) ltac:(lia)) as [-> _].
  simpl. intros Ha Hz.
  assert (a < length (heap t)) as Hav by by eapply lookup_lt_Some.
  assert (tracks pth (heap t) (pth a) a) as Htr by by split_and!.
  destruct (step_tracks _ _ _ _ _ _ _ c _ Haho Hz Ha Htr) as (Hv & Hs & Hmax).
  rewrite !(word_of_pth _ _ _ _ _ Hinv) by done.
  split_and!; try done. intros b Hb.
  rewrite !(word_of_pth _ _ _ _ _ Hinv) by done. by apply Hmax.
Qed.

(** X5. Whatever the tree, the fuel and the outcome, [search_all] returns
    the tree as it received it: it only reads. *)
Theorem search_all_reads_only (fuel : nat) (text : string)
    (t : KeywordTree) :
  snd (search_all fuel text t) = t.
Proof.
  assert (∀ fuel s ret_, snd (emit_loop fuel s ret_ t) = t) as Hemit.
  { clear fuel. induction fuel as [|fuel IH]; intros s ret_; simpl.
    - by destruct (decide (s = Some _zero_state)).
    - destruct (decide (s = Some _zero_state)); [done|].
      unfold bind. destruct s as [a|]; simpl; [|done].
      unfold deref. destruct (heap t !! a); [apply IH|done]. }
  unfold search_all. destruct (negb (_finalized t)); [done|].
  generalize (chars (if _case_insensitive t then lower text else text)).
  generalize (@nil (option string)). generalize _zero_state.
  intros cur ret_ w. revert cur ret_.
  induction w as [|c w IH]; intros cur ret_; simpl; [done|].
  unfold bind at 1. unfold deref at 1.
  destruct (heap t !! cur) as [sc|]; [|done].
  unfold bind at 1. unfold deref at 1.
  destruct (heap t !! _zero_state) as [zero|]; [|done].
  unfold bind. specialize (Hemit fuel (Some (step zero sc c)) ret_).
  destruct (emit_loop fuel (Some (step zero sc c)) ret_ t) as [[r| |] t'];
    simpl in Hemit; subst t'; [apply IH|done|done].
Qed.

(** ** [add] *)

(** looking the word [w] up in the tree: along the dicts from the root, to
    a state at which a keyword ends *)
Definition trie_get (t : KeywordTree) (w : list ascii) : option string :=
  a ← follow (heap t) 0 w;
  st ← heap t !! a;
  if success st then matched_keyword st else None.

(** X6. The tree built by [add] is a map from the words stored to the
    keywords: looking a word up finds the keyword added last among those
    stored as this word, and nothing when no keyword is stored as it; the
    empty word is never found. *)
Theorem built_lookup (ci : bool) (ks : list string) (w : list ascii) :
  trie_get (built ci ks) w =
  if decide (w = []) then None else last_with ci ks w.
Proof.
  destruct (built_spec ci ks) as (_ & Hci & pth & Hb).
  pose proof Hb as (Hinv & _). rewrite Hci in Hinv.
  destruct (ai_root _ _ _ _ Hinv) as (Hp0 & st0 & Hst0 & _).
  assert (0 < length (heap (built ci ks))) as H0v by by eapply lookup_lt_Some.
  unfold trie_get. destruct (decide (w = [])) as [->|Hw].
  { simpl. rewrite Hst0. simpl. destruct (success st0) eqn:Hs; [|done].
    by destruct (ai_match _ _ _ _ Hinv _ _ Hst0 Hs) as (k & _ & _ & _ & ?). }
  assert (∀ k, last_with ci ks w = Some k →
            ∃ a st, follow (heap (built ci ks)) 0 w = Some a ∧
                    heap (built ci ks) !! a = Some st ∧ success st = true)
    as Hterm.
  { intros k [Hl <-]%last_with_spec.
    apply (built_terminal ci ks k); [by eapply last_form_elem|done]. }
  destruct (follow (heap (built ci ks)) 0 w) as [a|] eqn:Hfol; simpl.
  2:{ destruct (last_with ci ks w) as [k|] eqn:Hl; [|done].
      by destruct (Hterm k eq_refl) as (a & st & ? & _). }
  destruct (follow_build _ _ _ Hb w 0 a H0v Hfol) as [Ha Hpa].
  rewrite Hp0 in Hpa. simpl in Hpa.
  apply lookup_lt_is_Some_2 in Ha as [st Hst]. rewrite Hst. simpl.
  destruct (success st) eqn:Hs.
  - destruct (ai_match _ _ _ _ Hinv _ _ Hst Hs) as (k & -> & Hl & Hn & _).
    symmetry. apply last_with_spec. split; [done|congruence].
  - destruct (last_with ci ks w) as [k|] eqn:Hl; [|done].
    destruct (Hterm k eq_refl) as (a' & st' & ? & ? & ?). congruence.
Qed.

(** X7. [add] ignores the empty keyword: the tree built from a list of
    keywords is the tree built from its non-empty keywords. *)
Theorem empty_keywords_ignored (ci : bool) (ks : list string) :
  built ci ks = built ci (filter (λ k, k ≠ "") ks).
Proof.
  unfold built.
  assert (∀ ks t ks0 pth, build_inv ks0 pth t →
            add_all ks t = add_all (filter (λ k, k ≠ "") ks) t) as Hgen.
  { clear ks. induction ks as [|k ks IH]; intros t ks0 pth Hb; [done|].
    rewrite filter_cons. destruct (decide (k ≠ "")) as [Hk|Hk].
    - simpl. destruct (add_spec k t ks0 pth Hb) as (t1 & pth1 & Hrun & Hb1 & _).
      rewrite !(bind_ok _ _ _ _ _ Hrun). by eapply IH.
    - apply dec_stable in Hk. subst k. simpl.
      assert (add "" t = (Ok tt, t)) as Hrun.
      { destruct Hb as (_ & _ & _ & Hfin). unfold add. rewrite Hfin.
        by destruct (_case_insensitive t). }
      rewrite (bind_ok _ _ _ _ _ Hrun). by eapply IH. }
  by rewrite (Hgen ks _ _ _ (new_KeywordTree_inv ci)).
Qed.

(** X8. In a tree built by [add] the counter is the number of states, and
    the identifier of a state is the number of states created before it:
    no two states have the same identifier. *)
Theorem identifiers_count (ci : bool) (ks : list string) :
  let t := built ci ks in
  _counter t = length (heap t) ∧
  (∀ a st, heap t !! a = Some st → identifier st = a) ∧
  ∀ a b sa sb, heap t !! a = Some sa → heap t !! b = Some sb →
    identifier sa = identifier sb → a = b.
Proof.
  destruct (built_spec ci ks) as (_ & _ & pth & Hinv & _ & Hcnt & _).
  simpl. split_and!; [done|apply (ai_id _ _ _ _ Hinv)|].
  intros a b sa sb Ha Hb.
  by rewrite (ai_id _ _ _ _ Hinv _ _ Ha), (ai_id _ _ _ _ Hinv _ _ Hb).
Qed.

Lemma add_loop_size cs : ∀ cur t ks pth n t',
  build_inv ks pth t → cur < length (heap t) →
  add_loop cs cur t = (Ok n, t') →
  length (heap t') ≤ length (heap t) + length cs.
Proof.
  induction cs as [|char cs IH]; intros cur t ks pth n t' Hb Hcur; simpl.
  { intros [= _ <-]. lia. }
  pose proof Hb as (Hinv & Hnone & Hcnt & Hfin).
  apply lookup_lt_is_Some_2 in Hcur as Hst. destruct Hst as [st Hst].
  rewrite (bind_ok _ _ _ _ _ (deref_ok _ _ _ Hst)).
  destruct (dict_get char (transitions st)) as [next_state|] eqn:Hget.
  - apply dict_get_elem in Hget.
    rewrite <- (entries_lookup _ _ _ Hst) in Hget.
    destruct (ai_tr _ _ _ _ Hinv _ _ _ Hget) as (Hlt & _ & _).
    intros Hrun. pose proof (IH next_state t ks pth n t' Hb Hlt Hrun). lia.
  - rewrite (add_loop_create _ t cur st char Hst Hcnt Hget).
    set (t1 := {| heap := extend (heap t) cur char;
                  _counter := length (heap t) + 1;
                  _finalized := _finalized t;
                  _case_insensitive := _case_insensitive t |}) in *.
    assert (build_inv ks (extend_pth (heap t) cur char pth) t1) as Hb1.
    { split_and!; simpl.
      - by eapply extend_inv.
      - intros a. by rewrite (extend_lss_of _ _ _ _ Hst).
      - rewrite (extend_length _ _ _ _ Hst). lia.
      - done. }
    assert (length (heap t1) = S (length (heap t))) as Hlen1.
    { simpl. by rewrite (extend_length _ _ _ _ Hst). }
    assert (length (heap t) < length (heap t1)) as Hlt1 by lia.
    intros Hrun. pose proof (IH _ t1 ks _ n t' Hb1 Hlt1 Hrun). lia.
Qed.

Lemma sum_list_snoc (l : list nat) (x : nat) :
  sum_list (l ++ [x]) = sum_list l + x.
Proof. induction l as [|y l IH]; simpl; lia. Qed.

(** X9. The tree built by [add] has, the root apart, at most one state
    for each symbol of the keywords as it stores them, that is, for each
    symbol of the keywords when the tree is case-sensitive. *)
Theorem built_size (ks : list string) :
  (∀ ci, length (heap (built ci ks))
         ≤ 1 + sum_list ((λ k, length (normk ci k)) <$> ks)) ∧
  length (heap (built false ks)) ≤ 1 + sum_list (String.length <$> ks).
Proof.
  assert (∀ ci, length (heap (built ci ks))
                ≤ 1 + sum_list ((λ k, length (normk ci k)) <$> ks)) as Hgen.
  2:{ split; [done|]. specialize (Hgen false).
      erewrite list_fmap_ext in Hgen; [done|].
      intros i k _. apply chars_length. }
  intros ci.
  induction ks as [|k ks IH] using rev_ind; [simpl; lia|].
  destruct (built_spec ci ks) as (_ & Hci & pth & Hb).
  pose proof (built_snoc ci ks k) as Hadd.
  rewrite fmap_app. simpl. rewrite sum_list_snoc.
  assert (length (heap (built ci (ks ++ [k])))
          ≤ length (heap (built ci ks)) + length (normk ci k)); [|lia].
  revert Hadd. generalize (built ci (ks ++ [k])). intros t'.
  pose proof Hb as (Hinv & _ & _ & Hfin).
  unfold add. rewrite Hfin.
  destruct (String.length _ <=? 0); [intros [= <-]; lia|].
  destruct (add_loop_spec
              (chars (if _case_insensitive (built ci ks) then lower k else k))
              0 _ ks pth Hb)
    as (n & t1 & pth' & Hrun & Hb1 & Hn & _).
  { destruct (ai_root _ _ _ _ Hinv) as (_ & st0 & Hst0 & _).
    by eapply lookup_lt_Some. }
  rewrite (bind_ok _ _ _ _ _ Hrun).
  apply lookup_lt_is_Some_2 in Hn as [st Hst].
  rewrite (modify_ok _ _ _ _ Hst). intros [= <-]. simpl.
  rewrite length_insert.
  pose proof (add_loop_size (normk (_case_insensitive (built ci ks)) k)
                0 _ ks pth n t1 Hb) as Hsz.
  rewrite Hci in Hsz at 2. apply Hsz; [|done].
  destruct (ai_root _ _ _ _ Hinv) as (_ & st0 & Hst0 & _).
  by eapply lookup_lt_Some.
Qed.

(** ** [finalize] *)

(** X10. [finalize] keeps the tree: it creates no state, and in every state
    it leaves the identifier, the symbol, the parent, the mark and the
    keyword as they were; what the dict of a state gave for a symbol, a
    child, it still gives. *)
Theorem finalize_keeps_tree (ci : bool) (ks : list string) :
  ∃ F, ∀ n,
    let b := built ci ks in
    let a := automaton (F + n) ci ks in
    _counter a = _counter b ∧ _case_insensitive a = _case_insensitive b ∧
    length (heap a) = length (heap b) ∧
    ∀ i st, heap b !! i = Some st →
      ∃ st', heap a !! i = Some st' ∧
        identifier st' = identifier st ∧ symbol st' = symbol st ∧
        parent st' = parent st ∧ success st' = success st ∧
        matched_keyword st' = matched_keyword st ∧
        ∀ c x, dict_get c (transitions st) = Some x →
          dict_get c (transitions st') = Some x.
Proof.
  destruct (built_spec ci ks) as (_ & Hci & pth & Hb).
  destruct (finalize_spec ks pth _ Hb) as (h' & [F HF] & Hfin & Hsh).
  pose proof Hb as (Hinv & Hnone & _).
  pose proof Hfin as ((Hinv' & _) & _).
  exists F. intros n. simpl. unfold automaton.
  rewrite (HF (F + n) ltac:(lia)). simpl.
  split_and!; [done|done|by apply same_shape_length|].
  intros i st Hst.
  destruct (same_shape_lookup _ _ _ _ Hsh Hst) as (st' & Hst' & Heq).
  exists st'. unfold shape in Heq. split_and!; try congruence.
  intros c x Hx. apply dict_get_elem in Hx.
  rewrite <- (entries_lookup _ _ _ Hst) in Hx.
  destruct (ai_tr _ _ _ _ Hinv _ _ _ Hx) as (Hxv & Hsym & _).
  pose proof (ai_fresh _ _ _ _ Hinv _ _ _ (Hnone i) Hx) as Hpar.
  pose proof (auto_inv_target_nonzero _ _ _ _ _ _ _ Hinv Hx) as Hx0.
  rewrite <- (same_shape_length _ _ Hsh) in Hxv.
  destruct (auto_inv_node _ _ _ _ _ Hinv' Hxv Hx0)
    as (sx & p & c' & _ & _ & _ & Hp & Hc & _ & Hg & _).
  rewrite (same_shape_parent_of _ _ _ Hsh) in Hp.
  rewrite (same_shape_symbol_of _ _ _ Hsh) in Hc.
  assert (p = i) as -> by congruence. assert (c' = c) as -> by congruence.
  by rewrite (entries_lookup _ _ _ Hst') in Hg.
Qed.

(** X11. On the finalized automaton a further call of [search_lss] for a
    state other than the root changes nothing: the search ends at the
    suffix that the state has, and the dict of the state has an entry for
    every key of the dict of the suffix. *)
Theorem search_lss_idempotent (ci : bool) (ks : list string) (s : ref) :
  ∃ F, ∀ n,
    let a := automaton (F + n) ci ks in
    s ≠ 0 → s < length (heap a) → search_lss (F + n) s a = (Ok tt, a).
Proof.
  destruct (automaton_final ci ks)
    as (pth & t & [F1 HF1] & Hf & Hci & (Hinv & H0 & Hdone) & Hall).
  destruct (decide (s ≠ 0 ∧ s < length (heap t))) as [[Hne Hs]|Hno].
  - destruct (Hall s Hs) as [j Hj].
    pose proof (search_lss_again _ _ _ _ _ _ Hinv Hne Hj (Hdone s)) as HF2.
    exists (max F1 1). intros n.
    destruct (HF1 (max F1 1 + n) ltac:(lia)) as [-> _].
    simpl. intros _ _. apply HF2. lia.
  - exists F1. intros n. destruct (HF1 (F1 + n) ltac:(lia)) as [-> _].
    simpl. intros ? ?. by destruct Hno.
Qed.

(** ** The keywords as a set *)

Lemma last_form_sensitive ks k : last_form false ks k ↔ k ∈ ks.
Proof.
  split; [apply last_form_elem|]. intros Hk.
  destruct (last_form_exists false ks k Hk) as (k' & Hl & Heq).
  apply chars_inj in Heq. by subst.
Qed.

Lemma naive_search_ext ci ks1 ks2 text :
  (∀ k, last_form ci ks1 k ↔ last_form ci ks2 k) →
  naive_search ci ks1 text = naive_search ci ks2 text.
Proof.
  intros Heq. unfold naive_search. simpl.
  assert (∀ w, last_with ci ks1 w = last_with ci ks2 w) as Hl.
  { intros w. apply option_eq. intros k. by rewrite !last_with_spec, Heq. }
  apply list_bind_ext; [|done]. intros i. unfold reports_at.
  apply list_omap_ext, Forall_Forall2_diag, Forall_forall.
  intros j _. apply Hl.
Qed.

(** X12. For the case-sensitive automaton the keywords count as a set:
    two lists with the same keywords, in any order and with any
    repetition, give the same result for every text. *)
Theorem keywords_as_set (ks1 ks2 : list string) (text : string) :
  (∀ k, k ∈ ks1 ↔ k ∈ ks2) →
  ∃ F, ∀ n,
    fst (search_all (F + n) text (automaton (F + n) false ks1)) =
    fst (search_all (F + n) text (automaton (F + n) false ks2)).
Proof.
  intros Heq.
  destruct (automaton_aho false ks1)
    as (pth1 & t1 & [F1 HF1] & Hf1 & Hci1 & _ & _ & _ & Haho1).
  destruct (automaton_aho false ks2)
    as (pth2 & t2 & [F2 HF2] & Hf2 & Hci2 & _ & _ & _ & Haho2).
  destruct (search_all_naive _ _ _ _ text Hf1 Hci1 Haho1) as [G1 HG1].
  destruct (search_all_naive _ _ _ _ text Hf2 Hci2 Haho2) as [G2 HG2].
  exists (max (max F1 F2) (max G1 G2)). intros n.
  destruct (HF1 (max (max F1 F2) (max G1 G2) + n) ltac:(lia)) as [-> _].
  destruct (HF2 (max (max F1 F2) (max G1 G2) + n) ltac:(lia)) as [-> _].
  rewrite HG1, HG2 by lia. simpl. do 2 f_equal.
  apply naive_search_ext. intros k. by rewrite !last_form_sensitive.
Qed.

(** the keywords a, b and the keywords b, a, a *)
Lemma keywords_as_set_example :
  (∀ k, k ∈ ["a"; "b"] ↔ k ∈ ["b"; "a"; "a"]) ∧
  (∃ F, ∀ n,
     fst (search_all (F + n) "abba" (automaton (F + n) false ["a"; "b"])) =
     fst (search_all (F + n) "abba"
            (automaton (F + n) false ["b"; "a"; "a"]))) ∧
  fst (search_all 20 "abba" (automaton 20 false ["a"; "b"])) =
  fst (search_all 20 "abba" (automaton 20 false ["b"; "a"; "a"])).
Proof.
  assert (∀ k, k ∈ ["a"; "b"] ↔ k ∈ ["b"; "a"; "a"]) as Heq.
  { intros k. rewrite !elem_of_cons, !elem_of_nil. tauto. }
  split; [exact Heq|].
  split; [exact (keywords_as_set ["a"; "b"] ["b"; "a"; "a"] "abba" Heq)|].
  vm_compute. reflexivity.
Defined.

(** ** Reading a text piece by piece *)

Lemma chars_app s1 s2 : chars (s1 ++ s2)%string = chars s1 ++ chars s2.
Proof. induction s1 as [|c s1 IH]; simpl; [done|]. by rewrite IH. Qed.

Lemma naive_search_app ks t1 t2 :
  ∃ r2,
    naive_search false ks (t1 ++ t2)%string = naive_search false ks t1 ++ r2.
Proof.
  unfold naive_search, normk. simpl. rewrite chars_app, length_app, seq_app.
  rewrite bind_app. eexists. f_equal.
  apply Forall_bind_ext, Forall_forall. intros i Hi%elem_of_seq.
  unfold reports_at. by rewrite take_app_le by lia.
Qed.

(** X13. Reading more text only adds reports: on a finalized
    case-sensitive automaton the result for a text followed by another
    starts with the result for the first.  (Case-insensitive, the text is
    lower-cased as a whole before it is read, and the statement is not
    made.) *)
Theorem search_all_prefix (ks : list string) (text1 text2 : string) :
  ∃ F r1 r2, ∀ n,
    search_all (F + n) text1 (automaton (F + n) false ks)
    = (Ok r1, automaton (F + n) false ks) ∧
    search_all (F + n) (text1 ++ text2)%string (automaton (F + n) false ks)
    = (Ok (r1 ++ r2), automaton (F + n) false ks).
Proof.
  destruct (automaton_aho false ks)
    as (pth & t & [F HF] & Hf & Hci & _ & _ & _ & Haho).
  destruct (search_all_naive _ _ _ _ text1 Hf Hci Haho) as [G1 HG1].
  destruct (search_all_naive _ _ _ _ (text1 ++ text2)%string Hf Hci Haho)
    as [G2 HG2].
  destruct (naive_search_app ks text1 text2) as [r2 Hr2].
  exists (max F (max G1 G2)), (Some <$> naive_search false ks text1),
    (Some <$> r2).
  intros n. destruct (HF (max F (max G1 G2) + n) ltac:(lia)) as [-> _].
  rewrite HG1, HG2 by lia. by rewrite Hr2, fmap_app.
Qed.

(** ** [main] *)

Lemma naive_search_elem ci ks text k :
  k ∈ naive_search ci ks text ↔
  last_form ci ks k ∧ ∃ i, occurs_at ci k (normk ci text) i.
Proof.
  rewrite <- naive_occ_search, list_elem_of_fmap. split.
  - intros ([i k'] & -> & Hin). apply naive_occ_elem in Hin as [? ?]. eauto.
  - intros (Hl & i & Ho). exists (i, k). split; [done|].
    by apply naive_occ_elem.
Qed.

(** keywords added before do not change the form added last of a keyword
    that is added after them *)
Lemma last_form_app_r ci l ks k :
  k ∈ ks → last_form ci (l ++ ks) k ↔ last_form ci ks k.
Proof.
  intros Hk. split.
  - induction l as [|x l IH]; [done|]. intros (l1 & l2 & Heq & Hl).
    apply IH. destruct l1 as [|y l1]; simplify_eq/=.
    + destruct (Hl k); [|done]. rewrite elem_of_app. by right.
    + by exists l1, l2.
  - intros (l1 & l2 & -> & Hl). exists (l ++ l1), l2.
    by rewrite <- app_assoc.
Qed.

Lemma holds_ext conj kw r r' :
  (∀ k, k ∈ kw → Some k ∈ r ↔ Some k ∈ r') →
  holds conj kw r ↔ holds conj kw r'.
Proof.
  intros Heq. unfold holds. destruct conj.
  - rewrite !Forall_forall. split; intros Hall k Hk; apply Heq; auto.
  - rewrite !Exists_exists.
    split; intros (k & Hk & ?); exists k; (split; [done|]); by apply Heq.
Qed.

Lemma matching_from_ext conj kw rs rs' :
  Forall2 (λ r r', ∀ k, k ∈ kw → Some k ∈ r ↔ Some k ∈ r') rs rs' →
  ∀ i, matching_from conj kw i rs = matching_from conj kw i rs'.
Proof.
  induction 1 as [|r r' rs rs' Hr _ IH]; intros i; [done|].
  rewrite !matching_from_cons, IH. f_equal.
  pose proof (holds_ext conj kw r r' Hr) as Hh.
  destruct (decide (holds conj kw r)), (decide (holds conj kw r'));
    try done; tauto.
Qed.

(** the keywords requested are reported by the automaton that [main]
    builds as by the automaton of these keywords alone *)
Lemma seeding_harmless ci conj l kw filelines i :
  matching_from conj kw i
    ((λ line, Some <$> naive_search ci (l ++ kw) line) <$> filelines) =
  matching_from conj kw i
    ((λ line, Some <$> naive_search ci kw line) <$> filelines).
Proof.
  apply matching_from_ext. apply Forall2_fmap, Forall_Forall2_diag.
  apply Forall_forall. intros line _ k Hk.
  rewrite !list_elem_of_fmap.
  split; intros (k' & [= <-] & Hin); exists k; (split; [done|]);
    apply naive_search_elem; apply naive_search_elem in Hin as [Hl Ho];
    (split; [|done]); by apply (last_form_app_r ci l kw k Hk).
Qed.

Lemma lines_loop_naive ci ks pth a conj kw :
  _finalized a = true → _case_insensitive a = ci →
  aho ci ks pth (heap a) →
  ∀ filelines i ret_, ∃ F, ∀ fuel, F ≤ fuel →
    lines_loop fuel (connector_arg conj) kw filelines i ret_ a
    = (Ok (ret_ ++ matching_from conj kw i
                     ((λ line, Some <$> naive_search ci ks line)
                        <$> filelines)), a).
Proof.
  intros Hf Hci Haho.
  induction filelines as [|line filelines IH]; intros i ret_.
  { exists 0. intros fuel _. simpl. unfold ret. by rewrite app_nil_r. }
  destruct (search_all_naive ci ks pth a line Hf Hci Haho) as [F1 HF1].
  set (result := Some <$> naive_search ci ks line).
  set (ret2 :=
         ret_ ++ if decide (holds conj kw result) then [i + 1] else []).
  destruct (IH (S i) ret2) as (F2 & HF2).
  exists (max F1 F2). intros fuel Hfuel. simpl.
  rewrite (bind_ok _ _ _ _ _ (HF1 fuel ltac:(lia))). fold result.
  rewrite lines_loop_ret. fold ret2. rewrite (HF2 fuel) by lia.
  by rewrite matching_from_cons, app_assoc.
Qed.

Lemma claimed_results ci ks :
  ∀ filelines : list string, ∃ F, ∀ fuel, F ≤ fuel →
    (λ line, match fst (search_all fuel line (automaton fuel ci ks)) with
             | Ok result => result
             | _ => []
             end) <$> filelines
    = (λ line, Some <$> naive_search ci ks line) <$> filelines.
Proof.
  destruct (automaton_aho ci ks)
    as (pth & t & [F HF] & Hf & Hci & _ & _ & _ & Haho).
  induction filelines as [|line filelines [F2 IH]].
  { by exists 0. }
  destruct (search_all_naive ci ks pth t line Hf Hci Haho) as [F1 HF1].
  exists (max F (max F1 F2)). intros fuel Hfuel.
  rewrite !fmap_cons, (IH fuel) by lia. f_equal.
  destruct (HF fuel ltac:(lia)) as [-> _]. by rewrite (HF1 fuel) by lia.
Qed.

(** what [main] prints for the arguments [argv] and the lines of the
    file: the readme for the arguments that it refuses, and else the
    numbers of the lines in which all the keywords, or one of them, are
    found by the reference matcher *)
Definition usage_error (argv : list string) : bool :=
  (length argv <? 6)
  || negb (bool_decide (argv !! 2 ∈ [Some "true"; Some "false"]))
  || negb (bool_decide (argv !! 3 ∈ [Some "and"; Some "or"])).

Definition main_spec (argv filelines : list string) : output :=
  if usage_error argv then Readme
  else
    let ci := bool_decide (argv !! 2 = Some "false") in
    let conj := bool_decide (argv !! 3 = Some "and") in
    let kw := drop 4 argv in
    Lines (matching_lines conj kw
             ((λ line, Some <$> naive_search ci kw line) <$> filelines)).

Lemma main_run (prog file : string) (case_sensitive conj : bool)
    (kw filelines : list string) :
  2 ≤ length kw →
  ∃ F, ∀ fuel, F ≤ fuel →
    main fuel (prog :: file :: flag_arg case_sensitive ::
               connector_arg conj :: kw) filelines
    = Ok (Lines (matching_lines conj kw
                   ((λ line, Some <$> naive_search (negb case_sensitive) kw line)
                      <$> filelines))).
Proof.
  intros Hkw.
  set (ci := negb case_sensitive).
  set (ks := flag_arg case_sensitive :: connector_arg conj :: kw).
  destruct (automaton_aho ci ks)
    as (pth & a & [F1 HF1] & Hf & Hci & _ & _ & _ & Haho).
  destruct (lines_loop_naive ci ks pth a conj kw Hf Hci Haho filelines 0 [])
    as (F2 & HF2).
  destruct (built_spec ci ks) as (Hbuilt & _).
  exists (max F1 F2). intros fuel Hfuel.
  destruct (HF1 fuel ltac:(lia)) as [_ Hrun].
  unfold main. unfold ks at 1 2 3. cbv iota.
  assert (bool_decide (flag_arg case_sensitive = "false") = ci) as ->
    by by destruct case_sensitive.
  assert (bool_decide (flag_arg case_sensitive ∈ ["true"; "false"]) = true)
    as ->.
  { apply bool_decide_eq_true_2. destruct case_sensitive; repeat constructor. }
  assert (bool_decide (connector_arg conj ∈ ["and"; "or"]) = true) as ->.
  { apply bool_decide_eq_true_2. destruct conj; repeat constructor. }
  assert ((length (prog :: file :: flag_arg case_sensitive ::
                   connector_arg conj :: kw) <? 6) = false) as ->.
  { apply Nat.ltb_ge. simpl. lia. }
  simpl. fold ks.
  rewrite (bind_ok _ _ _ _ _ Hbuilt), (bind_ok _ _ _ _ _ Hrun).
  rewrite (HF2 fuel) by lia. simpl. unfold matching_lines.
  by rewrite (seeding_harmless ci conj
                [flag_arg case_sensitive; connector_arg conj] kw).
Qed.

(** X14. [main] prints what its specification [main_spec] says, whatever
    the arguments and the file: the readme when there are fewer than six
    arguments or the case flag or the connector is not one of the two
    values accepted, and else the 1-based numbers of the lines in which
    the reference matcher, given the keywords requested alone, finds all
    of them (and) or one of them (or). This is what [main] prints when
    the interpreter leaves enough frames to the recursion of [search_lss]
    ([F] of them); the flag and the connector, which [main] also adds to
    the tree, do not change what is printed. *)
Theorem main_correct (argv filelines : list string) :
  ∃ F, ∀ n, main (F + n) argv filelines = Ok (main_spec argv filelines).
Proof.
  destruct argv as [|prog [|file [|flag [|conn kw]]]];
    try (by exists 0).
  unfold main_spec.
  assert (usage_error (prog :: file :: flag :: conn :: kw) =
          (length (prog :: file :: flag :: conn :: kw) <? 6)
          || negb (bool_decide (flag ∈ ["true"; "false"]))
          || negb (bool_decide (conn ∈ ["and"; "or"]))) as Hguard.
  { unfold usage_error. simpl lookup. f_equal; [f_equal|]; f_equal;
      apply bool_decide_ext; rewrite !elem_of_cons, !elem_of_nil;
      split; intros [?|[?|[]]]; simplify_eq; auto. }
  destruct (usage_error (prog :: file :: flag :: conn :: kw)) eqn:Hu.
  { exists 0. intros n. unfold main. by rewrite <- Hguard. }
  symmetry in Hguard.
  apply orb_false_iff in Hguard as [[Hlen Hflag]%orb_false_iff Hconn].
  apply Nat.ltb_ge in Hlen. simpl in Hlen.
  apply negb_false_iff, bool_decide_eq_true_1 in Hflag, Hconn.
  assert (∃ cs, flag = flag_arg cs) as [cs ->].
  { apply elem_of_cons in Hflag as [->|Hflag]; [by exists true|].
    apply elem_of_cons in Hflag as [->|Hflag]; [by exists false|].
    by apply elem_of_nil in Hflag. }
  assert (∃ conj, conn = connector_arg conj) as [conj ->].
  { apply elem_of_cons in Hconn as [->|Hconn]; [by exists true|].
    apply elem_of_cons in Hconn as [->|Hconn]; [by exists false|].
    by apply elem_of_nil in Hconn. }
  destruct (main_run prog file cs conj kw filelines ltac:(lia)) as [F HF].
  exists F. intros n. rewrite HF by lia. simpl lookup. simpl drop.
  assert (bool_decide (Some (flag_arg cs) = Some "false") = negb cs) as ->
    by by destruct cs.
  assert (bool_decide (Some (connector_arg conj) = Some "and") = conj) as ->
    by by destruct conj.
  done.
Qed.

(** X15. With a file, a valid case flag, a valid connector and at least
    two keywords, [main] prints what the specification claims: the lines
    selected by the results of an automaton built from the keywords
    requested alone, although [main] builds its automaton from the flag
    and the connector as well. *)
Theorem main_as_claimed (prog file : string) (case_sensitive conj : bool)
    (k1 k2 : string) (kw filelines : list string) :
  ∃ F, ∀ n,
    main (F + n)
      (prog :: file :: flag_arg case_sensitive :: connector_arg conj ::
       k1 :: k2 :: kw) filelines
    = Ok (output_as_claimed (F + n) case_sensitive conj (k1 :: k2 :: kw)
            filelines).
Proof.
  destruct (main_run prog file case_sensitive conj (k1 :: k2 :: kw) filelines)
    as [F1 HF1]; [simpl; lia|].
  destruct (claimed_results (negb case_sensitive) (k1 :: k2 :: kw) filelines)
    as [F2 HF2].
  exists (max F1 F2). intros n. rewrite HF1 by lia.
  unfold output_as_claimed. by rewrite HF2 by lia.
Qed.

(** the reference matcher on the classic example *)
Lemma naive_search_example :
  naive_search false ["a"; "ab"; "bab"; "bc"; "bca"; "c"; "caa"] "abccab"
    = ["a"; "ab"; "bc"; "c"; "c"; "a"; "ab"] ∧
  naive_search true ["Cat"; "CAT"; "at"] "The Cat" = ["CAT"; "at"].
Proof. split; by vm_compute. Qed.

(** ** The case of the text *)

Lemma lower_symbol_idem c : lower_symbol (lower_symbol c) = lower_symbol c.
Proof. destruct c as [[] [] [] [] [] [] [] []]; by vm_compute. Qed.

Lemma normk_lower text : normk true (lower text) = normk true text.
Proof.
  unfold normk. rewrite !chars_lower, map_map.
  apply map_ext. intros c. apply lower_symbol_idem.
Qed.

(** X16. The case-insensitive automaton ignores the case of the text: a
    text and the text in lower case give the same result. *)
Theorem case_of_text_ignored (ks : list string) (text : string) :
  ∃ F, ∀ n,
    search_all (F + n) (lower text) (automaton (F + n) true ks) =
    search_all (F + n) text (automaton (F + n) true ks).
Proof.
  destruct (automaton_aho true ks)
    as (pth & t & [F HF] & Hf & Hci & _ & _ & _ & Haho).
  destruct (search_all_naive _ _ _ _ text Hf Hci Haho) as [G1 HG1].
  destruct (search_all_naive _ _ _ _ (lower text) Hf Hci Haho) as [G2 HG2].
  exists (max F (max G1 G2)). intros n.
  destruct (HF (max F (max G1 G2) + n) ltac:(lia)) as [-> _].
  rewrite HG1, HG2 by lia. do 3 f_equal.
  unfold naive_search. simpl. by rewrite normk_lower.
Qed.

(** X17. [add] raises nothing while the tree is under construction:
    whatever the keywords added so far and the keyword, it returns
    normally, the tree is then the tree built from the keywords with this
    one at the end, and the tree is still under construction, in the same
    mode. *)
Theorem add_never_raises (ci : bool) (ks : list string) (k : string) :
  add k (built ci ks) = (Ok tt, built ci (ks ++ [k])) ∧
  _finalized (built ci (ks ++ [k])) = false ∧
  _case_insensitive (built ci (ks ++ [k])) = ci.
Proof.
  split; [apply built_snoc|]. split; [apply built_not_finalized|].
  by destruct (built_spec ci (ks ++ [k])) as (_ & ? & _).
Qed.

(** ** The states of the tree *)

(** X18. The tree built by [add] is the tree of the prefixes of the
    keywords as they are stored: the word of every state other than the
    root is a prefix of a keyword added, every prefix of a keyword added
    is the word of a state, and no two states have the same word. *)
Theorem states_are_prefixes (ci : bool) (ks : list string) :
  let h := heap (built ci ks) in
  (∀ a, a < length h → a ≠ 0 →
     ∃ k, k ∈ ks ∧ word_of h a `prefix_of` normk ci k) ∧
  (∀ k w, k ∈ ks → w `prefix_of` normk ci k →
     ∃ a, a < length h ∧ word_of h a = w) ∧
  (∀ a b, a < length h → b < length h → word_of h a = word_of h b → a = b).
Proof.
  simpl. split_and!.
  - apply built_words.
  - destruct (built_spec ci ks) as (_ & Hci & pth & Hb).
    pose proof Hb as (Hinv & _). rewrite Hci in Hinv.
    destruct (ai_root _ _ _ _ Hinv) as (Hp0 & st0 & Hst0 & _).
    assert (0 < length (heap (built ci ks))) as H0v
      by by eapply lookup_lt_Some.
    intros k w Hk [rest Hw].
    destruct (decide (normk ci k = [])) as [Hnil|Hne].
    { rewrite Hnil in Hw. symmetry in Hw. apply app_eq_nil in Hw as [-> _].
      exists 0. split; [done|].
      by rewrite (word_of_pth _ _ _ _ _ Hinv H0v). }
    destruct (built_terminal ci ks k Hk Hne) as (a & st & Hfol & _).
    rewrite Hw, follow_app in Hfol.
    destruct (follow (heap (built ci ks)) 0 w) as [b|] eqn:Hb'; [|done].
    destruct (follow_build _ _ _ Hb w 0 b H0v Hb') as [Hbv Hpb].
    exists b. split; [done|].
    by rewrite (word_of_pth _ _ _ _ _ Hinv Hbv), Hpb, Hp0.
  - destruct (built_spec ci ks) as (_ & Hci & pth & Hinv & _).
    intros a b Ha Hb.
    rewrite !(word_of_pth _ _ _ _ _ Hinv) by done.
    by apply (ai_inj _ _ _ _ Hinv).
Qed.

(** ** More keywords *)

Lemma omap_sublist {A B} (f g : A → option B) (l : list A) :
  (∀ j x, f j = Some x → g j = Some x) →
  omap f l `sublist_of` omap g l.
Proof.
  intros Hfg. induction l as [|j l IH]; simpl; [constructor|].
  destruct (f j) as [x|] eqn:Hf.
  - rewrite (Hfg _ _ Hf). by apply sublist_skip.
  - destruct (g j); [by apply sublist_cons|done].
Qed.

Lemma bind_sublist_ext {A B} (f g : A → list B) (l : list A) :
  (∀ i, f i `sublist_of` g i) → l ≫= f `sublist_of` l ≫= g.
Proof.
  intros Hfg. induction l as [|i l IH]; [constructor|].
  rewrite !bind_cons. by apply sublist_app.
Qed.

(** X19. For the case-sensitive automaton more keywords only add reports:
    the result for a text with the keywords [ks] is a sublist of the result
    with the keywords [ks] and [more]. *)
Theorem more_keywords_more_reports (ks more : list string) (text : string) :
  ∃ F r r', ∀ n,
    search_all (F + n) text (automaton (F + n) false ks)
    = (Ok r, automaton (F + n) false ks) ∧
    search_all (F + n) text (automaton (F + n) false (ks ++ more))
    = (Ok r', automaton (F + n) false (ks ++ more)) ∧
    r `sublist_of` r'.
Proof.
  destruct (automaton_aho false ks)
    as (pth1 & t1 & [F1 HF1] & Hf1 & Hci1 & _ & _ & _ & Haho1).
  destruct (automaton_aho false (ks ++ more))
    as (pth2 & t2 & [F2 HF2] & Hf2 & Hci2 & _ & _ & _ & Haho2).
  destruct (search_all_naive _ _ _ _ text Hf1 Hci1 Haho1) as [G1 HG1].
  destruct (search_all_naive _ _ _ _ text Hf2 Hci2 Haho2) as [G2 HG2].
  exists (max (max F1 F2) (max G1 G2)),
    (Some <$> naive_search false ks text),
    (Some <$> naive_search false (ks ++ more) text).
  intros n.
  destruct (HF1 (max (max F1 F2) (max G1 G2) + n) ltac:(lia)) as [-> _].
  destruct (HF2 (max (max F1 F2) (max G1 G2) + n) ltac:(lia)) as [-> _].
  split_and!; [apply HG1; lia|apply HG2; lia|].
  apply fmap_sublist. unfold naive_search. simpl.
  apply bind_sublist_ext. intros i. unfold reports_at.
  apply omap_sublist. intros j x [Hl Hx]%last_with_spec.
  apply last_with_spec. split; [|done].
  apply last_form_sensitive. apply last_form_sensitive in Hl.
  rewrite elem_of_app. by left.
Qed.
